(** * pygame-utils: the tweening core (tween.py, easing.py, events.py)

    A shallow embedding of the interpolator [lerp], the easing curves, the
    [Tween] state machine, the [Tweens] collection and the [TweenGroup]
    relay, with the properties of the specification stated over them. *)

From Stdlib Require Import ZArith Lia Bool List String Ascii.
From Stdlib Require Import Floats.SpecFloat Floats.PrimFloat Floats.FloatOps.
From Stdlib Require Import Reals Lra.
From stdpp Require Import base gmap strings list.

Local Open Scope Z_scope.

(** ** Python numbers

    A Python [int] is an unbounded integer ([Z]); a Python [float] is an IEEE
    754 binary64 value, here a [spec_float] with the operations of
    [SpecFloat] at precision 53 and maximal exponent 1024 (round to nearest,
    ties to even).  An operation that raises an exception returns [None]. *)
Module PyNum.

Definition prec : Z := 53.
Definition emax : Z := 1024.

Definition fadd := SFadd prec emax.
Definition fsub := SFsub prec emax.
Definition fmul := SFmul prec emax.
Definition fdiv := SFdiv prec emax.

Inductive number :=
| NInt (z : Z)
| NFloat (f : spec_float).

Definition is_finite (f : spec_float) : bool :=
  match f with
  | S754_zero _ | S754_finite _ _ _ => true
  | S754_infinity _ | S754_nan => false
  end.

Definition is_zero (f : spec_float) : bool :=
  match f with
  | S754_zero _ => true
  | _ => false
  end.

(** [float(z)] for an [int] z: correctly rounded; OverflowError when the
    rounded value is not finite. *)
Definition float_of_int (z : Z) : option spec_float :=
  match binary_normalize prec emax z 0 false with
  | S754_zero s => Some (S754_zero s)
  | S754_finite s m e => Some (S754_finite s m e)
  | S754_infinity _ | S754_nan => None
  end.

(** The operand conversion of mixed arithmetic. *)
Definition to_float (n : number) : option spec_float :=
  match n with
  | NInt z => float_of_int z
  | NFloat f => Some f
  end.

(** [int(f)]: truncation toward zero; ValueError on nan, OverflowError on
    an infinity. *)
Definition int_of_float (f : spec_float) : option Z :=
  match f with
  | S754_zero _ => Some 0
  | S754_finite s m e =>
      let mag := match e with
                 | Zneg p => Z.shiftr (Zpos m) (Zpos p)
                 | _ => Z.shiftl (Zpos m) e
                 end in
      Some (if s then - mag else mag)
  | S754_infinity _ | S754_nan => None
  end.

Definition py_int (n : number) : option Z :=
  match n with
  | NInt z => Some z
  | NFloat f => int_of_float f
  end.

Definition arith (iop : Z -> Z -> Z) (fop : spec_float -> spec_float -> spec_float)
    (x y : number) : option number :=
  match x, y with
  | NInt a, NInt b => Some (NInt (iop a b))
  | _, _ =>
      match to_float x, to_float y with
      | Some a, Some b => Some (NFloat (fop a b))
      | _, _ => None
      end
  end.

Definition num_add := arith Z.add fadd.
Definition num_sub := arith Z.sub fsub.
Definition num_mul := arith Z.mul fmul.

(** An integer as an unrounded float, for the quotient of two integers. *)
Definition exact (z : Z) : spec_float :=
  match z with
  | Z0 => S754_zero false
  | Zpos p => S754_finite false p 0
  | Zneg p => S754_finite true p 0
  end.

(** True division [x / y]: always a float; ZeroDivisionError on a zero
    divisor.  Of two integers Python rounds the exact quotient once
    (OverflowError when it is too large for a float); otherwise an integer
    operand is converted first and the quotient of two floats may be an
    infinity. *)
Definition num_truediv (x y : number) : option number :=
  match x, y with
  | NInt a, NInt b =>
      if b =? 0 then None
      else
        let q := fdiv (exact a) (exact b) in
        if is_finite q then Some (NFloat q) else None
  | _, _ =>
      match to_float x, to_float y with
      | Some a, Some b => if is_zero b then None else Some (NFloat (fdiv a b))
      | _, _ => None
      end
  end.

(** The exact comparison of a float with an integer, as Python does it. *)
Definition compare_float_int (f : spec_float) (z : Z) : option comparison :=
  match f with
  | S754_nan => None
  | S754_infinity s => Some (if s then Lt else Gt)
  | S754_zero _ => Some (0 ?= z)
  | S754_finite s m e =>
      let sm := if s then Zneg m else Zpos m in
      Some (match e with
            | Zneg p => sm ?= Z.shiftl z (Zpos p)
            | _ => Z.shiftl sm e ?= z
            end)
  end.

Definition num_compare (x y : number) : option comparison :=
  match x, y with
  | NInt a, NInt b => Some (a ?= b)
  | NFloat f, NFloat g => SFcompare f g
  | NFloat f, NInt b => compare_float_int f b
  | NInt a, NFloat g => option_map CompOpp (compare_float_int g a)
  end.

(** [x == y], [x < y], [x >= y] on numbers. *)
Definition num_eqb (x y : number) : bool :=
  match num_compare x y with Some Eq => true | _ => false end.
Definition num_ltb (x y : number) : bool :=
  match num_compare x y with Some Lt => true | _ => false end.
Definition num_geb (x y : number) : bool :=
  match num_compare x y with Some (Gt | Eq) => true | _ => false end.

(** Binary64 literals. *)
Definition f64 (x : PrimFloat.float) : spec_float := Prim2SF x.

(** [1.0] *)
Definition fone : spec_float := S754_finite false 4503599627370496 (-52).

(** A normal binary64 number: a 53-bit mantissa and an exponent in range. *)
Definition normal (m : positive) (e : Z) : Prop :=
  digits2_pos m = 53%positive /\ -1074 <= e <= 971.

(** A fraction that is a finite number (an [int] too large for a float is
    left out). *)
Definition finite_fraction (x : number) : bool :=
  match to_float x with
  | Some f => is_finite f
  | None => false
  end.

(** The fractions [0] and [0.0] (of either sign), and [1] and [1.0]. *)
Definition zero_fraction (x : number) : bool :=
  match x with
  | NInt z => z =? 0
  | NFloat f => is_zero f
  end.

Definition one_fraction (x : number) : bool :=
  match x with
  | NInt z => z =? 1
  | NFloat (S754_finite false 4503599627370496 (-52)) => true
  | NFloat _ => false
  end.

End PyNum.

(** ** Python values and the interpolator (tween.py, [lerp]) *)
Module Lerp.
Import PyNum.

(** The shapes [lerp] tells apart by [type(a)], and [PObj] for an object
    of any other type (it supports neither arithmetic, [len] nor
    iteration). *)
Local Unset Elimination Schemes.
Inductive pyval :=
| PInt (z : Z)
| PFloat (f : spec_float)
| PStr (s : string)
| PList (l : list pyval)
| PTuple (l : list pyval)
| PObj (id : nat).
Local Set Elimination Schemes.

Definition as_number (v : pyval) : option number :=
  match v with
  | PInt z => Some (NInt z)
  | PFloat f => Some (NFloat f)
  | _ => None
  end.

Definition of_number (n : number) : pyval :=
  match n with
  | NInt z => PInt z
  | NFloat f => PFloat f
  end.

(** The characters of a [str], each a [str] of length one. *)
Fixpoint chars (s : string) : list pyval :=
  match s with
  | EmptyString => []
  | String c s' => PStr (String c EmptyString) :: chars s'
  end.

(** [iter(b)]: what [zip] iterates over; TypeError on a non-iterable. *)
Definition py_iter (b : pyval) : option (list pyval) :=
  match b with
  | PList l | PTuple l => Some l
  | PStr s => Some (chars s)
  | _ => None
  end.

(** [len(b)]; TypeError on an object without a length. *)
Definition py_len (b : pyval) : option Z :=
  match b with
  | PStr s => Some (Z.of_nat (String.length s))
  | PList l | PTuple l => Some (Z.of_nat (List.length l))
  | _ => None
  end.

(** The stop index of the slice [b[:pos]] of a sequence of length [n]: a
    negative [pos] counts from the end, and the result is clamped to
    [0..n]. *)
Definition slice_stop (n pos : Z) : nat :=
  let stop := if pos <? 0 then pos + n else pos in
  Z.to_nat (if stop <? 0 then 0 else if n <? stop then n else stop).

Fixpoint str_take (n : nat) (s : string) : string :=
  match n, s with
  | S k, String c s' => String c (str_take k s')
  | _, _ => EmptyString
  end.

(** [b[:pos]] *)
Definition py_slice_to (b : pyval) (pos : Z) : option pyval :=
  match b with
  | PStr s => Some (PStr (str_take (slice_stop (Z.of_nat (String.length s)) pos) s))
  | PList l => Some (PList (firstn (slice_stop (Z.of_nat (List.length l)) pos) l))
  | PTuple l => Some (PTuple (firstn (slice_stop (Z.of_nat (List.length l)) pos) l))
  | _ => None
  end.

(** [lerp(a, b, value)].  The fraction [value] is a number; [None] is an
    exception raised on the way (a TypeError from the arithmetic, from
    [zip] or from [len], an OverflowError or a ValueError from a
    conversion).  [zip] stops at the shorter of its two arguments. *)
Fixpoint lerp (a b : pyval) (value : number) {struct a} : option pyval :=
  let lerp_zip :=
    fix lerp_zip (xs ys : list pyval) {struct xs} : option (list pyval) :=
      match xs, ys with
      | x :: xs', y :: ys' =>
          match lerp x y value with
          | Some v =>
              match lerp_zip xs' ys' with
              | Some vs => Some (v :: vs)
              | None => None
              end
          | None => None
          end
      | _, _ => Some []
      end in
  match a with
  | PList xs =>
      match py_iter b with
      | Some ys => option_map PList (lerp_zip xs ys)
      | None => None
      end
  | PTuple xs =>
      match py_iter b with
      | Some ys => option_map PTuple (lerp_zip xs ys)
      | None => None
      end
  | PInt za =>
      match as_number b with
      | Some nb =>
          match num_sub nb (NInt za) with
          | Some d =>
              match num_mul d value with
              | Some p =>
                  match py_int p with
                  | Some k => Some (PInt (za + k))
                  | None => None
                  end
              | None => None
              end
          | None => None
          end
      | None => None
      end
  | PFloat fa =>
      match as_number b with
      | Some nb =>
          match num_sub nb (NFloat fa) with
          | Some d =>
              match num_mul d value with
              | Some p => option_map of_number (num_add (NFloat fa) p)
              | None => None
              end
          | None => None
          end
      | None => None
      end
  | PStr sa =>
      let alen := Z.of_nat (String.length sa) in
      match py_len b with
      | Some blen =>
          let diff := blen - alen in
          match num_mul (NInt diff) value with
          | Some p =>
              match py_int p with
              | Some pos => py_slice_to b pos
              | None => None
              end
          | None => None
          end
      | None => None
      end
  | PObj _ => Some b
  end.

(** The element-wise walk of the list and tuple branches, by itself. *)
Section Zip.
Variable value : number.

Fixpoint lerp_zip (xs ys : list pyval) {struct xs} : option (list pyval) :=
  match xs, ys with
  | x :: xs', y :: ys' =>
      match lerp x y value with
      | Some v =>
          match lerp_zip xs' ys' with
          | Some vs => Some (v :: vs)
          | None => None
          end
      | None => None
      end
  | _, _ => Some []
  end.

End Zip.

(** [x == y] on values, as far as the statements below compare them:
    numbers by value, strings by content, lists and tuples element-wise and
    of one kind, objects by identity. *)
Fixpoint py_eqb (x y : pyval) {struct x} : bool :=
  let all_eqb :=
    fix all_eqb (xs ys : list pyval) {struct xs} : bool :=
      match xs, ys with
      | [], [] => true
      | x' :: xs', y' :: ys' => py_eqb x' y' && all_eqb xs' ys'
      | _, _ => false
      end in
  match x, y with
  | PInt _, (PInt _ | PFloat _) | PFloat _, (PInt _ | PFloat _) =>
      match as_number x, as_number y with
      | Some n, Some m => num_eqb n m
      | _, _ => false
      end
  | PStr s, PStr s' => String.eqb s s'
  | PList xs, PList ys => all_eqb xs ys
  | PTuple xs, PTuple ys => all_eqb xs ys
  | PObj i, PObj j => Nat.eqb i j
  | _, _ => false
  end.

Fixpoint all_eqb (xs ys : list pyval) : bool :=
  match xs, ys with
  | [], [] => true
  | x :: xs', y :: ys' => py_eqb x y && all_eqb xs' ys'
  | _, _ => false
  end.

(** *** The shapes the endpoint statements range over *)

(** Integers, finite floats, and lists and tuples of such values. *)
Fixpoint numeric_shape (v : pyval) : bool :=
  match v with
  | PInt _ => true
  | PFloat f => is_finite f
  | PList l | PTuple l => forallb numeric_shape l
  | PStr _ | PObj _ => false
  end.

(** Two values of one numeric or equal-length sequence shape whose
    difference is a number: two integers whose difference converts to a
    float, two finite floats with a finite difference, two lists or two
    tuples of equal length, element by element. *)
Fixpoint same_shape (a b : pyval) {struct a} : bool :=
  let all_same :=
    fix all_same (xs ys : list pyval) {struct xs} : bool :=
      match xs, ys with
      | [], [] => true
      | x :: xs', y :: ys' => same_shape x y && all_same xs' ys'
      | _, _ => false
      end in
  match a, b with
  | PInt x, PInt y =>
      match float_of_int (y - x) with Some _ => true | None => false end
  | PFloat f, PFloat g => is_finite f && is_finite g && is_finite (fsub g f)
  | PList xs, PList ys => all_same xs ys
  | PTuple xs, PTuple ys => all_same xs ys
  | _, _ => false
  end.

Fixpoint all_same (xs ys : list pyval) : bool :=
  match xs, ys with
  | [], [] => true
  | x :: xs', y :: ys' => same_shape x y && all_same xs' ys'
  | _, _ => false
  end.

(** Two integers less than 2^53 apart, or two lists or two tuples of equal
    length of such pairs. *)
Fixpoint int_shape (a b : pyval) {struct a} : bool :=
  let all_int :=
    fix all_int (xs ys : list pyval) {struct xs} : bool :=
      match xs, ys with
      | [], [] => true
      | x :: xs', y :: ys' => int_shape x y && all_int xs' ys'
      | _, _ => false
      end in
  match a, b with
  | PInt x, PInt y => Z.abs (y - x) <? 2 ^ 53
  | PList xs, PList ys => all_int xs ys
  | PTuple xs, PTuple ys => all_int xs ys
  | _, _ => false
  end.

Fixpoint all_int (xs ys : list pyval) : bool :=
  match xs, ys with
  | [], [] => true
  | x :: xs', y :: ys' => int_shape x y && all_int xs' ys'
  | _, _ => false
  end.

(** *** The string branch *)

(** [int(diff * value)] for [diff = len(b) - len(a)]. *)
Definition scaled_difference (a b : string) (value : number) : option Z :=
  match num_mul (NInt (Z.of_nat (String.length b) - Z.of_nat (String.length a))) value with
  | Some p => py_int p
  | None => None
  end.

(** How many characters a slice bound [pos] keeps of a string of length
    [n]. *)
Definition kept (n pos : Z) : nat :=
  Z.to_nat (if pos <? 0 then Z.max 0 (n + pos) else Z.min pos n).

(** The string branch as the specification words it: the first N
    characters of the end string, N being the end length minus the scaled
    length difference. *)
Definition spec_lerp_str (a b : string) (value : number) : option pyval :=
  match scaled_difference a b value with
  | Some scaled => py_slice_to (PStr b) (Z.of_nat (String.length b) - scaled)
  | None => None
  end.

End Lerp.

(** ** The easing curves (easing.py, [EasingFunctions]) and their names
    (tween.py, [tween_functions_lookup], [get_tween])

    The curves are stated over the real numbers: a Python float is read as
    the real it denotes and [math.pow], [math.sqrt], [math.sin],
    [math.cos], [math.asin] and [math.pi] as [Rpower], [sqrt], [sin],
    [cos], [asin] and [PI].  Python raises ZeroDivisionError for a zero
    duration and ValueError for a negative radicand; the total [/] and
    [sqrt] of the reals stand in there, a domain the normalized curves on
    [0, 1] never enter. *)
Module Easing.
Local Open Scope R_scope.

Definition linear (t b c d : R) : R := c * t / d + b.

Definition ease_in_quad (t b c d : R) : R :=
  let t := t / d in
  c * t * t + b.

Definition ease_out_quad (t b c d : R) : R :=
  let t := t / d in
  - c * t * (t - 2) + b.

Definition ease_in_out_quad (t b c d : R) : R :=
  let t := t / (d / 2) in
  if Rlt_dec t 1 then c / 2 * t * t + b
  else
    let t := t - 1 in
    - c / 2 * (t * (t - 2) - 1) + b.

Definition ease_in_cubic (t b c d : R) : R :=
  let t := t / d in
  c * t * t * t + b.

Definition ease_out_cubic (t b c d : R) : R :=
  let t := t / d in
  let t := t - 1 in
  c * (t * t * t + 1) + b.

Definition ease_in_out_cubic (t b c d : R) : R :=
  let t := t / (d / 2) in
  if Rlt_dec t 1 then c / 2 * t * t * t + b
  else
    let t := t - 2 in
    c / 2 * (t * t * t + 2) + b.

Definition ease_in_quart (t b c d : R) : R :=
  let t := t / d in
  c * t * t * t * t + b.

Definition ease_out_quart (t b c d : R) : R :=
  let t := t / d in
  let t := t - 1 in
  - c * (t * t * t * t - 1) + b.

Definition ease_in_out_quart (t b c d : R) : R :=
  let t := t / (d / 2) in
  if Rlt_dec t 1 then c / 2 * t * t * t * t + b
  else
    let t := t - 2 in
    - c / 2 * (t * t * t * t - 2) + b.

Definition ease_in_quint (t b c d : R) : R :=
  let t := t / d in
  c * t * t * t * t * t + b.

Definition ease_out_quint (t b c d : R) : R :=
  let t := t / d in
  let t := t - 1 in
  c * (t * t * t * t * t + 1) + b.

Definition ease_in_out_quint (t b c d : R) : R :=
  let t := t / (d / 2) in
  if Rlt_dec t 1 then c / 2 * t * t * t * t * t + b
  else
    let t := t - 2 in
    c / 2 * (t * t * t * t * t + 2) + b.

Definition ease_in_sine (t b c d : R) : R :=
  - c * cos (t / d * (PI / 2)) + c + b.

Definition ease_out_sine (t b c d : R) : R :=
  c * sin (t / d * (PI / 2)) + b.

Definition ease_in_out_sine (t b c d : R) : R :=
  - c / 2 * (cos (PI * t / d) - 1) + b.

Definition ease_in_expo (t b c d : R) : R :=
  c * Rpower 2 (10 * (t / d - 1)) + b.

Definition ease_out_expo (t b c d : R) : R :=
  c * (- Rpower 2 (- 10 * t / d) + 1) + b.

Definition ease_in_out_expo (t b c d : R) : R :=
  let t := t / (d / 2) in
  if Rlt_dec t 1 then c / 2 * Rpower 2 (10 * (t - 1)) + b
  else
    let t := t - 1 in
    c / 2 * (- Rpower 2 (- 10 * t) + 2) + b.

Definition ease_in_circ (t b c d : R) : R :=
  let t := t / d in
  - c * (sqrt (1 - t * t) - 1) + b.

Definition ease_out_circ (t b c d : R) : R :=
  let t := t / d in
  let t := t - 1 in
  c * sqrt (1 - t * t) + b.

Definition ease_in_out_circ (t b c d : R) : R :=
  let t := t / (d / 2) in
  if Rlt_dec t 1 then - c / 2 * (sqrt (1 - t * t) - 1) + b
  else
    let t := t - 2 in
    c / 2 * (sqrt (1 - t * t) + 1) + b.

(** [not x] for an optional number: true for [None] and for zero. *)
Definition falsy (x : option R) : bool :=
  match x with
  | None => true
  | Some r => if Req_dec_T r 0 then true else false
  end.

(** The period [p] after [if not p: p = default]. *)
Definition period (p : option R) (dflt : R) : R :=
  match p with
  | Some r => if falsy p then dflt else r
  | None => dflt
  end.

(** The amplitude and phase [(a, s)] after
    [if not a or a < abs(c): a = c; s = p/4] and otherwise
    [s = p/(2*pi) * asin(c/a)]. *)
Definition amplitude_phase (a : option R) (c p : R) : R * R :=
  match a with
  | Some r =>
      if falsy a || (if Rlt_dec r (Rabs c) then true else false)
      then (c, p / 4)
      else (r, p / (2 * PI) * asin (c / r))
  | None => (c, p / 4)
  end.

Definition ease_in_elastic (t b c d : R) (a p : option R) : R :=
  if Req_dec_T t 0 then b
  else
    let t := t / d in
    if Req_dec_T t 1 then b + c
    else
      let p := period p (d * 0.3) in
      let '(a, s) := amplitude_phase a c p in
      let t := t - 1 in
      - (a * Rpower 2 (10 * t) * sin ((t * d - s) * (2 * PI) / p)) + b.

Definition ease_out_elastic (t b c d : R) (a p : option R) : R :=
  if Req_dec_T t 0 then b
  else
    let t := t / d in
    if Req_dec_T t 1 then b + c
    else
      let p := period p (d * 0.3) in
      let '(a, s) := amplitude_phase a c p in
      a * Rpower 2 (- 10 * t) * sin ((t * d - s) * (2 * PI) / p) + c + b.

Definition ease_in_out_elastic (t b c d : R) (a p : option R) : R :=
  if Req_dec_T t 0 then b
  else
    let t := t / (d / 2) in
    if Req_dec_T t 2 then b + c
    else
      let p := period p (d * (0.3 * 1.5)) in
      let '(a, s) := amplitude_phase a c p in
      if Rlt_dec t 1 then
        let t := t - 1 in
        - 0.5 * (a * Rpower 2 (10 * t) * sin ((t * d - s) * (2 * PI) / p)) + b
      else
        let t := t - 1 in
        a * Rpower 2 (- 10 * t) * sin ((t * d - s) * (2 * PI) / p) * 0.5 + c + b.

(** The fixed set of curves. *)
Inductive curve :=
| Linear
| EaseInQuad | EaseOutQuad | EaseInOutQuad
| EaseInCubic | EaseOutCubic | EaseInOutCubic
| EaseInQuart | EaseOutQuart | EaseInOutQuart
| EaseInQuint | EaseOutQuint | EaseInOutQuint
| EaseInSine | EaseOutSine | EaseInOutSine
| EaseInExpo | EaseOutExpo | EaseInOutExpo
| EaseInCirc | EaseOutCirc | EaseInOutCirc
| EaseInElastic | EaseOutElastic | EaseInOutElastic.

(** The method of [EasingFunctions] a curve stands for, on the
    [(t, b, c, d)] signature (the elastic curves with their optional
    amplitude and period left out, as [_normalize_easing] calls them). *)
Definition easing_function (k : curve) : R -> R -> R -> R -> R :=
  match k with
  | Linear => linear
  | EaseInQuad => ease_in_quad
  | EaseOutQuad => ease_out_quad
  | EaseInOutQuad => ease_in_out_quad
  | EaseInCubic => ease_in_cubic
  | EaseOutCubic => ease_out_cubic
  | EaseInOutCubic => ease_in_out_cubic
  | EaseInQuart => ease_in_quart
  | EaseOutQuart => ease_out_quart
  | EaseInOutQuart => ease_in_out_quart
  | EaseInQuint => ease_in_quint
  | EaseOutQuint => ease_out_quint
  | EaseInOutQuint => ease_in_out_quint
  | EaseInSine => ease_in_sine
  | EaseOutSine => ease_out_sine
  | EaseInOutSine => ease_in_out_sine
  | EaseInExpo => ease_in_expo
  | EaseOutExpo => ease_out_expo
  | EaseInOutExpo => ease_in_out_expo
  | EaseInCirc => ease_in_circ
  | EaseOutCirc => ease_out_circ
  | EaseInOutCirc => ease_in_out_circ
  | EaseInElastic => fun t b c d => ease_in_elastic t b c d None None
  | EaseOutElastic => fun t b c d => ease_out_elastic t b c d None None
  | EaseInOutElastic => fun t b c d => ease_in_out_elastic t b c d None None
  end.

(** [_normalize_easing(func)]: the wrapper that calls [func(t, 0, 1, 1)]. *)
Definition _normalize_easing (func : R -> R -> R -> R -> R) : R -> R :=
  fun t => func t 0 1 1.

Definition normalized (k : curve) : R -> R :=
  _normalize_easing (easing_function k).

Definition is_elastic (k : curve) : bool :=
  match k with
  | EaseInElastic | EaseOutElastic | EaseInOutElastic => true
  | _ => false
  end.

Definition is_expo (k : curve) : bool :=
  match k with
  | EaseInExpo | EaseOutExpo | EaseInOutExpo => true
  | _ => false
  end.

(** The values the normalized curves take at the two ends of [0, 1]: 0 and
    1, except that the exponential curves stop 2^-10 short of an end (half
    of that for the in-out curve). *)
Definition start_value (k : curve) : R :=
  match k with
  | EaseInExpo => / 1024
  | EaseInOutExpo => / 2048
  | _ => 0
  end.

Definition end_value (k : curve) : R :=
  match k with
  | EaseOutExpo => 1 - / 1024
  | EaseInOutExpo => 1 - / 2048
  | _ => 1
  end.

Local Close Scope R_scope.
Local Open Scope string_scope.

(** The entries of the dict [tween_functions_lookup], in source order. *)
Definition lookup_entries : list (string * curve) :=
  [ ("linear", Linear);
    ("easeInQuad", EaseInQuad);
    ("easeOutQuad", EaseOutQuad);
    ("easeInOutQuad", EaseInOutQuad);
    ("easeInCubic", EaseInCubic);
    ("easeOutCubic", EaseOutCubic);
    ("easeInOutCubic", EaseInOutCubic);
    ("easeInQuart", EaseInQuart);
    ("easeOutQuart", EaseOutQuart);
    ("easeInOutQuart", EaseInOutQuart);
    ("easeInQuint", EaseInQuint);
    ("easeOutQuint", EaseOutQuint);
    ("easeInOutQuint", EaseInOutQuint);
    ("easeInSine", EaseInSine);
    ("easeOutSine", EaseOutSine);
    ("easeInOutSine", EaseInOutSine);
    ("easeInExpo", EaseInExpo);
    ("easeOutExpo", EaseOutExpo);
    ("easeInOutExpo", EaseInOutExpo);
    ("easeInCirc", EaseInCirc);
    ("easeOutCirc", EaseOutCirc);
    ("easeInOutCirc", EaseInOutCirc);
    ("easeInElastic", EaseInElastic);
    ("easeOutElastic", EaseOutElastic);
    ("easeInOutElastic", EaseInOutElastic) ].

Definition tween_functions_lookup : gmap string curve :=
  list_to_map lookup_entries.

(** [get_tween(name)]; [None] would be the KeyError of a dict without
    the key ['linear']. *)
Definition get_tween (name : string) : option curve :=
  match tween_functions_lookup !! name with
  | Some k => Some k
  | None => tween_functions_lookup !! "linear"
  end.

End Easing.

(** ** The notification mechanism (events.py, [Events])

    A listener is an opaque callable, identified by a number; calling it is
    recorded, in call order, with the argument it received.  Listeners are
    observers: they return normally and do not call back into the object
    that notifies them. *)
Module Events.
Import Lerp.

Abbreviation callback := nat (only parsing).

(** [self.listeners]: event name to its [CallbackList]. *)
Abbreviation listeners := (gmap string (list callback)).

Definition on (event_name : string) (cb : option callback) (ls : listeners) : listeners :=
  match cb with
  | None => ls
  | Some f => <[event_name := default [] (ls !! event_name) ++ [f]]> ls
  end.

(** [trigger(event_name, arg)]: the calls made, in subscription order. *)
Definition trigger (event_name : string) (arg : pyval) (ls : listeners)
    : list (callback * pyval) :=
  match ls !! event_name with
  | None => []
  | Some fs => map (fun f => (f, arg)) fs
  end.

Definition reset : listeners := ∅.

End Events.

(** ** The tween state machine (tween.py, [TweenProps] and [Tween]) *)
Module TweenProps.
Import PyNum Lerp.

Record t := {
  from_value : pyval;
  to_value : pyval;
  duration : number;
  easing : string;
  repeat : Z;
  pingpong : Z
}.

End TweenProps.

Module Tween.
Import PyNum Lerp.

(** What the operations read and write besides the tween itself: the clock
    behind [now()], as the sequence of its readings and the number of
    readings taken, and the calls made to listeners so far. *)
Record World := {
  readings : nat -> Z;
  taken : nat;
  calls : list (Events.callback * pyval)
}.

Definition M (A : Type) : Type := World -> A * World.

Definition ret {A} (a : A) : M A := fun w => (a, w).

Definition bind {A B} (m : M A) (k : A -> M B) : M B :=
  fun w => let '(a, w') := m w in k a w'.

Notation "'let*' x ':=' m 'in' k" := (bind m (fun x => k))
  (at level 10, x name, m at level 100, k at level 200).
Notation "'do' m 'then' k" := (bind m (fun _ => k))
  (at level 10, m at level 100, k at level 200).

(** [now()] *)
Definition now : M Z :=
  fun w => (readings w (taken w),
            {| readings := readings w; taken := S (taken w); calls := calls w |}).

(** The calls of one [events.trigger]. *)
Definition fire (cs : list (Events.callback * pyval)) : M unit :=
  fun w => (tt, {| readings := readings w; taken := taken w; calls := calls w ++ cs |}).

Record Tween := {
  props : TweenProps.t;
  value : pyval;
  events : Events.listeners;
  start_time : Z;
  time : number;
  is_paused : bool;
  pause_duration : Z;
  paused_at : Z;
  is_running : bool;
  is_completed : bool;
  direction : Z;
  pingpong : Z;
  count : Z
}.

Definition set_value (v : pyval) (s : Tween) : Tween :=
  {| props := props s; value := v; events := events s;
     start_time := start_time s; time := time s; is_paused := is_paused s;
     pause_duration := pause_duration s; paused_at := paused_at s;
     is_running := is_running s; is_completed := is_completed s;
     direction := direction s; pingpong := pingpong s; count := count s |}.

Definition set_events (ls : Events.listeners) (s : Tween) : Tween :=
  {| props := props s; value := value s; events := ls;
     start_time := start_time s; time := time s; is_paused := is_paused s;
     pause_duration := pause_duration s; paused_at := paused_at s;
     is_running := is_running s; is_completed := is_completed s;
     direction := direction s; pingpong := pingpong s; count := count s |}.

Definition set_start_time (ts : Z) (s : Tween) : Tween :=
  {| props := props s; value := value s; events := events s;
     start_time := ts; time := time s; is_paused := is_paused s;
     pause_duration := pause_duration s; paused_at := paused_at s;
     is_running := is_running s; is_completed := is_completed s;
     direction := direction s; pingpong := pingpong s; count := count s |}.

Definition set_time (x : number) (s : Tween) : Tween :=
  {| props := props s; value := value s; events := events s;
     start_time := start_time s; time := x; is_paused := is_paused s;
     pause_duration := pause_duration s; paused_at := paused_at s;
     is_running := is_running s; is_completed := is_completed s;
     direction := direction s; pingpong := pingpong s; count := count s |}.

Definition set_is_paused (b : bool) (s : Tween) : Tween :=
  {| props := props s; value := value s; events := events s;
     start_time := start_time s; time := time s; is_paused := b;
     pause_duration := pause_duration s; paused_at := paused_at s;
     is_running := is_running s; is_completed := is_completed s;
     direction := direction s; pingpong := pingpong s; count := count s |}.

Definition set_pause_duration (d : Z) (s : Tween) : Tween :=
  {| props := props s; value := value s; events := events s;
     start_time := start_time s; time := time s; is_paused := is_paused s;
     pause_duration := d; paused_at := paused_at s;
     is_running := is_running s; is_completed := is_completed s;
     direction := direction s; pingpong := pingpong s; count := count s |}.

Definition set_paused_at (ts : Z) (s : Tween) : Tween :=
  {| props := props s; value := value s; events := events s;
     start_time := start_time s; time := time s; is_paused := is_paused s;
     pause_duration := pause_duration s; paused_at := ts;
     is_running := is_running s; is_completed := is_completed s;
     direction := direction s; pingpong := pingpong s; count := count s |}.

Definition set_is_running (b : bool) (s : Tween) : Tween :=
  {| props := props s; value := value s; events := events s;
     start_time := start_time s; time := time s; is_paused := is_paused s;
     pause_duration := pause_duration s; paused_at := paused_at s;
     is_running := b; is_completed := is_completed s;
     direction := direction s; pingpong := pingpong s; count := count s |}.

Definition set_is_completed (b : bool) (s : Tween) : Tween :=
  {| props := props s; value := value s; events := events s;
     start_time := start_time s; time := time s; is_paused := is_paused s;
     pause_duration := pause_duration s; paused_at := paused_at s;
     is_running := is_running s; is_completed := b;
     direction := direction s; pingpong := pingpong s; count := count s |}.

Definition set_direction (d : Z) (s : Tween) : Tween :=
  {| props := props s; value := value s; events := events s;
     start_time := start_time s; time := time s; is_paused := is_paused s;
     pause_duration := pause_duration s; paused_at := paused_at s;
     is_running := is_running s; is_completed := is_completed s;
     direction := d; pingpong := pingpong s; count := count s |}.

Definition set_pingpong (n : Z) (s : Tween) : Tween :=
  {| props := props s; value := value s; events := events s;
     start_time := start_time s; time := time s; is_paused := is_paused s;
     pause_duration := pause_duration s; paused_at := paused_at s;
     is_running := is_running s; is_completed := is_completed s;
     direction := direction s; pingpong := n; count := count s |}.

Definition set_count (n : Z) (s : Tween) : Tween :=
  {| props := props s; value := value s; events := events s;
     start_time := start_time s; time := time s; is_paused := is_paused s;
     pause_duration := pause_duration s; paused_at := paused_at s;
     is_running := is_running s; is_completed := is_completed s;
     direction := direction s; pingpong := pingpong s; count := n |}.

(** [min(1, x)] and [max(0, y)] as the built-ins compute them: the first
    argument stays unless the second is strictly smaller (larger). *)
Definition py_min (a b : number) : number := if num_ltb b a then b else a.
Definition py_max (a b : number) : number := if num_ltb a b then b else a.

Definition on (event_name : string) (cb : option Events.callback) (s : Tween) : Tween :=
  set_events (Events.on event_name cb (events s)) s.

Definition reset (s : Tween) : M Tween :=
  let* ts := now in
  ret (set_is_completed false (set_is_running false (set_paused_at 0
        (set_pause_duration 0 (set_is_paused false (set_time (NInt 0)
          (set_start_time ts s))))))).

Definition start (s : Tween) : M Tween :=
  let s := set_is_running true s in
  let* ts := now in
  ret (set_start_time ts s).

Definition stop (s : Tween) : M Tween :=
  let s := if is_running s then set_is_running false s else s in
  ret (set_events Events.reset s).

(** The tween [stop()] leaves behind (it reads no clock and calls no
    listener). *)
Definition stopped (s : Tween) : Tween :=
  set_events Events.reset (if is_running s then set_is_running false s else s).

Definition restart (s : Tween) : M Tween :=
  let* s := reset s in
  let s := if direction s =? 1
           then set_value (TweenProps.from_value (props s)) s
           else set_value (TweenProps.to_value (props s)) s in
  start s.

Definition pause (s : Tween) : M Tween :=
  if negb (is_paused s) then
    let s := set_is_paused true s in
    let* ts := now in
    ret (set_paused_at ts s)
  else ret s.

Definition unpause (s : Tween) : M Tween :=
  if is_paused s then
    let s := set_is_paused false s in
    let* ts := now in
    let s := set_pause_duration (pause_duration s + (ts - paused_at s)) s in
    ret (set_paused_at 0 s)
  else ret s.

Definition flip (s : Tween) : M Tween :=
  ret (set_direction (direction s * -1) s).

Definition complete (s : Tween) : M Tween :=
  do fire (Events.trigger "update" (value s) (events s)) then
  do fire (Events.trigger "complete" (value s) (events s)) then
  let s := set_is_completed true s in
  stop s.

(** The tail of [done()] from [# Handle repeat] on, which both the plain
    path and the exhausted ping-pong path fall into. *)
Definition handle_repeat (s : Tween) : M Tween :=
  let s := set_count (count s + 1) s in
  if TweenProps.repeat (props s) =? 0 then complete s
  else if TweenProps.repeat (props s) =? -1 then restart s
  else if count s <? TweenProps.repeat (props s) then restart s
  else complete s.

(** [done()] *)
Definition done (s : Tween) : M Tween :=
  let s := set_value (TweenProps.to_value (props s)) s in
  if negb (TweenProps.pingpong (props s) =? 0) then
    if direction s =? 1 then
      let* s := flip s in
      restart s
    else
      let s := set_pingpong (pingpong s + 1) s in
      if (pingpong s <? TweenProps.pingpong (props s))
         || (TweenProps.pingpong (props s) =? -1) then
        let* s := flip s in
        restart s
      else
        let s := set_value (TweenProps.from_value (props s)) s in
        let* s := flip s in
        let s := set_pingpong 0 s in
        handle_repeat s
  else handle_repeat s.

Section Update.

(** The floating-point value of a normalized curve at a time, [None] when
    the evaluation raises: the curves go through the C library's [pow],
    [sin], [cos] and [asin], which stay a parameter of [update]. *)
Variable ease : Easing.curve -> number -> option number.

(** The elapsed fraction [max(0, min(1, dt / duration))] at clock reading
    [ts]. *)
Definition elapsed_fraction (ts : Z) (s : Tween) : option number :=
  match num_truediv (NInt (ts - start_time s - pause_duration s))
                    (NFloat (f64 1000)) with
  | Some dt =>
      match num_truediv dt (TweenProps.duration (props s)) with
      | Some r => Some (py_max (NInt 0) (py_min (NInt 1) r))
      | None => None
      end
  | None => None
  end.

(** [lerp(from_value, to_value, easing_func(tween_time))] *)
Definition tween_value (s : Tween) (tween_time : number) : option pyval :=
  match Easing.get_tween (TweenProps.easing (props s)) with
  | Some k =>
      match ease k tween_time with
      | Some x =>
          lerp (TweenProps.from_value (props s)) (TweenProps.to_value (props s)) x
      | None => None
      end
  | None => None
  end.

(** [update()]: the tween afterwards and the value returned, [None] when
    an exception left the call (the tween then keeps what was assigned
    before it). *)
Definition update (s : Tween) : M (Tween * option pyval) :=
  if is_paused s then ret (s, Some (value s))
  else if is_completed s then ret (s, Some (value s))
  else if negb (is_running s) then ret (s, Some (value s))
  else
    let* ts := now in
    match elapsed_fraction ts s with
    | None => ret (s, None)
    | Some frac =>
        let s := set_time frac s in
        match (if direction s =? 1 then Some (time s)
               else num_sub (NInt 1) (time s)) with
        | None => ret (s, None)
        | Some tween_time =>
            match tween_value s tween_time with
            | None => ret (s, None)
            | Some v =>
                let s := set_value v s in
                do fire (Events.trigger "update" (value s) (events s)) then
                let* s := (if num_geb (time s) (NInt 1) then done s else ret s) in
                ret (s, Some (value s))
            end
        end
    end.

End Update.

(** [Tween(from_value, to_value, duration, easing, repeat, update_callback,
    complete_callback, auto_start, pingpong)]; the source's defaults are
    [repeat=1], no callbacks, [auto_start=True] and [pingpong=0]. *)
Definition init (from_value to_value : pyval) (duration : number) (easing : string)
    (repeat : Z) (update_callback complete_callback : option Events.callback)
    (auto_start : bool) (pingpong : Z) : M Tween :=
  let ls := Events.on "update" update_callback Events.reset in
  let ls := Events.on "complete" complete_callback ls in
  let s := {| props := {| TweenProps.from_value := from_value;
                          TweenProps.to_value := to_value;
                          TweenProps.duration := duration;
                          TweenProps.easing := easing;
                          TweenProps.repeat := repeat;
                          TweenProps.pingpong := pingpong |};
              value := from_value; events := ls;
              start_time := 0; time := NInt 0; is_paused := false;
              pause_duration := 0; paused_at := 0;
              is_running := false; is_completed := false;
              direction := 1; pingpong := 0; count := 0 |} in
  let* s := reset s in
  let s := set_count 0 (set_pingpong 0 (set_direction 1 s)) in
  if auto_start then start s else ret s.

(** *** Runs of the public operations *)

Inductive op :=
| OpStart | OpStop | OpRestart | OpPause | OpUnpause | OpFlip | OpUpdate.

Definition step (ease : Easing.curve -> number -> option number)
    (o : op) (s : Tween) : M Tween :=
  match o with
  | OpStart => start s
  | OpStop => stop s
  | OpRestart => restart s
  | OpPause => pause s
  | OpUnpause => unpause s
  | OpFlip => flip s
  | OpUpdate => let* r := update ease s in ret (fst r)
  end.

Fixpoint run (ease : Easing.curve -> number -> option number)
    (ops : list op) (s : Tween) : M Tween :=
  match ops with
  | [] => ret s
  | o :: ops' => let* s := step ease o s in run ease ops' s
  end.

(** Along a run, [start()] is only called on a tween that has not
    completed. *)
Fixpoint starts_live (ease : Easing.curve -> number -> option number)
    (ops : list op) (s : Tween) (w : World) : bool :=
  match ops with
  | [] => true
  | o :: ops' =>
      (match o with OpStart => negb (is_completed s) | _ => true end)
      && let '(s', w') := step ease o s w in starts_live ease ops' s' w'
  end.

(** The invariant of the specification: a completed tween is not
    running. *)
Definition stopped_when_completed (s : Tween) : Prop :=
  is_completed s = true -> is_running s = false.

(** [k] cycle boundaries in a row: [done()] called [k] times. *)
Fixpoint cycles (k : nat) (s : Tween) : M Tween :=
  match k with
  | O => ret s
  | S k' => let* s := done s in cycles k' s
  end.

(** The cycle boundaries of one repeat cycle of a configuration: one
    without ping-pong, two for each of the [pingpong] forward and reverse
    pairs with it. *)
Definition boundaries (p : TweenProps.t) : Z :=
  if TweenProps.pingpong p =? 0 then 1 else 2 * TweenProps.pingpong p.

(** How many cycle boundaries a tween is past: whole repeat cycles, whole
    pairs of the current one, and the forward leg of the current pair. *)
Definition progress (s : Tween) : Z :=
  if TweenProps.pingpong (props s) =? 0 then count s
  else count s * boundaries (props s) + 2 * pingpong s
       + (if direction s =? 1 then 0 else 1).

(** The value a tween has when it completes: the end value, or the start
    value after a last reverse leg. *)
Definition final_value (p : TweenProps.t) : pyval :=
  if TweenProps.pingpong p =? 0 then TweenProps.to_value p
  else TweenProps.from_value p.

(** A tween on its way through the repeat cycles of configuration [p],
    with listeners [ls]: cycles are left to run and, with ping-pong, so
    are pairs of the current cycle. *)
Definition on_the_way (p : TweenProps.t) (ls : Events.listeners) (s : Tween) : Prop :=
  props s = p /\ events s = ls
  /\ 0 <= count s < TweenProps.repeat p
  /\ (0 < TweenProps.pingpong p ->
      0 <= pingpong s < TweenProps.pingpong p /\ (direction s = 1 \/ direction s = -1)).

(** Two tweens with the same configuration, direction and counters. *)
Definition same_control (s s' : Tween) : Prop :=
  props s' = props s /\ direction s' = direction s
  /\ pingpong s' = pingpong s /\ count s' = count s.

(** [EasingFunctions.linear(t, 0, 1, 1)], that is [c*t/d + b], in binary64
    arithmetic. *)
Definition linear_f64 (t : number) : option number :=
  match num_mul (NInt 1) t with
  | Some ct =>
      match num_truediv ct (NInt 1) with
      | Some q => num_add q (NInt 0)
      | None => None
      end
  | None => None
  end.

(** An evaluator for the examples: the linear curve, and no other. *)
Definition ease_linear (k : Easing.curve) (t : number) : option number :=
  match k with
  | Easing.Linear => linear_f64 t
  | _ => None
  end.

(** A world whose clock advances by [period] milliseconds per reading. *)
Definition ticking (period : Z) : World :=
  {| readings := fun n => period * Z.of_nat n; taken := 0; calls := [] |}.

End Tween.

(** ** The collection (tween.py, [Tweens])

    Tween objects live in a heap and a collection holds references to
    them, so that a handle kept by the caller and the collection's entry
    are one object. *)
Module Tweens.
Import PyNum Lerp Tween.

Abbreviation ref := nat (only parsing).
Abbreviation heap := (gmap ref Tween).

(** [self.tweens] *)
Record Tweens := { tweens : list ref }.

Definition init : Tweens := {| tweens := [] |}.

(** A method call on the object behind a reference. *)
Definition call (method : Tween -> M Tween) (r : ref) (h : heap) : M heap :=
  match h !! r with
  | Some s => let* s' := method s in ret (<[r := s']> h)
  | None => ret h
  end.

(** [list.pop()]: the list without its last element, and that element;
    [None] is the IndexError of an empty list. *)
Fixpoint pop (l : list ref) : option (list ref * ref) :=
  match l with
  | [] => None
  | x :: l' =>
      match pop l' with
      | Some (l'', y) => Some (x :: l'', y)
      | None => Some ([], x)
      end
  end.

(** [append(...)]: a new tween object, started, at a fresh reference. *)
Definition append (from_value to_value : pyval) (duration : number) (easing : string)
    (repeat : Z) (update_callback : option Events.callback) (pingpong : Z)
    (self : Tweens) (h : heap) : M (Tweens * heap * ref) :=
  let* s := Tween.init from_value to_value duration easing repeat
              update_callback None true pingpong in
  let r := fresh (dom h) in
  ret ({| tweens := tweens self ++ [r] |}, <[r := s]> h, r).

(** The loop of [stop()], [while len(self.tweens) > 0: ...], with a bound
    on its iterations; [None] when the bound is reached first. *)
Fixpoint stop_loop (fuel : nat) (self : Tweens) (h : heap) : M (option (Tweens * heap)) :=
  match fuel with
  | O => ret None
  | S fuel' =>
      if (0 <? length (tweens self))%nat then
        match pop (tweens self) with
        | Some (rest, r) =>
            let* h := call Tween.stop r h in
            stop_loop fuel' {| tweens := rest |} h
        | None => ret None
        end
      else ret (Some (self, h))
  end.

Definition stop (self : Tweens) (h : heap) : M (option (Tweens * heap)) :=
  stop_loop (S (length (tweens self))) self h.

Definition reset (self : Tweens) (h : heap) : M (option (Tweens * heap)) :=
  stop self h.

(** [for tween in self.tweens: tween.method()] *)
Fixpoint for_each (method : Tween -> M Tween) (rs : list ref) (h : heap) : M heap :=
  match rs with
  | [] => ret h
  | r :: rs' => let* h := call method r h in for_each method rs' h
  end.

Definition pause (self : Tweens) (h : heap) : M (Tweens * heap) :=
  let* h := for_each Tween.pause (tweens self) h in ret (self, h).

Definition unpause (self : Tweens) (h : heap) : M (Tweens * heap) :=
  let* h := for_each Tween.unpause (tweens self) h in ret (self, h).

End Tweens.

(** ** The group relay (tween.py, [TweenGroup.on])

    [on(event_name, callback)] subscribes one closure, [on_tween_fire], to
    the event on every tween of the group.  The closure owns the set
    [tweens_fired]; what it adds at a call is [id(kwargs)], the identity of
    the argument tuple of that call, a number the runtime chooses. *)
Module TweenGroup.

(** One call of [on_tween_fire] in a group of [n] tweens: the set
    afterwards, and whether the group callback was called. *)
Definition on_tween_fire (n : nat) (key : Z) (tweens_fired : gset Z) : gset Z * bool :=
  let tweens_fired := {[key]} ∪ tweens_fired in
  (tweens_fired, bool_decide (size tweens_fired = n)).

(** A run of calls, by the keys the runtime hands out: the final set and,
    per call, whether the group callback was called. *)
Fixpoint relay (n : nat) (keys : list Z) (tweens_fired : gset Z) : gset Z * list bool :=
  match keys with
  | [] => (tweens_fired, [])
  | key :: keys' =>
      let '(fired, called) := on_tween_fire n key tweens_fired in
      let '(final, rest) := relay n keys' fired in
      (final, called :: rest)
  end.

(** The relay as the specification words it: it tracks which tweens (by
    their position in the group) have fired in the current occurrence,
    calls the group callback once all [n] have, and then starts over with
    an empty set. *)
Fixpoint spec_relay (n : nat) (firing : list nat) (fired : gset nat) : list bool :=
  match firing with
  | [] => []
  | i :: firing' =>
      let fired := {[i]} ∪ fired in
      if bool_decide (size fired = n)
      then true :: spec_relay n firing' ∅
      else false :: spec_relay n firing' fired
  end.

End TweenGroup.
(** ** Floats that are whole numbers

    An integer below 2^53 in magnitude is a binary64 number, and sums and
    differences of such numbers that stay below 2^53 are computed without
    rounding. *)
Module Whole.
Import PyNum Lerp.

(** The mantissa [p * 2^k]. *)
Definition scale (p : positive) (k : Z) : positive :=
  match k with
  | Zpos d => Pos.iter xO p d
  | _ => p
  end.

(** The binary64 number of an integer below 2^53 in magnitude: the
    mantissa brought to 53 bits. *)
Definition whole (z : Z) : spec_float :=
  match z with
  | Z0 => S754_zero false
  | Zpos p => S754_finite false (scale p (53 - Zpos (digits2_pos p))) (Zpos (digits2_pos p) - 53)
  | Zneg p => S754_finite true (scale p (53 - Zpos (digits2_pos p))) (Zpos (digits2_pos p) - 53)
  end.

(** Two floats with the same sign, mantissa and exponent. *)
Definition same_float (f g : spec_float) : bool :=
  match f, g with
  | S754_zero s, S754_zero s' => Bool.eqb s s'
  | S754_infinity s, S754_infinity s' => Bool.eqb s s'
  | S754_nan, S754_nan => true
  | S754_finite s m e, S754_finite s' m' e' => Bool.eqb s s' && Pos.eqb m m' && Z.eqb e e'
  | _, _ => false
  end.

(** A float that is a whole number below 2^53 in magnitude (a zero of
    either sign included), and that number. *)
Definition whole_value (f : spec_float) : option Z :=
  match f with
  | S754_zero _ => Some 0
  | S754_finite _ _ _ =>
      match int_of_float f with
      | Some z => if (Z.abs z <? 2 ^ 53) && same_float f (whole z) then Some z else None
      | None => None
      end
  | _ => None
  end.

(** Two whole floats less than 2^53 apart. *)
Definition whole_pair (f g : spec_float) : bool :=
  match whole_value f, whole_value g with
  | Some x, Some y => Z.abs (y - x) <? 2 ^ 53
  | _, _ => false
  end.

(** Two integers less than 2^53 apart, two whole floats less than 2^53
    apart, or two lists or two tuples of equal length of such pairs. *)
Fixpoint exact_shape (a b : pyval) {struct a} : bool :=
  let all_exact :=
    fix all_exact (xs ys : list pyval) {struct xs} : bool :=
      match xs, ys with
      | [], [] => true
      | x :: xs', y :: ys' => exact_shape x y && all_exact xs' ys'
      | _, _ => false
      end in
  match a, b with
  | PInt x, PInt y => Z.abs (y - x) <? 2 ^ 53
  | PFloat f, PFloat g => whole_pair f g
  | PList xs, PList ys => all_exact xs ys
  | PTuple xs, PTuple ys => all_exact xs ys
  | _, _ => false
  end.

Fixpoint all_exact (xs ys : list pyval) : bool :=
  match xs, ys with
  | [], [] => true
  | x :: xs', y :: ys' => exact_shape x y && all_exact xs' ys'
  | _, _ => false
  end.

End Whole.

(** ** The notification mechanism in full (events.py)

    [Events.on], [off], [once], [trigger], [emit] and [reset] with
    [CallbackList.fire], for listeners that unsubscribe themselves while the
    event is being fired: the closures [once] subscribes. *)
Module Emitter.
Import Lerp.

Section Registry.
Context {A : Type} `{EqDecision A}.

(** [l.remove(x)]: the list without its first element equal to [x];
    [None] is the ValueError of a list that holds none. *)
Fixpoint remove (x : A) (l : list A) : option (list A) :=
  match l with
  | [] => None
  | y :: l' => if decide (y = x) then Some l' else option_map (cons y) (remove x l')
  end.

(** [on(event_name, callback)] *)
Definition on (event_name : string) (callback : option A)
    (ls : gmap string (list A)) : gmap string (list A) :=
  match callback with
  | None => ls
  | Some f => <[event_name := default [] (ls !! event_name) ++ [f]]> ls
  end.

(** [off(event_name, callback)]; the list of the event is changed in
    place, and the event leaves the dict with its last listener. *)
Definition off (event_name : option string) (callback : option A)
    (ls : gmap string (list A)) : gmap string (list A) :=
  match event_name with
  | None => ∅
  | Some name =>
      match ls !! name with
      | None => ls
      | Some l =>
          match callback with
          | None => delete name ls
          | Some f =>
              let l := match remove f l with Some l' => l' | None => l end in
              if (length l =? 0)%nat then delete name ls else <[name := l]> ls
          end
      end
  end.

(** How many times a callable is subscribed to an event. *)
Definition subscriptions (event_name : string) (f : A)
    (ls : gmap string (list A)) : nat :=
  length (filter (fun g => g = f) (default [] (ls !! event_name))).

End Registry.

(** A callable in a listener list: a function of the caller's, an
    observer, or the closure [once_callback] that a call of [once] builds
    around the caller's callback (which is [None] when [once] was called
    without one).  Closures are told apart by their identity [c]. *)
Inductive callable :=
| Plain (f : nat)
| OnceCallback (c : nat) (callback : option nat).

#[global] Instance callable_eq_dec : EqDecision callable.
Proof. solve_decision. Defined.

(** [self.listeners] *)
Abbreviation listeners := (gmap string (list callable)).

(** [once(event_name, callback)], [c] being the identity the runtime
    gives to the new closure. *)
Definition once (event_name : string) (c : nat) (callback : option nat)
    (ls : listeners) : listeners :=
  on event_name (Some (OnceCallback c callback)) ls.

Definition reset : listeners := ∅.

(** [CallbackList.fire], called by [trigger] on the list of
    [event_name]: [for listener in self: listener(arg)], from position [i]
    of the list on.  The loop reads the list anew at every step, and a
    closure of [once] shortens it through [off] while the loop runs.  The
    result is the registry afterwards, the calls made to the callers'
    functions, and whether the loop ran to its end ([false]: the TypeError
    of a closure built around [None] left it); [None] when the bound
    [fuel] on the steps is reached first. *)
Fixpoint fire (fuel : nat) (event_name : string) (arg : pyval) (i : nat)
    (ls : listeners) : option (listeners * list (nat * pyval) * bool) :=
  match fuel with
  | O => None
  | S fuel' =>
      match default [] (ls !! event_name) !! i with
      | None => Some (ls, [], true)
      | Some (Plain f) =>
          match fire fuel' event_name arg (S i) ls with
          | Some (ls', cs, ok) => Some (ls', (f, arg) :: cs, ok)
          | None => None
          end
      | Some (OnceCallback c callback) =>
          let ls := off (Some event_name) (Some (OnceCallback c callback)) ls in
          match callback with
          | None => Some (ls, [], false)
          | Some f =>
              match fire fuel' event_name arg (S i) ls with
              | Some (ls', cs, ok) => Some (ls', (f, arg) :: cs, ok)
              | None => None
              end
          end
      end
  end.

(** [trigger(event_name, arg)] *)
Definition trigger (event_name : string) (arg : pyval) (ls : listeners)
    : option (listeners * list (nat * pyval) * bool) :=
  match ls !! event_name with
  | None => Some (ls, [], true)
  | Some l => fire (S (length l)) event_name arg 0 ls
  end.

(** [emit(event_name, arg)] *)
Definition emit (event_name : string) (arg : pyval) (ls : listeners)
    : option (listeners * list (nat * pyval) * bool) :=
  trigger event_name arg ls.

(** What one pass over a listener list comes to: the functions called,
    the list left behind, and whether the pass ran to its end.  A closure
    of [once] leaves the list when it is called, the listener behind it
    moves into its place, and the loop steps over that listener. *)
Fixpoint sweep (l : list callable) : list nat * list callable * bool :=
  match l with
  | [] => ([], [], true)
  | Plain f :: l' =>
      let '(cs, r, ok) := sweep l' in (f :: cs, Plain f :: r, ok)
  | OnceCallback _ None :: l' => ([], l', false)
  | OnceCallback _ (Some f) :: l' =>
      match l' with
      | [] => ([f], [], true)
      | g :: l'' => let '(cs, r, ok) := sweep l'' in (f :: cs, g :: r, ok)
      end
  end.

(** The dict after the list of an event became [l]. *)
Definition store (event_name : string) (l : list callable) (ls : listeners) : listeners :=
  match l with
  | [] => delete event_name ls
  | _ => <[event_name := l]> ls
  end.

(** The identities of the closures in a list. *)
Fixpoint closure_ids (l : list callable) : list nat :=
  match l with
  | [] => []
  | Plain _ :: l' => closure_ids l'
  | OnceCallback c _ :: l' => c :: closure_ids l'
  end.

(** A registry as the methods leave it: no event is left with an empty
    list, and no closure stands twice in a list. *)
Definition well_formed (ls : listeners) : Prop :=
  forall name l, ls !! name = Some l -> l <> [] /\ NoDup (closure_ids l).

Definition all_plain (l : list callable) : bool :=
  forallb (fun g => match g with Plain _ => true | _ => false end) l.

(** The functions of a list of plain listeners. *)
Definition functions (l : list callable) : list nat :=
  flat_map (fun g => match g with Plain f => [f] | _ => [] end) l.

(** *** Runs of the methods *)
Inductive op :=
| On (event_name : string) (callback : option nat)
| Once (event_name : string) (callback : option nat)
| Off (event_name : option string) (callback : option nat)
| Trigger (event_name : string) (arg : pyval)
| Reset.

(** One call, on the registry and the number of closures built so far
    (which names the next one); a caller holds no closure of [once], so
    what it passes to [on] and [off] is a function of its own. *)
Definition step (o : op) (st : listeners * nat) : option (listeners * nat) :=
  let '(ls, made) := st in
  match o with
  | On name callback => Some (on name (option_map Plain callback) ls, made)
  | Once name callback => Some (once name made callback ls, S made)
  | Off name callback => Some (off name (option_map Plain callback) ls, made)
  | Trigger name arg =>
      match trigger name arg ls with
      | Some (ls', _, _) => Some (ls', made)
      | None => None
      end
  | Reset => Some (reset, made)
  end.

Fixpoint run (ops : list op) (st : listeners * nat) : option (listeners * nat) :=
  match ops with
  | [] => Some st
  | o :: ops' =>
      match step o st with
      | Some st' => run ops' st'
      | None => None
      end
  end.

(** The invariant of a run: the registry is well formed and every closure
    in it was built before. *)
Definition sound (st : listeners * nat) : Prop :=
  forall name l, st.1 !! name = Some l ->
    l <> [] /\ NoDup (closure_ids l)
    /\ Forall (fun c => (c < st.2)%nat) (closure_ids l).

(** A registry of observers, as the tween model has it, among the
    registries of callables. *)
Definition observers (ls : Events.listeners) : listeners :=
  fmap (map Plain) ls.

End Emitter.

(** ** Unsubscribing from a tween (tween.py, [Tween.off]) *)
Module Listening.
Import Tween.

(** [off(event_name, callback)]: handed on to the tween's [Events]. *)
Definition off (event_name : option string) (callback : option Events.callback)
    (s : Tween) : Tween :=
  set_events (Emitter.off event_name callback (events s)) s.

End Listening.

(** ** The last cycle of a tween (tween.py, [Tween.done]) *)
Module Finishing.
Import Tween.

(** The test of [done()] under [# Handle repeat] sends a tween without
    ping-pong to [complete()]: [repeat] is 0, or it is not -1 and
    [count + 1] has reached it. *)
Definition last_cycle (s : Tween) : bool :=
  (TweenProps.repeat (props s) =? 0)
  || (negb (TweenProps.repeat (props s) =? -1)
      && negb (count s + 1 <? TweenProps.repeat (props s))).

(** A configuration that repeats or ping-pongs without end. *)
Definition endless (p : TweenProps.t) : bool :=
  (TweenProps.repeat p =? -1) || (TweenProps.pingpong p =? -1).

End Finishing.

(** ** Sequences under the interpolator (tween.py, [lerp]) *)
Module Sequences.
Import Lerp.

(** The elements of a list or a tuple. *)
Definition items (a : pyval) : option (list pyval) :=
  match a with
  | PList l | PTuple l => Some l
  | _ => None
  end.

(** A sequence of the type of [a] with the elements [l]. *)
Definition rebuild (a : pyval) (l : list pyval) : pyval :=
  match a with
  | PTuple _ => PTuple l
  | _ => PList l
  end.

End Sequences.

(** ** Updating a collection (tween.py, [Tweens.update]) *)
Module Reaping.
Import PyNum Lerp Tween Tweens.

(** [tween.is_completed] of the object behind a reference. *)
Definition completed (h : heap) (r : ref) : bool :=
  match h !! r with
  | Some s => is_completed s
  | None => false
  end.

Section Update.
Variable ease : Easing.curve -> number -> option number.

(** [for tween in self.tweens: tween.update()]: the heap afterwards, and
    whether the loop ran to its end ([false]: an exception left an
    [update()], and the loop with it). *)
Fixpoint update_each (rs : list ref) (h : heap) : M (heap * bool) :=
  match rs with
  | [] => ret (h, true)
  | r :: rs' =>
      match h !! r with
      | Some s =>
          let* res := Tween.update ease s in
          let h := <[r := res.1]> h in
          match res.2 with
          | Some _ => update_each rs' h
          | None => ret (h, false)
          end
      | None => update_each rs' h
      end
  end.

(** [update()]: the loop, and then
    [self.tweens = [tween for tween in self.tweens if not tween.is_completed]];
    an exception in the loop leaves [self.tweens] as it was. *)
Definition update (self : Tweens) (h : heap) : M (Tweens * heap * bool) :=
  let* res := update_each (tweens self) h in
  if res.2
  then ret ({| tweens := List.filter (fun r => negb (completed res.1 r)) (tweens self) |},
            res.1, true)
  else ret (self, res.1, false).

End Update.

End Reaping.

(** ** The group (tween.py, [TweenGroup.__init__], [is_complete], [stop]) *)
Module Group.
Import Tween Tweens.

(** [self.tweens]: the list the caller passed, by reference. *)
Record TweenGroup := { tweens : list ref }.

(** The property [is_complete]. *)
Fixpoint is_complete_from (rs : list ref) (h : heap) : bool :=
  match rs with
  | [] => true
  | r :: rs' => if negb (Reaping.completed h r) then false else is_complete_from rs' h
  end.

Definition is_complete (self : TweenGroup) (h : heap) : bool :=
  is_complete_from (tweens self) h.

(** [stop()] *)
Definition stop (self : TweenGroup) (h : heap) : M (TweenGroup * heap) :=
  let* h := for_each Tween.stop (tweens self) h in ret (self, h).

End Group.


(** * Properties *)

(** ** Binary64 arithmetic: the exact cases the statements rest on *)
Module PyNumFacts.
Import PyNum.

Lemma fsub_diag f : is_finite f = true -> fsub f f = S754_zero false.
Proof.
  destruct f as [s|s| |s m e]; try discriminate; intros _.
  - destruct s; reflexivity.
  - unfold fsub, SFsub. rewrite Z.sub_diag. reflexivity.
Qed.

Lemma fmul_zero_l s g :
  is_finite g = true -> is_zero (fmul (S754_zero s) g) = true.
Proof. destruct g; try discriminate; reflexivity. Qed.

Lemma fmul_zero_r f s :
  is_finite f = true -> is_zero (fmul f (S754_zero s)) = true.
Proof. destruct f; try discriminate; reflexivity. Qed.

Lemma is_zero_inv f : is_zero f = true -> exists s, f = S754_zero s.
Proof. destruct f; try discriminate. eauto. Qed.

Lemma SFcompare_refl f : is_finite f = true -> SFcompare f f = Some Eq.
Proof.
  destruct f as [s|s| |s m e]; try discriminate; intros _; [reflexivity|].
  cbn. rewrite Z.compare_refl, Pos.compare_cont_refl. destruct s; reflexivity.
Qed.

Lemma fadd_zero_r f s :
  is_finite f = true -> SFeqb (fadd f (S754_zero s)) f = true.
Proof.
  intros Hf. unfold SFeqb.
  destruct f as [s'|s'| |s' m e]; try discriminate.
  - destruct s', s; reflexivity.
  - cbn [fadd SFadd]. rewrite (SFcompare_refl (S754_finite s' m e)); reflexivity.
Qed.

Lemma int_of_float_zero f : is_zero f = true -> int_of_float f = Some 0.
Proof. destruct f; try discriminate; reflexivity. Qed.

Lemma digits2_iter_xO m k :
  digits2_pos (Pos.iter xO m k) = (digits2_pos m + k)%positive.
Proof.
  induction k as [|k IH] using Pos.peano_ind.
  - simpl. lia.
  - rewrite Pos.iter_succ. simpl. rewrite IH. lia.
Qed.

Lemma digits2_lower p : 2 ^ (Zpos (digits2_pos p) - 1) <= Zpos p.
Proof.
  induction p as [q IH|q IH|]; cbn [digits2_pos]; [| |simpl; lia].
  all: rewrite Pos2Z.inj_succ;
    replace (Z.succ (Zpos (digits2_pos q)) - 1)
      with (Z.succ (Zpos (digits2_pos q) - 1)) by lia;
    rewrite Z.pow_succ_r by lia; lia.
Qed.

Lemma iter_xO_shiftl m p : Zpos (Pos.iter xO m p) = Z.shiftl (Zpos m) (Zpos p).
Proof.
  rewrite Z.shiftl_mul_pow2 by lia.
  induction p as [|p IH] using Pos.peano_ind.
  - simpl. lia.
  - rewrite Pos.iter_succ, Pos2Z.inj_xO, IH, Pos2Z.inj_succ, Z.pow_succ_r by lia.
    lia.
Qed.

(** Rounding a normal number leaves it as it is. *)
Lemma round_normal s m e :
  normal m e -> binary_round_aux prec emax s (Zpos m) e loc_Exact = S754_finite s m e.
Proof.
  intros [Hd He]. unfold binary_round_aux, shr_fexp. simpl Zdigits2. rewrite Hd.
  unfold fexp, emin, prec, emax.
  replace (Z.max (53 + e - 53) (3 - 1024 - 53) - e) with 0 by lia.
  simpl. rewrite Hd.
  replace (Z.max (53 + e - 53) (3 - 1024 - 53) - e) with 0 by lia.
  simpl. destruct (Z.leb_spec e (1024 - 53)); [reflexivity | lia].
Qed.

(** [x * 1.0] is [x] for a normal [x]. *)
Lemma fmul_one s m e :
  normal m e -> fmul (S754_finite s m e) fone = S754_finite s m e.
Proof.
  intros [Hd He]. unfold fmul, fone, SFmul.
  rewrite Pos.mul_comm.
  change (4503599627370496 * m)%positive with (Pos.iter xO m 52).
  cbn [Pos.iter]. rewrite xorb_false_r.
  unfold binary_round_aux, shr_fexp.
  cbn [Zdigits2 digits2_pos]. rewrite Hd.
  unfold fexp, emin, prec, emax.
  match goal with |- context [shr _ _ ?n] => replace n with 52 by (simpl; lia) end.
  cbn [shr shr_record_of_loc SpecFloat.iter_pos shr_1].
  replace (e + -52 + 52) with e by lia.
  cbn [shr_m loc_of_shr_record round_nearest_even Zdigits2 orb]. rewrite Hd.
  replace (Z.max (53 + e - 53) (3 - 1024 - 53) - e) with 0 by lia.
  cbn [shr shr_record_of_loc shr_m].
  destruct (Z.leb_spec e (1024 - 53)); [reflexivity | lia].
Qed.

Lemma binary_round_int s p :
  Zpos p < 2 ^ 53 ->
  exists m e, binary_round prec emax s p 0 = S754_finite s m e /\
    normal m e /\
    int_of_float (S754_finite s m e) = Some (if s then Zneg p else Zpos p).
Proof.
  intros Hp.
  assert (Hd : Zpos (digits2_pos p) <= 53).
  { destruct (Z.le_gt_cases (Zpos (digits2_pos p)) 53) as [H|H]; [exact H|].
    pose proof (digits2_lower p) as Hl.
    assert (2 ^ 53 <= 2 ^ (Zpos (digits2_pos p) - 1))
      by (apply Z.pow_le_mono_r; lia).
    lia. }
  unfold binary_round. rewrite Z.add_0_r.
  unfold fexp, emin, prec, emax, shl_align.
  rewrite Z.max_l by lia. rewrite Z.sub_0_r.
  destruct (Zpos (digits2_pos p) - 53) as [|k|k] eqn:E; [| lia |].
  - exists p, 0. split; [|split].
    + apply round_normal. split; lia.
    + split; lia.
    + destruct s; reflexivity.
  - assert (Hk : digits2_pos (Pos.iter xO p k) = 53%positive)
      by (rewrite digits2_iter_xO; lia).
    exists (Pos.iter xO p k), (Zneg k). split; [|split].
    + apply round_normal. split; lia.
    + split; lia.
    + cbn [int_of_float]. rewrite iter_xO_shiftl.
      rewrite Z.shiftr_shiftl_l, Z.sub_diag, Z.shiftl_0_r by lia.
      destruct s; reflexivity.
Qed.

(** An integer below 2^53 in magnitude converts to a float exactly. *)
Lemma float_of_int_exact z :
  0 < Z.abs z < 2 ^ 53 ->
  exists s m e, float_of_int z = Some (S754_finite s m e) /\
    normal m e /\ int_of_float (S754_finite s m e) = Some z.
Proof.
  intros Hz. unfold float_of_int.
  destruct z as [|p|p]; [lia | |]; cbn [binary_normalize].
  - destruct (binary_round_int false p) as (m & e & -> & H & Hi); [lia|].
    exists false, m, e. auto.
  - destruct (binary_round_int true p) as (m & e & -> & H & Hi); [lia|].
    exists true, m, e. auto.
Qed.

Lemma float_of_int_finite z f : float_of_int z = Some f -> is_finite f = true.
Proof.
  unfold float_of_int.
  destruct (binary_normalize prec emax z 0 false); intros [= <-]; reflexivity.
Qed.

End PyNumFacts.

(** ** Binary64 arithmetic: whole numbers, and the numbers rounding gives *)
Module WholeFacts.
Import PyNum Lerp Whole PyNumFacts.

Lemma scale_value p k : 0 <= k -> Zpos (scale p k) = Zpos p * 2 ^ k.
Proof.
  intros Hk. destruct k as [|d|d]; cbn [scale]; [lia| |lia].
  rewrite iter_xO_shiftl, Z.shiftl_mul_pow2 by lia. reflexivity.
Qed.

Lemma scale_digits p k :
  0 <= k -> Zpos (digits2_pos (scale p k)) = Zpos (digits2_pos p) + k.
Proof.
  intros Hk. destruct k as [|d|d]; cbn [scale]; [lia| |lia].
  rewrite digits2_iter_xO. lia.
Qed.

Lemma scale_unique p q k : 0 <= k -> Zpos q = Zpos p * 2 ^ k -> q = scale p k.
Proof.
  intros Hk Hq. rewrite <- (scale_value p k Hk) in Hq. congruence.
Qed.

Lemma scale_scale p a b : 0 <= a -> 0 <= b -> scale (scale p a) b = scale p (a + b).
Proof.
  intros Ha Hb. apply scale_unique; [lia|].
  rewrite !scale_value, Z.pow_add_r by lia. lia.
Qed.

Lemma shl_align_scale m e e' : e' <= e -> shl_align m e e' = (scale m (e - e'), e').
Proof.
  intros He. unfold shl_align.
  destruct (e' - e) as [|d|d] eqn:E; [|lia|].
  - replace (e - e') with 0 by lia. replace e' with e by lia. reflexivity.
  - replace (e - e') with (Zpos d) by lia. reflexivity.
Qed.

Lemma iter_pos_iter {A} (f : A -> A) n x : SpecFloat.iter_pos f n x = Pos.iter f x n.
Proof.
  revert x. induction n as [n IH|n IH|]; intros x; cbn [SpecFloat.iter_pos Pos.iter].
  - rewrite !IH, <- !Pos.iter_swap. reflexivity.
  - rewrite !IH. reflexivity.
  - reflexivity.
Qed.

(** Shifting out the zeros that [scale] put in is exact. *)
Lemma shr_scale m d :
  SpecFloat.iter_pos shr_1 d
    {| shr_m := Zpos (Pos.iter xO m d); shr_r := false; shr_s := false |}
  = {| shr_m := Zpos m; shr_r := false; shr_s := false |}.
Proof.
  rewrite iter_pos_iter.
  induction d as [|d IH] using Pos.peano_ind; [reflexivity|].
  rewrite Pos.iter_succ_r, Pos.iter_succ. cbn [shr_1 orb]. exact IH.
Qed.

(** Rounding [m * 2^n] at exponent [e - n] gives the binary64 number
    [(m, e)] back. *)
Lemma round_scaled s m e n :
  SpecFloat.bounded prec emax m e = true -> 0 <= n ->
  binary_round_aux prec emax s (Zpos (scale m n)) (e - n) loc_Exact = S754_finite s m e.
Proof.
  unfold SpecFloat.bounded, canonical_mantissa, fexp, emin, prec, emax.
  intros Hb Hn. apply andb_prop in Hb as [Hc He].
  apply Z.eqb_eq in Hc. apply Z.leb_le in He.
  unfold binary_round_aux, shr_fexp, fexp, emin. cbn [Zdigits2].
  rewrite scale_digits by exact Hn.
  replace (Z.max (Zpos (digits2_pos m) + n + (e - n) - 53) (3 - 1024 - 53) - (e - n))
    with n by lia.
  assert (Hshr : shr (shr_record_of_loc (Zpos (scale m n)) loc_Exact) (e - n) n
                 = ({| shr_m := Zpos m; shr_r := false; shr_s := false |}, e)).
  { destruct n as [|d|d]; [|clear Hn|lia].
    - cbn. f_equal. lia.
    - cbn [shr scale shr_record_of_loc]. rewrite shr_scale. f_equal. lia. }
  rewrite Hshr. cbn [shr_m loc_of_shr_record round_nearest_even Zdigits2].
  replace (Z.max (Zpos (digits2_pos m) + e - 53) (3 - 1024 - 53) - e) with 0 by lia.
  cbn [shr shr_record_of_loc shr_m].
  destruct (Z.leb_spec e (1024 - 53)); [reflexivity|lia].
Qed.

(** [x * 1.0] is [x] for every binary64 number [x]. *)
Lemma fmul_one_valid (d : spec_float) :
  valid_binary prec emax d = true -> fmul d fone = d.
Proof.
  destruct d as [s|s| |s m e]; intros Hv.
  - destruct s; reflexivity.
  - destruct s; reflexivity.
  - reflexivity.
  - cbn [valid_binary] in Hv. unfold fmul, fone, SFmul.
    rewrite Pos.mul_comm, xorb_false_r.
    change (4503599627370496 * m)%positive with (scale m 52).
    change (e + -52) with (e - 52).
    apply round_scaled; [exact Hv|lia].
Qed.

Lemma digits2_bound p : Zpos p < 2 ^ 53 -> Zpos (digits2_pos p) <= 53.
Proof.
  intros Hp.
  destruct (Z.le_gt_cases (Zpos (digits2_pos p)) 53) as [H|H]; [exact H|].
  pose proof (digits2_lower p) as Hl.
  assert (2 ^ 53 <= 2 ^ (Zpos (digits2_pos p) - 1)) by (apply Z.pow_le_mono_r; lia).
  lia.
Qed.

Lemma whole_bounded p :
  Zpos p < 2 ^ 53 ->
  SpecFloat.bounded prec emax (scale p (53 - Zpos (digits2_pos p))) (Zpos (digits2_pos p) - 53) = true.
Proof.
  intros Hp. pose proof (digits2_bound p Hp) as Hd.
  unfold SpecFloat.bounded, canonical_mantissa, fexp, emin, prec, emax.
  rewrite scale_digits by lia.
  apply andb_true_intro. split; [apply Z.eqb_eq|apply Z.leb_le]; lia.
Qed.

(** Rounding the integer [±p * 2^k] held at exponent [-k]. *)
Lemma round_whole s p k :
  Zpos p < 2 ^ 53 -> 0 <= k ->
  binary_round prec emax s (scale p k) (- k)
  = S754_finite s (scale p (53 - Zpos (digits2_pos p))) (Zpos (digits2_pos p) - 53).
Proof.
  intros Hp Hk. pose proof (digits2_bound p Hp) as Hd.
  unfold binary_round. rewrite scale_digits by exact Hk.
  unfold fexp, emin, prec, emax.
  replace (Z.max (Zpos (digits2_pos p) + k + - k - 53) (3 - 1024 - 53))
    with (Zpos (digits2_pos p) - 53) by lia.
  destruct (Z.le_gt_cases k (53 - Zpos (digits2_pos p))) as [Hle|Hgt].
  - rewrite shl_align_scale by lia. rewrite scale_scale by lia.
    replace (k + (- k - (Zpos (digits2_pos p) - 53))) with (53 - Zpos (digits2_pos p)) by lia.
    pose proof (round_scaled s _ _ 0 (whole_bounded p Hp) ltac:(lia)) as Hr.
    rewrite Z.sub_0_r in Hr. exact Hr.
  - assert (Hal : shl_align (scale p k) (- k) (Zpos (digits2_pos p) - 53)
                  = (scale p k, - k)).
    { unfold shl_align.
      destruct (Zpos (digits2_pos p) - 53 - - k) eqn:E; [reflexivity|reflexivity|lia]. }
    rewrite Hal.
    replace (scale p k)
      with (scale (scale p (53 - Zpos (digits2_pos p))) (k - (53 - Zpos (digits2_pos p))))
      by (rewrite scale_scale by lia; f_equal; lia).
    replace (- k) with (Zpos (digits2_pos p) - 53 - (k - (53 - Zpos (digits2_pos p)))) by lia.
    apply round_scaled; [apply whole_bounded; exact Hp|lia].
Qed.

Lemma normalize_whole z k :
  Z.abs z < 2 ^ 53 -> 0 <= k ->
  binary_normalize prec emax (z * 2 ^ k) (- k) false = whole z.
Proof.
  intros Hz Hk. assert (H2 : 0 < 2 ^ k) by (apply Z.pow_pos_nonneg; lia).
  destruct z as [|p|p]; [reflexivity| |].
  - destruct (Zpos p * 2 ^ k) as [|q|q] eqn:E; try lia.
    cbn [binary_normalize whole].
    rewrite (scale_unique p q k Hk) by lia. apply round_whole; [lia|exact Hk].
  - destruct (Zneg p * 2 ^ k) as [|q|q] eqn:E; try lia.
    cbn [binary_normalize whole].
    rewrite (scale_unique p q k Hk) by lia. apply round_whole; [lia|exact Hk].
Qed.

Lemma float_of_int_whole z : Z.abs z < 2 ^ 53 -> float_of_int z = Some (whole z).
Proof.
  intros Hz. unfold float_of_int.
  pose proof (normalize_whole z 0 Hz ltac:(lia)) as Hn.
  change (2 ^ 0) with 1 in Hn. change (- 0) with 0 in Hn.
  rewrite Z.mul_1_r in Hn. rewrite Hn.
  destruct z; reflexivity.
Qed.

Lemma whole_valid z : Z.abs z < 2 ^ 53 -> valid_binary prec emax (whole z) = true.
Proof.
  intros Hz. destruct z as [|p|p]; [reflexivity| |]; apply whole_bounded; lia.
Qed.

Lemma whole_finite z : is_finite (whole z) = true.
Proof. destruct z; reflexivity. Qed.

(** The mantissa of [whole z], aligned at an exponent below its own,
    with its sign. *)
Lemma whole_aligned (s : bool) (p : positive) (ez : Z) :
  Zpos p < 2 ^ 53 -> ez <= Zpos (digits2_pos p) - 53 ->
  cond_Zopp s (Zpos (shl_align (scale p (53 - Zpos (digits2_pos p)))
                       (Zpos (digits2_pos p) - 53) ez).1)
  = cond_Zopp s (Zpos p) * 2 ^ (- ez).
Proof.
  intros Hp Hez. pose proof (digits2_bound p Hp) as Hd.
  rewrite shl_align_scale by exact Hez. cbn [fst].
  rewrite scale_scale, scale_value by lia.
  replace (53 - Zpos (digits2_pos p) + (Zpos (digits2_pos p) - 53 - ez)) with (- ez) by lia.
  destruct s; cbn [cond_Zopp]; lia.
Qed.

Lemma whole_sign z :
  z <> 0 ->
  exists s p, z = cond_Zopp s (Zpos p)
    /\ whole z = S754_finite s (scale p (53 - Zpos (digits2_pos p)))
                   (Zpos (digits2_pos p) - 53)
    /\ Zpos p = Z.abs z.
Proof.
  intros Hz. destruct z as [|p|p]; [congruence| |].
  - exists false, p. repeat split.
  - exists true, p. repeat split.
Qed.

(** Sums and differences of whole floats that stay below 2^53 are exact. *)
Lemma fadd_whole x y :
  Z.abs x < 2 ^ 53 -> Z.abs y < 2 ^ 53 -> Z.abs (x + y) < 2 ^ 53 ->
  fadd (whole x) (whole y) = whole (x + y).
Proof.
  intros Hx Hy Hxy.
  destruct (Z.eq_dec x 0) as [->|Hx0]; [destruct y; reflexivity|].
  destruct (Z.eq_dec y 0) as [->|Hy0]; [rewrite Z.add_0_r; destruct x; reflexivity|].
  destruct (whole_sign x Hx0) as (sx & px & Ex & -> & Hpx).
  destruct (whole_sign y Hy0) as (sy & py & Ey & -> & Hpy).
  pose proof (digits2_bound px ltac:(lia)) as Hdx.
  pose proof (digits2_bound py ltac:(lia)) as Hdy.
  unfold fadd, SFadd. cbv zeta.
  set (ez := Z.min (Zpos (digits2_pos px) - 53) (Zpos (digits2_pos py) - 53)).
  rewrite (whole_aligned sx px ez), (whole_aligned sy py ez) by (subst ez; lia).
  rewrite <- Ex, <- Ey, <- Z.mul_add_distr_r.
  replace ez with (- - ez) at 2 by lia.
  apply normalize_whole; [exact Hxy|subst ez; lia].
Qed.

Lemma fsub_whole x y :
  Z.abs x < 2 ^ 53 -> Z.abs y < 2 ^ 53 -> Z.abs (x - y) < 2 ^ 53 ->
  fsub (whole x) (whole y) = whole (x - y).
Proof.
  intros Hx Hy Hxy.
  destruct (Z.eq_dec y 0) as [->|Hy0]; [rewrite Z.sub_0_r; destruct x; reflexivity|].
  destruct (Z.eq_dec x 0) as [->|Hx0]; [destruct y; reflexivity|].
  destruct (whole_sign x Hx0) as (sx & px & Ex & -> & Hpx).
  destruct (whole_sign y Hy0) as (sy & py & Ey & -> & Hpy).
  pose proof (digits2_bound px ltac:(lia)) as Hdx.
  pose proof (digits2_bound py ltac:(lia)) as Hdy.
  unfold fsub, SFsub. cbv zeta.
  set (ez := Z.min (Zpos (digits2_pos px) - 53) (Zpos (digits2_pos py) - 53)).
  rewrite (whole_aligned sx px ez), (whole_aligned sy py ez) by (subst ez; lia).
  rewrite <- Ex, <- Ey, <- Z.mul_sub_distr_r.
  replace ez with (- - ez) at 2 by lia.
  apply normalize_whole; [exact Hxy|subst ez; lia].
Qed.

Lemma same_float_eq f g : same_float f g = true -> f = g.
Proof.
  destruct f as [s|s| |s m e], g as [s'|s'| |s' m' e']; cbn; try discriminate;
    intros H; try reflexivity.
  - apply eqb_prop in H. congruence.
  - apply eqb_prop in H. congruence.
  - apply andb_prop in H as [H He]. apply andb_prop in H as [Hs Hm].
    apply eqb_prop in Hs. apply Pos.eqb_eq in Hm. apply Z.eqb_eq in He. congruence.
Qed.

Lemma whole_value_inv f z :
  whole_value f = Some z ->
  Z.abs z < 2 ^ 53 /\ ((exists s, f = S754_zero s /\ z = 0) \/ (f = whole z /\ z <> 0)).
Proof.
  destruct f as [s|s| |s m e]; cbn [whole_value]; try discriminate.
  - intros [= <-]. split; [reflexivity|]. left. eauto.
  - destruct (int_of_float (S754_finite s m e)) as [z'|]; [|discriminate].
    destruct ((Z.abs z' <? 2 ^ 53) && same_float (S754_finite s m e) (whole z')) eqn:E;
      [|discriminate].
    intros [= <-]. apply andb_prop in E as [Hz Hs].
    apply Z.ltb_lt in Hz. split; [exact Hz|]. right.
    split; [apply same_float_eq, Hs|]. intros ->. discriminate Hs.
Qed.

Lemma whole_eqb z : Z.abs z < 2 ^ 53 -> SFeqb (whole z) (whole z) = true.
Proof.
  intros Hz. unfold SFeqb. rewrite SFcompare_refl; [reflexivity|apply whole_finite].
Qed.

(** *** The results of rounding are binary64 numbers *)

Lemma digits2_upper p : Zpos p < 2 ^ Zpos (digits2_pos p).
Proof.
  induction p as [q IH|q IH|]; cbn [digits2_pos]; [| |simpl; lia].
  all: rewrite Pos2Z.inj_succ, Z.pow_succ_r by lia; lia.
Qed.

(** The number of digits is fixed by the powers of two around a number. *)
Lemma digits_between z d : 2 ^ (d - 1) <= z < 2 ^ d -> 0 < z -> Zdigits2 z = d.
Proof.
  intros [Hl Hu] Hz. destruct z as [|p|p]; try lia. cbn [Zdigits2].
  pose proof (digits2_lower p) as Hl'. pose proof (digits2_upper p) as Hu'.
  assert (Hd : 0 < d).
  { destruct (Z.lt_trichotomy d 0) as [H|[H|H]]; [|subst d; simpl in Hu; lia|exact H].
    rewrite Z.pow_neg_r in Hu by exact H. lia. }
  destruct (Z.lt_trichotomy (Zpos (digits2_pos p)) d) as [H|[H|H]]; [|exact H|].
  - assert (2 ^ Zpos (digits2_pos p) <= 2 ^ (d - 1)) by (apply Z.pow_le_mono_r; lia). lia.
  - assert (2 ^ d <= 2 ^ (Zpos (digits2_pos p) - 1)) by (apply Z.pow_le_mono_r; lia). lia.
Qed.

Lemma shr_1_half r : 0 <= shr_m r -> shr_m (shr_1 r) = shr_m r / 2.
Proof.
  destruct r as [m b c]. cbn [shr_m]. intros Hm.
  destruct m as [|[p|p|]|p]; cbn [shr_1 shr_m]; try lia.
  - reflexivity.
  - rewrite Pos2Z.inj_xI. apply Z.div_unique with 1; lia.
  - rewrite Pos2Z.inj_xO. apply Z.div_unique with 0; lia.
  - reflexivity.
Qed.

Lemma shr_half r d :
  0 <= shr_m r -> shr_m (SpecFloat.iter_pos shr_1 d r) = shr_m r / 2 ^ Zpos d.
Proof.
  intros Hr. rewrite iter_pos_iter.
  induction d as [|d IH] using Pos.peano_ind.
  - cbn [Pos.iter]. rewrite shr_1_half by exact Hr. reflexivity.
  - rewrite Pos.iter_succ, shr_1_half.
    + rewrite IH, Pos2Z.inj_succ, Z.pow_succ_r, Z.div_div by lia.
      f_equal. lia.
    + rewrite IH. apply Z.div_pos; [exact Hr|]. apply Z.pow_pos_nonneg; lia.
Qed.

(** [shr] by [n >= 0] divides the mantissa by [2^n]. *)
Lemma shr_divides r e n :
  0 <= shr_m r -> 0 <= n ->
  (shr r e n).2 = e + n /\ shr_m (shr r e n).1 = shr_m r / 2 ^ n.
Proof.
  intros Hr Hn. destruct n as [|d|d]; [| |lia]; cbn [shr fst snd].
  - split; [lia|]. rewrite Z.div_1_r. reflexivity.
  - split; [reflexivity|]. apply shr_half. exact Hr.
Qed.

Lemma round_nearest_even_near m l :
  m <= round_nearest_even m l <= m + 1.
Proof.
  destruct l as [|[]]; cbn [round_nearest_even]; try lia.
  destruct (Z.even m); lia.
Qed.

Lemma digits_range z :
  0 < z -> 2 ^ (Zdigits2 z - 1) <= z < 2 ^ Zdigits2 z.
Proof.
  intros Hz. destruct z as [|p|p]; try lia. cbn [Zdigits2].
  split; [apply digits2_lower|apply digits2_upper].
Qed.

Lemma digits_at_most z d : 0 < z -> z < 2 ^ d -> 0 <= d -> Zdigits2 z <= d.
Proof.
  intros Hz Hu Hd. destruct (digits_range z Hz) as [Hl _].
  destruct (Z.le_gt_cases (Zdigits2 z) d) as [H|H]; [exact H|].
  assert (2 ^ d <= 2 ^ (Zdigits2 z - 1)) by (apply Z.pow_le_mono_r; lia). lia.
Qed.

Lemma digits_at_least z d : 2 ^ d <= z -> 0 <= d -> d < Zdigits2 z.
Proof.
  intros Hl Hd. assert (Hz : 0 < z) by (pose proof (Z.pow_pos_nonneg 2 d); lia).
  destruct (digits_range z Hz) as [_ Hu].
  destruct (Z.lt_ge_cases d (Zdigits2 z)) as [H|H]; [exact H|].
  assert (0 <= Zdigits2 z) by (destruct z; cbn; lia).
  assert (2 ^ Zdigits2 z <= 2 ^ d) by (apply Z.pow_le_mono_r; lia). lia.
Qed.

(** Rounding gives a binary64 number, whatever is rounded, once the
    mantissa holds no more than the bits below the exponent allow. *)
Lemma round_aux_valid s mz ez :
  ez <= fexp prec emax (Zpos (digits2_pos mz) + ez) ->
  valid_binary prec emax (binary_round_aux prec emax s (Zpos mz) ez loc_Exact) = true.
Proof.
  intros Hez. unfold binary_round_aux, shr_fexp. cbn [Zdigits2].
  set (D := Zpos (digits2_pos mz)) in *.
  set (f1 := fexp prec emax (D + ez)) in *.
  pose proof (digits2_lower mz) as HDl. pose proof (digits2_upper mz) as HDu.
  fold D in HDl, HDu.
  assert (Hf1 : f1 = Z.max (D + ez - 53) (-1074)) by reflexivity.
  destruct (shr_divides (shr_record_of_loc (Zpos mz) loc_Exact) ez (f1 - ez))
    as [He1 Hm1]; [cbn; lia|lia|].
  destruct (shr (shr_record_of_loc (Zpos mz) loc_Exact) ez (f1 - ez)) as [r1 e1].
  cbn [fst snd shr_record_of_loc shr_m] in He1, Hm1.
  assert (He1' : e1 = f1) by lia. clear He1. subst e1.
  assert (Hpow : 0 < 2 ^ (f1 - ez)) by (apply Z.pow_pos_nonneg; lia).
  assert (Hm1lo : 0 <= shr_m r1) by (rewrite Hm1; apply Z.div_pos; lia).
  assert (Hm1hi : shr_m r1 < 2 ^ 53).
  { rewrite Hm1. apply Z.div_lt_upper_bound; [exact Hpow|].
    rewrite <- Z.pow_add_r by lia.
    assert (2 ^ D <= 2 ^ (f1 - ez + 53)) by (apply Z.pow_le_mono_r; lia). lia. }
  assert (Hnormal : f1 <> -1074 -> 2 ^ 52 <= shr_m r1).
  { intros Hn. rewrite Hm1. apply Z.div_le_lower_bound; [exact Hpow|].
    rewrite <- Z.pow_add_r by lia.
    replace (f1 - ez + 52) with (D - 1) by lia. exact HDl. }
  pose proof (round_nearest_even_near (shr_m r1) (loc_of_shr_record r1)) as Hm2.
  set (m2 := round_nearest_even (shr_m r1) (loc_of_shr_record r1)) in *.
  destruct (Z.eq_dec m2 0) as [E0|E0].
  - rewrite E0. cbn [Zdigits2].
    assert (Hn2 : fexp prec emax (0 + f1) - f1 <= 0)
      by (unfold fexp, emin, prec, emax; lia).
    destruct (fexp prec emax (0 + f1) - f1) as [|d|d] eqn:En; try lia; reflexivity.
  - assert (Hpos : 0 < m2) by lia.
    assert (Hd2 : 1 <= Zdigits2 m2 <= 54).
    { split; [destruct m2; cbn; lia|].
      apply digits_at_most; [exact Hpos| |lia].
      change (2 ^ 54) with (2 * 2 ^ 53). lia. }
    assert (Hd2n : f1 <> -1074 -> 53 <= Zdigits2 m2).
    { intros Hn. specialize (Hnormal Hn).
      assert (52 < Zdigits2 m2) by (apply digits_at_least; lia). lia. }
    set (n2 := fexp prec emax (Zdigits2 m2 + f1) - f1).
    assert (Hn2 : n2 = 0 \/ (n2 = 1 /\ Zdigits2 m2 = 54)).
    { unfold n2, fexp, emin, prec, emax.
      destruct (Z.eq_dec f1 (-1074)) as [E|E]; [lia|].
      specialize (Hd2n E). lia. }
    assert (En2 : n2 = fexp prec emax (Zdigits2 m2 + f1) - f1) by reflexivity.
    clearbody n2.
    destruct (shr_divides (shr_record_of_loc m2 loc_Exact) f1 n2)
      as [He2 Hm3]; [cbn; lia|lia|].
    destruct (shr (shr_record_of_loc m2 loc_Exact) f1 n2) as [r2 e2].
    cbn [fst snd shr_record_of_loc shr_m] in He2, Hm3. subst e2.
    destruct Hn2 as [Hn2 | [Hn2 H54]].
    + rewrite Hn2, Z.div_1_r in Hm3. rewrite Hm3.
      destruct m2 as [|p2|p2]; try lia.
      destruct (f1 + n2 <=? emax - prec) eqn:Ele; [|reflexivity].
      cbn [valid_binary]. unfold SpecFloat.bounded, canonical_mantissa.
      rewrite Ele, andb_true_r. apply Z.eqb_eq.
      cbn [Zdigits2] in En2. unfold fexp, emin, prec, emax in *. lia.
    + destruct (digits_range m2 Hpos) as [Hlo Hhi]. rewrite H54 in Hlo, Hhi.
      change (2 ^ (54 - 1)) with (2 * 2 ^ 52) in Hlo.
      change (2 ^ 54) with (2 * 2 ^ 53) in Hhi.
      assert (Hm3lo : 2 ^ 52 <= shr_m r2)
        by (rewrite Hm3, Hn2; apply Z.div_le_lower_bound; lia).
      assert (Hm3hi : shr_m r2 < 2 ^ 53)
        by (rewrite Hm3, Hn2; apply Z.div_lt_upper_bound; lia).
      assert (Hd3 : Zdigits2 (shr_m r2) = 53) by (apply digits_between; lia).
      destruct (shr_m r2) as [|p3|p3]; try lia.
      destruct (f1 + n2 <=? emax - prec) eqn:Ele; [|reflexivity].
      cbn [valid_binary]. unfold SpecFloat.bounded, canonical_mantissa.
      rewrite Ele, andb_true_r. apply Z.eqb_eq.
      cbn [Zdigits2] in Hd3. rewrite Hd3.
      unfold fexp, emin, prec, emax in *. lia.
Qed.

Lemma binary_round_valid s m e :
  valid_binary prec emax (binary_round prec emax s m e) = true.
Proof.
  unfold binary_round.
  set (f0 := fexp prec emax (Zpos (digits2_pos m) + e)).
  destruct (Z.le_gt_cases f0 e) as [Hle|Hgt].
  - rewrite shl_align_scale by exact Hle.
    apply round_aux_valid. rewrite scale_digits by lia.
    replace (Zpos (digits2_pos m) + (e - f0) + f0) with (Zpos (digits2_pos m) + e) by lia.
    fold f0. lia.
  - assert (Hal : shl_align m e f0 = (m, e)).
    { unfold shl_align. destruct (f0 - e) eqn:E; [reflexivity|reflexivity|lia]. }
    rewrite Hal. apply round_aux_valid. fold f0. lia.
Qed.

Lemma binary_normalize_valid z e :
  valid_binary prec emax (binary_normalize prec emax z e false) = true.
Proof. destruct z; [reflexivity| |]; apply binary_round_valid. Qed.

(** The difference of two binary64 numbers is a binary64 number. *)
Lemma fsub_valid f g :
  valid_binary prec emax f = true -> valid_binary prec emax g = true ->
  valid_binary prec emax (fsub f g) = true.
Proof.
  intros Hf Hg.
  destruct f as [sf|sf| |sf mf ef], g as [sg|sg| |sg mg eg];
    try (destruct sf, sg; reflexivity); try reflexivity; try assumption.
  apply binary_normalize_valid.
Qed.

End WholeFacts.

(** ** The interpolator *)
Module LerpFacts.
Import PyNum Lerp PyNumFacts Whole WholeFacts.

(** Induction on a value, with the elements of a list or tuple as
    premises. *)
Section PyvalInd.
Variable P : pyval -> Prop.
Hypothesis HInt : forall z, P (PInt z).
Hypothesis HFloat : forall f, P (PFloat f).
Hypothesis HStr : forall s, P (PStr s).
Hypothesis HList : forall l, Forall P l -> P (PList l).
Hypothesis HTuple : forall l, Forall P l -> P (PTuple l).
Hypothesis HObj : forall i, P (PObj i).

Fixpoint pyval_elems_ind (v : pyval) : P v :=
  let all :=
    fix all (l : list pyval) : Forall P l :=
      match l with
      | [] => List.Forall_nil P
      | x :: l' => List.Forall_cons P x l' (pyval_elems_ind x) (all l')
      end in
  match v with
  | PInt z => HInt z
  | PFloat f => HFloat f
  | PStr s => HStr s
  | PList l => HList l (all l)
  | PTuple l => HTuple l (all l)
  | PObj i => HObj i
  end.

End PyvalInd.

Lemma lerp_list xs b v :
  lerp (PList xs) b v =
    match py_iter b with
    | Some ys => option_map PList (lerp_zip v xs ys)
    | None => None
    end.
Proof. reflexivity. Qed.

Lemma lerp_tuple xs b v :
  lerp (PTuple xs) b v =
    match py_iter b with
    | Some ys => option_map PTuple (lerp_zip v xs ys)
    | None => None
    end.
Proof. reflexivity. Qed.

Lemma py_eqb_list xs ys : py_eqb (PList xs) (PList ys) = all_eqb xs ys.
Proof. reflexivity. Qed.

Lemma py_eqb_tuple xs ys : py_eqb (PTuple xs) (PTuple ys) = all_eqb xs ys.
Proof. reflexivity. Qed.

Lemma same_shape_list xs ys : same_shape (PList xs) (PList ys) = all_same xs ys.
Proof. reflexivity. Qed.

Lemma same_shape_tuple xs ys : same_shape (PTuple xs) (PTuple ys) = all_same xs ys.
Proof. reflexivity. Qed.

Lemma int_shape_list xs ys : int_shape (PList xs) (PList ys) = all_int xs ys.
Proof. reflexivity. Qed.

Lemma int_shape_tuple xs ys : int_shape (PTuple xs) (PTuple ys) = all_int xs ys.
Proof. reflexivity. Qed.

(** *** Scalars *)

Lemma finite_fraction_inv x :
  finite_fraction x = true -> exists f, to_float x = Some f /\ is_finite f = true.
Proof.
  unfold finite_fraction. destruct (to_float x) as [f|]; [eauto | discriminate].
Qed.

Lemma zero_fraction_inv x :
  zero_fraction x = true -> x = NInt 0 \/ exists s, x = NFloat (S754_zero s).
Proof.
  destruct x as [z|f]; cbn.
  - intros H. left. f_equal. lia.
  - intros H. right. destruct (is_zero_inv f H) as [s ->]. eauto.
Qed.

Lemma one_fraction_inv x :
  one_fraction x = true -> x = NInt 1 \/ x = NFloat fone.
Proof.
  destruct x as [z|f]; cbn.
  - intros H. left. f_equal. lia.
  - intros H. right. f_equal.
    destruct f as [| | |[] m e]; try discriminate.
    repeat (match type of H with match ?t with _ => _ end = _ => destruct t end;
            try discriminate).
    reflexivity.
Qed.

(** The product of a zero float with a finite fraction, truncated. *)
Lemma mul_zero_fraction s x :
  finite_fraction x = true ->
  exists p, num_mul (NFloat (S754_zero s)) x = Some (NFloat p) /\ is_zero p = true.
Proof.
  intros Hx. destruct (finite_fraction_inv x Hx) as (f & Hf & Hfin).
  unfold num_mul, arith. cbn [to_float]. rewrite Hf.
  destruct x; eexists; (split; [reflexivity | apply fmul_zero_l, Hfin]).
Qed.

Lemma lerp_int_same z x :
  finite_fraction x = true -> lerp (PInt z) (PInt z) x = Some (PInt z).
Proof.
  intros Hx. cbn [lerp as_number]. unfold num_sub. cbn [arith]. rewrite Z.sub_diag.
  destruct x as [k|f].
  - cbn. rewrite Z.add_0_r. reflexivity.
  - unfold num_mul, arith. cbn [to_float].
    change (float_of_int 0) with (Some (S754_zero false)). cbn match.
    unfold finite_fraction in Hx. cbn in Hx.
    cbn [py_int]. rewrite int_of_float_zero by (apply fmul_zero_l, Hx).
    rewrite Z.add_0_r. reflexivity.
Qed.

Lemma lerp_float_same f x :
  is_finite f = true -> finite_fraction x = true ->
  exists r, lerp (PFloat f) (PFloat f) x = Some (PFloat r) /\ SFeqb r f = true.
Proof.
  intros Hf Hx. cbn [lerp as_number]. unfold num_sub. cbn [arith to_float].
  rewrite fsub_diag by exact Hf.
  destruct (mul_zero_fraction false x Hx) as (p & -> & Hp).
  destruct (is_zero_inv p Hp) as [s ->].
  unfold num_add. cbn [arith to_float option_map of_number].
  eexists. split; [reflexivity | apply fadd_zero_r, Hf].
Qed.


(** *** [lerp(a, a, x)] *)

Lemma lerp_zip_same x l :
  Forall (fun a => numeric_shape a = true ->
            exists r, lerp a a x = Some r /\ py_eqb r a = true) l ->
  forallb numeric_shape l = true ->
  exists rs, lerp_zip x l l = Some rs /\ all_eqb rs l = true.
Proof.
  induction 1 as [|a l Ha _ IH]; cbn [forallb lerp_zip]; intros Hs.
  - exists []. split; reflexivity.
  - apply andb_prop in Hs as [Hsa Hsl].
    destruct (Ha Hsa) as (r & -> & Hr).
    destruct (IH Hsl) as (rs & -> & Hrs).
    exists (r :: rs). cbn [all_eqb]. rewrite Hr, Hrs. split; reflexivity.
Qed.

Lemma lerp_numeric_same x a :
  finite_fraction x = true -> numeric_shape a = true ->
  exists r, lerp a a x = Some r /\ py_eqb r a = true.
Proof.
  intros Hx. induction a as [z|f|s|l IH|l IH|i] using pyval_elems_ind;
    cbn [numeric_shape]; intros Hs; try discriminate.
  - exists (PInt z). split; [apply lerp_int_same, Hx|].
    cbn. unfold num_eqb. cbn. rewrite Z.compare_refl. reflexivity.
  - destruct (lerp_float_same f x Hs Hx) as (r & -> & Hr).
    exists (PFloat r). split; [reflexivity|]. exact Hr.
  - destruct (lerp_zip_same x l IH Hs) as (rs & Hz & Hrs).
    exists (PList rs). rewrite lerp_list. cbn [py_iter]. rewrite Hz.
    split; [reflexivity | exact Hrs].
  - destruct (lerp_zip_same x l IH Hs) as (rs & Hz & Hrs).
    exists (PTuple rs). rewrite lerp_tuple. cbn [py_iter]. rewrite Hz.
    split; [reflexivity | exact Hrs].
Qed.

Lemma scaled_difference_same s x :
  finite_fraction x = true -> scaled_difference s s x = Some 0.
Proof.
  intros Hx. unfold scaled_difference. rewrite Z.sub_diag.
  destruct x as [k|f].
  - reflexivity.
  - unfold num_mul, arith. cbn [to_float].
    change (float_of_int 0) with (Some (S754_zero false)). cbn match.
    cbn [py_int]. apply int_of_float_zero, fmul_zero_l, Hx.
Qed.

Lemma lerp_str_unfold a b x :
  lerp (PStr a) (PStr b) x =
    match scaled_difference a b x with
    | Some pos => py_slice_to (PStr b) pos
    | None => None
    end.
Proof.
  cbn [lerp py_len]. unfold scaled_difference.
  destruct (num_mul _ x); reflexivity.
Qed.

Lemma slice_stop_kept n pos : 0 <= n -> slice_stop n pos = kept n pos.
Proof.
  intros Hn. unfold slice_stop, kept.
  destruct (Z.ltb_spec pos 0).
  - destruct (Z.ltb_spec (pos + n) 0).
    + rewrite Z.max_l by lia. reflexivity.
    + destruct (Z.ltb_spec n (pos + n)); [lia|]. rewrite Z.max_r by lia. f_equal. lia.
  - destruct (Z.ltb_spec pos 0); [lia|].
    destruct (Z.ltb_spec n pos).
    + rewrite Z.min_r by lia. reflexivity.
    + rewrite Z.min_l by lia. reflexivity.
Qed.

Lemma str_take_0 s : str_take 0 s = EmptyString.
Proof. destruct s; reflexivity. Qed.

Lemma py_slice_to_str s pos :
  py_slice_to (PStr s) pos =
    Some (PStr (str_take (kept (Z.of_nat (String.length s)) pos) s)).
Proof. cbn [py_slice_to]. rewrite slice_stop_kept by lia. reflexivity. Qed.

(** C6, as the code has it: for a value made of integers and finite
    floats, in lists and tuples of any depth, and a finite fraction x,
    lerp(a, a, x) returns a value equal to a; for a string a it returns the
    empty string instead. *)
Theorem lerp_same_value (a : pyval) (x : number) :
  finite_fraction x = true ->
  (numeric_shape a = true ->
     exists r, lerp a a x = Some r /\ py_eqb r a = true) /\
  (forall s, a = PStr s -> lerp a a x = Some (PStr EmptyString)).
Proof.
  intros Hx. split.
  - apply lerp_numeric_same, Hx.
  - intros s ->. rewrite lerp_str_unfold, scaled_difference_same by exact Hx.
    rewrite py_slice_to_str. unfold kept. cbn [Z.ltb Z.compare].
    rewrite Z.min_l by lia. cbn [Z.to_nat]. rewrite str_take_0. reflexivity.
Qed.

Lemma lerp_same_value_witness :
  (exists r, lerp (PList [PInt 3; PFloat (f64 0.5); PTuple [PInt (-7); PInt 0]])
               (PList [PInt 3; PFloat (f64 0.5); PTuple [PInt (-7); PInt 0]])
               (NFloat (f64 0.25)) = Some r /\
             py_eqb r (PList [PInt 3; PFloat (f64 0.5); PTuple [PInt (-7); PInt 0]]) = true) /\
  lerp (PStr "abc") (PStr "abc") (NFloat (f64 0.25)) = Some (PStr EmptyString).
Proof.
  split.
  - apply (proj1 (lerp_same_value
             (PList [PInt 3; PFloat (f64 0.5); PTuple [PInt (-7); PInt 0]])
             (NFloat (f64 0.25)) eq_refl)).
    reflexivity.
  - apply (proj2 (lerp_same_value (PStr "abc") (NFloat (f64 0.25)) eq_refl) "abc"%string).
    reflexivity.
Defined.

(** C6 fails on strings: lerp("abc", "abc", 0.5) is the empty string. *)
Lemma lerp_same_string_counterexample :
  lerp (PStr "abc") (PStr "abc") (NFloat (f64 0.5)) = Some (PStr EmptyString) /\
  py_eqb (PStr EmptyString) (PStr "abc") = false.
Proof. split; reflexivity. Qed.


(** *** The endpoints [lerp(a, b, 0)] and [lerp(a, b, 1)] *)

Lemma mul_finite_zero d x :
  is_finite d = true -> zero_fraction x = true ->
  exists p, num_mul (NFloat d) x = Some (NFloat p) /\ is_zero p = true.
Proof.
  intros Hd Hx. destruct (zero_fraction_inv x Hx) as [-> | [s ->]].
  - exists (fmul d (S754_zero false)). split; [reflexivity | apply fmul_zero_r, Hd].
  - exists (fmul d (S754_zero s)). split; [reflexivity | apply fmul_zero_r, Hd].
Qed.

Lemma lerp_int_zero a b x :
  same_shape (PInt a) (PInt b) = true -> zero_fraction x = true ->
  lerp (PInt a) (PInt b) x = Some (PInt a).
Proof.
  cbn [same_shape]. intros Hs Hx.
  cbn [lerp as_number]. unfold num_sub. cbn [arith].
  destruct (zero_fraction_inv x Hx) as [-> | [s ->]].
  - cbn. rewrite Z.mul_0_r, Z.add_0_r. reflexivity.
  - unfold num_mul, arith. cbn [to_float].
    destruct (float_of_int (b - a)) as [f|] eqn:Hf; [|discriminate].
    cbn [py_int]. rewrite int_of_float_zero.
    + rewrite Z.add_0_r. reflexivity.
    + apply fmul_zero_r. eapply float_of_int_finite, Hf.
Qed.

Lemma lerp_float_zero f g x :
  same_shape (PFloat f) (PFloat g) = true -> zero_fraction x = true ->
  exists r, lerp (PFloat f) (PFloat g) x = Some (PFloat r) /\ SFeqb r f = true.
Proof.
  cbn [same_shape]. intros Hs Hx.
  apply andb_prop in Hs as [Hs Hd]. apply andb_prop in Hs as [Hf Hg].
  cbn [lerp as_number]. unfold num_sub. cbn [arith to_float].
  destruct (mul_finite_zero (fsub g f) x Hd Hx) as (p & -> & Hp).
  destruct (is_zero_inv p Hp) as [s ->].
  unfold num_add. cbn [arith to_float option_map of_number].
  eexists. split; [reflexivity | apply fadd_zero_r, Hf].
Qed.

Lemma lerp_zip_zero x l :
  Forall (fun a => forall b, same_shape a b = true ->
            exists r, lerp a b x = Some r /\ py_eqb r a = true) l ->
  forall l', all_same l l' = true ->
  exists rs, lerp_zip x l l' = Some rs /\ all_eqb rs l = true.
Proof.
  induction 1 as [|a l Ha _ IH]; intros [|b l']; cbn [all_same lerp_zip];
    intros Hs; try discriminate.
  - exists []. split; reflexivity.
  - apply andb_prop in Hs as [Hsa Hsl].
    destruct (Ha b Hsa) as (r & -> & Hr).
    destruct (IH l' Hsl) as (rs & -> & Hrs).
    exists (r :: rs). cbn [all_eqb]. rewrite Hr, Hrs. split; reflexivity.
Qed.

Lemma lerp_at_zero x a :
  zero_fraction x = true ->
  forall b, same_shape a b = true ->
  exists r, lerp a b x = Some r /\ py_eqb r a = true.
Proof.
  intros Hx. induction a as [z|f|s|l IH|l IH|i] using pyval_elems_ind;
    intros b Hs; destruct b as [z'|f'|s'|l'|l'|i']; try discriminate.
  - exists (PInt z). split; [apply lerp_int_zero; assumption|].
    cbn. unfold num_eqb. cbn. rewrite Z.compare_refl. reflexivity.
  - destruct (lerp_float_zero f f' x Hs Hx) as (r & -> & Hr).
    exists (PFloat r). split; [reflexivity | exact Hr].
  - rewrite same_shape_list in Hs.
    destruct (lerp_zip_zero x l IH l' Hs) as (rs & Hz & Hrs).
    exists (PList rs). rewrite lerp_list. cbn [py_iter]. rewrite Hz.
    split; [reflexivity | exact Hrs].
  - rewrite same_shape_tuple in Hs.
    destruct (lerp_zip_zero x l IH l' Hs) as (rs & Hz & Hrs).
    exists (PTuple rs). rewrite lerp_tuple. cbn [py_iter]. rewrite Hz.
    split; [reflexivity | exact Hrs].
Qed.

Lemma lerp_int_one a b x :
  int_shape (PInt a) (PInt b) = true -> one_fraction x = true ->
  lerp (PInt a) (PInt b) x = Some (PInt b).
Proof.
  cbn [int_shape]. intros Hs Hx. apply Z.ltb_lt in Hs.
  cbn [lerp as_number]. unfold num_sub. cbn [arith].
  destruct (one_fraction_inv x Hx) as [-> | ->].
  - cbn [num_mul arith py_int]. rewrite Z.mul_1_r. do 2 f_equal. lia.
  - unfold num_mul, arith. cbn [to_float].
    destruct (Z.eq_dec (b - a) 0) as [E|E].
    + rewrite E. change (float_of_int 0) with (Some (S754_zero false)).
      cbn. do 2 f_equal. lia.
    + destruct (float_of_int_exact (b - a)) as (s & m & e & -> & Hn & Hi); [lia|].
      rewrite fmul_one by exact Hn. cbn [py_int]. rewrite Hi.
      do 2 f_equal. lia.
Qed.

Lemma lerp_zip_one x l :
  Forall (fun a => forall b, int_shape a b = true -> lerp a b x = Some b) l ->
  forall l', all_int l l' = true -> lerp_zip x l l' = Some l'.
Proof.
  induction 1 as [|a l Ha _ IH]; intros [|b l']; cbn [all_int lerp_zip];
    intros Hs; try discriminate.
  - reflexivity.
  - apply andb_prop in Hs as [Hsa Hsl].
    rewrite (Ha b Hsa), (IH l' Hsl). reflexivity.
Qed.

Lemma lerp_at_one x a :
  one_fraction x = true ->
  forall b, int_shape a b = true -> lerp a b x = Some b.
Proof.
  intros Hx. induction a as [z|f|s|l IH|l IH|i] using pyval_elems_ind;
    intros b Hs; destruct b as [z'|f'|s'|l'|l'|i']; try discriminate.
  - apply lerp_int_one; assumption.
  - rewrite int_shape_list in Hs. rewrite lerp_list. cbn [py_iter].
    rewrite (lerp_zip_one x l IH l' Hs). reflexivity.
  - rewrite int_shape_tuple in Hs. rewrite lerp_tuple. cbn [py_iter].
    rewrite (lerp_zip_one x l IH l' Hs). reflexivity.
Qed.

(** At the fraction 1 the scaled difference of two floats is the
    difference. *)
Lemma mul_one_fraction d x :
  valid_binary prec emax d = true -> one_fraction x = true ->
  num_mul (NFloat d) x = Some (NFloat d).
Proof.
  intros Hd Hx. destruct (one_fraction_inv x Hx) as [-> | ->].
  - unfold num_mul, arith. cbn [to_float].
    change (float_of_int 1) with (Some fone). cbn match.
    rewrite fmul_one_valid by exact Hd. reflexivity.
  - unfold num_mul, arith. cbn [to_float]. rewrite fmul_one_valid by exact Hd. reflexivity.
Qed.

Lemma lerp_float_one fa fb x :
  valid_binary prec emax fa = true -> valid_binary prec emax fb = true ->
  one_fraction x = true ->
  lerp (PFloat fa) (PFloat fb) x = Some (PFloat (fadd fa (fsub fb fa))).
Proof.
  intros Ha Hb Hx. cbn [lerp as_number]. unfold num_sub. cbn [arith to_float].
  rewrite (mul_one_fraction _ x (fsub_valid fb fa Hb Ha) Hx). reflexivity.
Qed.


Lemma lerp_whole_one fa fb x :
  whole_pair fa fb = true -> one_fraction x = true ->
  exists r, lerp (PFloat fa) (PFloat fb) x = Some (PFloat r) /\ SFeqb r fb = true.
Proof.
  unfold whole_pair. intros Hp Hx.
  destruct (whole_value fa) as [a|] eqn:Ea; [|discriminate].
  destruct (whole_value fb) as [b|] eqn:Eb; [|discriminate].
  apply Z.ltb_lt in Hp.
  destruct (whole_value_inv fa a Ea) as [Ha Hfa].
  destruct (whole_value_inv fb b Eb) as [Hb Hfb].
  assert (Hsum : forall d, fsub fb fa = d -> valid_binary prec emax d = true ->
                   SFeqb (fadd fa d) fb = true ->
                   exists r, lerp (PFloat fa) (PFloat fb) x = Some (PFloat r)
                             /\ SFeqb r fb = true).
  { intros d Ed Hd He. exists (fadd fa d). split; [|exact He].
    cbn [lerp as_number]. unfold num_sub. cbn [arith to_float].
    rewrite Ed, (mul_one_fraction d x Hd Hx). reflexivity. }
  clear Ea Eb.
  destruct Hfa as [(sa & -> & ->) | [-> Ha0]], Hfb as [(sb & -> & ->) | [-> Hb0]].
  - apply (Hsum _ eq_refl); destruct sa, sb; reflexivity.
  - apply (Hsum (whole b)).
    + destruct b; [congruence|reflexivity|reflexivity].
    + apply whole_valid; exact Hb.
    + replace (fadd (S754_zero sa) (whole b)) with (whole b)
        by (destruct b; [congruence|reflexivity|reflexivity]).
      apply whole_eqb; exact Hb.
  - apply (Hsum (whole (- a))).
    + destruct a; [congruence| |]; destruct sb; reflexivity.
    + apply whole_valid; lia.
    + rewrite fadd_whole by (rewrite ?Z.add_opp_diag_r; cbn; lia).
      rewrite Z.add_opp_diag_r. destruct sb; reflexivity.
  - apply (Hsum (whole (b - a))).
    + apply fsub_whole; lia.
    + apply whole_valid; lia.
    + rewrite fadd_whole by (try replace (a + (b - a)) with b by lia; lia).
      replace (a + (b - a)) with b by lia. apply whole_eqb; exact Hb.
Qed.

Lemma exact_shape_list xs ys : exact_shape (PList xs) (PList ys) = all_exact xs ys.
Proof. reflexivity. Qed.

Lemma exact_shape_tuple xs ys : exact_shape (PTuple xs) (PTuple ys) = all_exact xs ys.
Proof. reflexivity. Qed.

Lemma lerp_zip_exact x l :
  Forall (fun a => forall b, exact_shape a b = true ->
            exists r, lerp a b x = Some r /\ py_eqb r b = true) l ->
  forall l', all_exact l l' = true ->
  exists rs, lerp_zip x l l' = Some rs /\ all_eqb rs l' = true.
Proof.
  induction 1 as [|a l Ha _ IH]; intros [|b l']; cbn [all_exact lerp_zip];
    intros Hs; try discriminate.
  - exists []. split; reflexivity.
  - apply andb_prop in Hs as [Hsa Hsl].
    destruct (Ha b Hsa) as (r & -> & Hr).
    destruct (IH l' Hsl) as (rs & -> & Hrs).
    exists (r :: rs). cbn [all_eqb]. rewrite Hr, Hrs. split; reflexivity.
Qed.

Lemma lerp_exact_one x a :
  one_fraction x = true ->
  forall b, exact_shape a b = true ->
  exists r, lerp a b x = Some r /\ py_eqb r b = true.
Proof.
  intros Hx. induction a as [z|f|s|l IH|l IH|i] using pyval_elems_ind;
    intros b Hs; destruct b as [z'|f'|s'|l'|l'|i']; try discriminate.
  - exists (PInt z'). split; [apply lerp_int_one; assumption|].
    cbn. unfold num_eqb. cbn. rewrite Z.compare_refl. reflexivity.
  - destruct (lerp_whole_one f f' x Hs Hx) as (r & -> & Hr).
    exists (PFloat r). split; [reflexivity | exact Hr].
  - rewrite exact_shape_list in Hs.
    destruct (lerp_zip_exact x l IH l' Hs) as (rs & Hz & Hrs).
    exists (PList rs). rewrite lerp_list. cbn [py_iter]. rewrite Hz.
    split; [reflexivity | exact Hrs].
  - rewrite exact_shape_tuple in Hs.
    destruct (lerp_zip_exact x l IH l' Hs) as (rs & Hz & Hrs).
    exists (PTuple rs). rewrite lerp_tuple. cbn [py_iter]. rewrite Hz.
    split; [reflexivity | exact Hrs].
Qed.

(** C7, as the code has it.  At the fraction 0 (the integer or the
    float), lerp(a, b, 0) == a for two integers whose difference converts
    to a float, for two finite floats whose difference is finite, and for
    equal-length lists or tuples of such pairs.  At the fraction 1 (the
    integer or the float): lerp(a, b, 1) is b for two integers less than
    2^53 apart and for equal-length lists or tuples of such pairs; for any
    two binary64 numbers lerp(a, b, 1) is a + (b - a) as binary64 computes
    it (the difference is a binary64 number and its product with 1 is
    exact), whatever that sum is; and lerp(a, b, 1) == b for two whole
    floats below 2^53 in magnitude and less than 2^53 apart, where neither
    the difference nor the sum rounds, and for equal-length lists or
    tuples of such float pairs and integer pairs. *)
Theorem lerp_endpoints (a b : pyval) (x : number) :
  (zero_fraction x = true -> same_shape a b = true ->
     exists r, lerp a b x = Some r /\ py_eqb r a = true) /\
  (one_fraction x = true -> int_shape a b = true -> lerp a b x = Some b) /\
  (forall fa fb, a = PFloat fa -> b = PFloat fb -> one_fraction x = true ->
     valid_binary prec emax fa = true -> valid_binary prec emax fb = true ->
     lerp a b x = Some (PFloat (fadd fa (fsub fb fa)))) /\
  (one_fraction x = true -> exact_shape a b = true ->
     exists r, lerp a b x = Some r /\ py_eqb r b = true).
Proof.
  split; [|split; [|split]].
  - intros Hx Hs. apply lerp_at_zero; assumption.
  - intros Hx Hs. apply lerp_at_one; assumption.
  - intros fa fb -> -> Hx Ha Hb. apply lerp_float_one; assumption.
  - intros Hx Hs. apply lerp_exact_one; assumption.
Qed.

Lemma lerp_endpoints_witness :
  (exists r, lerp (PList [PInt 10; PFloat (f64 0.5)])
               (PList [PInt (-4); PFloat (f64 8)]) (NFloat (f64 0)) = Some r /\
             py_eqb r (PList [PInt 10; PFloat (f64 0.5)]) = true) /\
  lerp (PTuple [PInt 10; PInt 0]) (PTuple [PInt (-4); PInt 255]) (NFloat (f64 1))
    = Some (PTuple [PInt (-4); PInt 255]) /\
  lerp (PFloat (f64 1e16)) (PFloat (f64 1)) (NInt 1)
    = Some (PFloat (fadd (f64 1e16) (fsub (f64 1) (f64 1e16)))) /\
  (exists r, lerp (PList [PFloat (f64 0); PInt 10; PFloat (f64 (-3))])
               (PList [PFloat (f64 100); PInt (-4); PFloat (f64 255)])
               (NFloat (f64 1)) = Some r /\
             py_eqb r (PList [PFloat (f64 100); PInt (-4); PFloat (f64 255)]) = true).
Proof.
  split; [|split; [|split]].
  - apply (proj1 (lerp_endpoints (PList [PInt 10; PFloat (f64 0.5)])
                    (PList [PInt (-4); PFloat (f64 8)]) (NFloat (f64 0))));
      reflexivity.
  - apply (proj1 (proj2 (lerp_endpoints (PTuple [PInt 10; PInt 0])
                           (PTuple [PInt (-4); PInt 255]) (NFloat (f64 1)))));
      reflexivity.
  - apply (proj1 (proj2 (proj2 (lerp_endpoints (PFloat (f64 1e16)) (PFloat (f64 1))
                                  (NInt 1)))) (f64 1e16) (f64 1));
      reflexivity.
  - apply (proj2 (proj2 (proj2 (lerp_endpoints
                                  (PList [PFloat (f64 0); PInt 10; PFloat (f64 (-3))])
                                  (PList [PFloat (f64 100); PInt (-4); PFloat (f64 255)])
                                  (NFloat (f64 1))))));
      reflexivity.
Defined.

(** C7 fails at the fraction 1 on floats and on integers far apart:
    lerp(1e16, 1.0, 1) is 0.0, because 1.0 - 1e16 rounds to -1e16, and
    lerp(0, 2**53 + 1, 1.0) is 2**53, because float(2**53 + 1) is 2**53. *)
Lemma lerp_endpoint_counterexample :
  (lerp (PFloat (f64 1e16)) (PFloat (f64 1)) (NInt 1) = Some (PFloat (S754_zero false)) /\
   py_eqb (PFloat (S754_zero false)) (PFloat (f64 1)) = false) /\
  (lerp (PInt 0) (PInt (2 ^ 53 + 1)) (NFloat (f64 1)) = Some (PInt (2 ^ 53)) /\
   py_eqb (PInt (2 ^ 53)) (PInt (2 ^ 53 + 1)) = false).
Proof. repeat split; vm_compute; reflexivity. Qed.


(** *** The string branch *)

Lemma str_take_length n s : String.length (str_take n s) = Nat.min n (String.length s).
Proof.
  revert s. induction n as [|n IH]; intros [|c s]; cbn; try reflexivity.
  rewrite IH. reflexivity.
Qed.

Lemma str_take_prefix n s : exists rest, s = (str_take n s ++ rest)%string.
Proof.
  revert s. induction n as [|n IH]; intros [|c s]; cbn.
  - exists EmptyString. reflexivity.
  - exists (String c s). reflexivity.
  - exists EmptyString. reflexivity.
  - destruct (IH s) as [rest Hr]. exists rest.
    change (String c s = String c (str_take n s ++ rest)%string).
    f_equal. exact Hr.
Qed.

(** C4, as the code has it: lerp(a, b, x) on strings is the slice b[:pos]
    with pos = int((len(b) - len(a)) * x), the scaled length difference
    itself (not the end length minus it): a prefix of b that keeps
    min(pos, len(b)) characters for pos >= 0 and max(len(b) + pos, 0)
    characters for pos < 0; it raises exactly when the conversion of the
    product does.  At x = 0 the bound is 0 and at x = 1 it is
    len(b) - len(a). *)
Theorem lerp_str_slice (a b : string) (x : number) :
  lerp (PStr a) (PStr b) x =
    option_map
      (fun pos => PStr (str_take (kept (Z.of_nat (String.length b)) pos) b))
      (scaled_difference a b x) /\
  (forall n, String.length (str_take n b) = Nat.min n (String.length b) /\
             exists rest, b = (str_take n b ++ rest)%string) /\
  scaled_difference a b (NInt 0) = Some 0 /\
  scaled_difference a b (NInt 1)
    = Some (Z.of_nat (String.length b) - Z.of_nat (String.length a)).
Proof.
  repeat split.
  - rewrite lerp_str_unfold. destruct (scaled_difference a b x) as [pos|]; [|reflexivity].
    cbn [option_map]. apply py_slice_to_str.
  - apply str_take_length.
  - apply str_take_prefix.
  - unfold scaled_difference. cbn. rewrite Z.mul_0_r. reflexivity.
  - unfold scaled_difference. cbn [num_mul arith py_int]. rewrite Z.mul_1_r. reflexivity.
Qed.

(** C4 fails as worded: the code keeps int(diff * x) characters, not
    len(b) - int(diff * x).  lerp("", "hello", 1) is "hello" where the
    worded rule keeps 5 - 5 = 0 characters, and lerp("", "hello", 0) is ""
    where the worded rule keeps all 5. *)
Lemma lerp_str_counterexample :
  (lerp (PStr "") (PStr "hello") (NInt 1) = Some (PStr "hello") /\
   spec_lerp_str "" "hello" (NInt 1) = Some (PStr "")) /\
  (lerp (PStr "") (PStr "hello") (NInt 0) = Some (PStr "") /\
   spec_lerp_str "" "hello" (NInt 0) = Some (PStr "hello")).
Proof. repeat split; reflexivity. Qed.

End LerpFacts.

(** ** The easing curves *)
Module EasingFacts.
Import Easing.

Section Boundaries.
Local Open Scope R_scope.

Lemma pow2_m10 x : x = - 10 -> Rpower 2 x = / 1024.
Proof.
  intros ->. replace (- 10) with (- INR 10) by (simpl; lra).
  rewrite Rpower_Ropp. f_equal. rewrite Rpower_pow by lra. simpl. lra.
Qed.

Lemma pow2_0 x : x = 0 -> Rpower 2 x = 1.
Proof. intros ->. apply Rpower_O. lra. Qed.

Ltac arg_is f v :=
  match goal with
  | |- context [f ?x] =>
      lazymatch x with
      | v => fail
      | _ => replace x with v by (try field; lra)
      end
  end.

Ltac branch :=
  repeat match goal with
         | |- context [Rlt_dec ?x ?y] => destruct (Rlt_dec x y); try lra
         | |- context [Req_dec_T ?x ?y] => destruct (Req_dec_T x y); try lra
         end.

Lemma polynomial_boundaries k :
  is_expo k = false -> is_elastic k = false ->
  match k with
  | EaseInSine | EaseOutSine | EaseInOutSine
  | EaseInCirc | EaseOutCirc | EaseInOutCirc => True
  | _ => normalized k 0 = 0 /\ normalized k 1 = 1
  end.
Proof.
  destruct k; try discriminate; intros _ _; try exact I;
    unfold normalized, _normalize_easing, easing_function;
    split;
    match goal with |- ?f _ _ _ _ = _ => unfold f end; cbv zeta; branch; field.
Qed.

Lemma sine_boundaries :
  (normalized EaseInSine 0 = 0 /\ normalized EaseInSine 1 = 1) /\
  (normalized EaseOutSine 0 = 0 /\ normalized EaseOutSine 1 = 1) /\
  (normalized EaseInOutSine 0 = 0 /\ normalized EaseInOutSine 1 = 1).
Proof.
  unfold normalized, _normalize_easing, easing_function,
    ease_in_sine, ease_out_sine, ease_in_out_sine.
  replace (0 / 1 * (PI / 2)) with 0 by field.
  replace (1 / 1 * (PI / 2)) with (PI / 2) by field.
  replace (PI * 0 / 1) with 0 by field.
  replace (PI * 1 / 1) with PI by field.
  rewrite cos_0, cos_PI2, sin_0, sin_PI2, cos_PI.
  repeat split; lra.
Qed.

Lemma circ_boundaries :
  (normalized EaseInCirc 0 = 0 /\ normalized EaseInCirc 1 = 1) /\
  (normalized EaseOutCirc 0 = 0 /\ normalized EaseOutCirc 1 = 1) /\
  (normalized EaseInOutCirc 0 = 0 /\ normalized EaseInOutCirc 1 = 1).
Proof.
  unfold normalized, _normalize_easing, easing_function,
    ease_in_circ, ease_out_circ, ease_in_out_circ. cbv zeta.
  repeat split; branch;
    repeat match goal with
           | |- context [sqrt ?x] =>
               first [ replace x with 0 by field; rewrite sqrt_0
                     | replace x with 1 by field; rewrite sqrt_1 ]
           end; field.
Qed.

Lemma elastic_boundaries k :
  is_elastic k = true -> normalized k 0 = 0 /\ normalized k 1 = 1.
Proof.
  destruct k; try discriminate; intros _;
    unfold normalized, _normalize_easing, easing_function,
      ease_in_elastic, ease_out_elastic, ease_in_out_elastic;
    split; branch;
    repeat match goal with
           | H : ?x <> ?y |- _ => exfalso; apply H; field
           end.
Qed.

Lemma expo_boundaries :
  (normalized EaseInExpo 0 = / 1024 /\ normalized EaseInExpo 1 = 1) /\
  (normalized EaseOutExpo 0 = 0 /\ normalized EaseOutExpo 1 = 1 - / 1024) /\
  (normalized EaseInOutExpo 0 = / 2048 /\ normalized EaseInOutExpo 1 = 1 - / 2048).
Proof.
  unfold normalized, _normalize_easing, easing_function,
    ease_in_expo, ease_out_expo, ease_in_out_expo. cbv zeta.
  repeat split; branch;
    first [ rewrite pow2_m10 by field | rewrite pow2_0 by field ]; lra.
Qed.

(** C3, as the code has it (floats read as the reals they denote): every
    curve of the named set other than the three exponential ones has
    normalized value 0 at 0 and 1 at 1, the elastic curves by their
    explicit special cases; easeInExpo starts at 2^-10, easeOutExpo ends
    at 1 - 2^-10, and easeInOutExpo starts at 2^-11 and ends at
    1 - 2^-11. *)
Theorem normalized_ends (k : curve) :
  normalized k 0 = start_value k /\ normalized k 1 = end_value k.
Proof.
  destruct (is_expo k) eqn:Hx; [|destruct (is_elastic k) eqn:Hl].
  - destruct expo_boundaries as (H1 & H2 & H3).
    destruct k; try discriminate; assumption.
  - destruct (elastic_boundaries k Hl) as [H0 H1].
    destruct k; try discriminate; split; assumption.
  - pose proof (polynomial_boundaries k Hx Hl) as Hp.
    destruct sine_boundaries as (S1 & S2 & S3).
    destruct circ_boundaries as (C1 & C2 & C3).
    destruct k; try discriminate; assumption.
Qed.

(** C3 fails on the exponential curves: the normalized easeInExpo is
    2^-10 at 0 and the normalized easeOutExpo is 1 - 2^-10 at 1, each about
    0.001 off the claimed end, far outside rounding error. *)
Lemma expo_ends_counterexample :
  (normalized EaseInExpo 0 = / 1024 /\ / 2000 < Rabs (normalized EaseInExpo 0 - 0)) /\
  (normalized EaseOutExpo 1 = 1 - / 1024 /\ / 2000 < Rabs (normalized EaseOutExpo 1 - 1)).
Proof.
  destruct expo_boundaries as ((H1 & _) & (_ & H2) & _).
  rewrite H1, H2. repeat split.
  - rewrite Rabs_right; lra.
  - rewrite Rabs_left; lra.
Qed.

End Boundaries.

(** *** Names *)

Lemma lookup_names_NoDup : NoDup (lookup_entries.*1).
Proof.
  assert (H : bool_decide (NoDup (lookup_entries.*1)) = true) by (vm_compute; reflexivity).
  exact (bool_decide_eq_true_1 _ H).
Qed.

Lemma lookup_linear : tween_functions_lookup !! "linear"%string = Some Linear.
Proof.
  unfold tween_functions_lookup.
  apply elem_of_list_to_map_1; [apply lookup_names_NoDup|].
  apply list_elem_of_In. left. reflexivity.
Qed.

(** C9: for every name string, [get_tween] returns the curve registered
    under the name when the name is in the fixed set, and the linear curve
    for every other name; it raises in neither case. *)
Theorem get_tween_resolves (name : string) :
  (forall k, (name, k) ∈ lookup_entries -> get_tween name = Some k) /\
  (name ∉ lookup_entries.*1 -> get_tween name = Some Linear).
Proof.
  unfold get_tween, tween_functions_lookup. split.
  - intros k Hk.
    rewrite (elem_of_list_to_map_1 _ _ _ lookup_names_NoDup Hk). reflexivity.
  - intros Hn. rewrite (not_elem_of_list_to_map_1 _ _ Hn).
    apply lookup_linear.
Qed.

Lemma get_tween_resolves_witness :
  get_tween "easeOutQuad" = Some EaseOutQuad /\ get_tween "bounce" = Some Linear.
Proof.
  split.
  - apply (proj1 (get_tween_resolves "easeOutQuad")).
    apply list_elem_of_In. do 2 right. left. reflexivity.
  - apply (proj2 (get_tween_resolves "bounce")).
    assert (H : bool_decide ("bounce"%string ∉ lookup_entries.*1) = true)
      by (vm_compute; reflexivity).
    exact (bool_decide_eq_true_1 _ H).
Defined.

End EasingFacts.

(** ** The tween state machine *)
Module TweenFacts.
Import PyNum Lerp Tween.

Ltac methods :=
  unfold done, handle_repeat, complete, restart, reset, start, stop, flip,
    pause, unpause, fire, now, bind, ret in *.

(** *** What the operations do to the flags and counters *)

Lemma restart_effect s w :
  let s' := (restart s w).1 in
  is_completed s' = false /\ is_running s' = true /\ is_paused s' = false
  /\ props s' = props s /\ direction s' = direction s
  /\ pingpong s' = pingpong s /\ count s' = count s /\ events s' = events s
  /\ value s' = (if direction s =? 1
                 then TweenProps.from_value (props s)
                 else TweenProps.to_value (props s))
  /\ calls (restart s w).2 = calls w.
Proof. methods. cbn. destruct (direction s =? 1); cbn; repeat split. Qed.

Lemma complete_effect s w :
  let s' := (complete s w).1 in
  is_completed s' = true /\ is_running s' = false
  /\ props s' = props s /\ direction s' = direction s
  /\ pingpong s' = pingpong s /\ count s' = count s /\ value s' = value s
  /\ calls (complete s w).2
     = calls w ++ Events.trigger "update" (value s) (events s)
               ++ Events.trigger "complete" (value s) (events s).
Proof.
  methods. cbn. destruct (is_running s) eqn:E; cbn; rewrite <- ?app_assoc, ?E; repeat split.
Qed.

(** [done()] ends in [restart()] or in [complete()]. *)
Lemma done_ends s w :
  (exists s0 w0, done s w = restart s0 w0) \/ (exists s0 w0, done s w = complete s0 w0).
Proof.
  unfold done, handle_repeat, flip, bind, ret.
  repeat match goal with
         | |- context [if ?c then _ else _] => destruct c
         end; eauto.
Qed.

Lemma done_flags s w :
  is_completed (done s w).1 = true -> is_running (done s w).1 = false.
Proof.
  destruct (done_ends s w) as [(s0 & w0 & ->) | (s0 & w0 & ->)].
  - destruct (restart_effect s0 w0) as (Hc & _). rewrite Hc. discriminate.
  - destruct (complete_effect s0 w0) as (_ & Hr & _). intros _. exact Hr.
Qed.

(** [update()] leaves the flags alone or runs [done()] on a tween that had
    not completed. *)
Lemma update_flags ease s w :
  let s' := (update ease s w).1.1 in
  (is_completed s' = is_completed s /\ is_running s' = is_running s)
  \/ (is_completed s = false /\ exists s0 w0, s' = (done s0 w0).1).
Proof.
  unfold update.
  destruct (is_paused s); [left; split; reflexivity|].
  destruct (is_completed s) eqn:Hc; [left; split; cbn; [exact Hc | reflexivity]|].
  destruct (is_running s) eqn:Hr; cbn [negb];
    [|left; split; cbn; [exact Hc | exact Hr]].
  unfold bind, now, fire, ret. cbv beta iota.
  destruct (elapsed_fraction _ s) as [frac|];
    [|left; split; cbn; [exact Hc | exact Hr]].
  match goal with
  | |- context [match ?t with Some _ => _ | None => _ end] => destruct t as [tt|]
  end; [|left; split; cbn; [exact Hc | exact Hr]].
  destruct (tween_value _ _ _) as [v|];
    [|left; split; cbn; [exact Hc | exact Hr]].
  destruct (num_geb _ _).
  - right. split; [reflexivity|].
    match goal with |- context [done ?s0 ?w0] => exists s0, w0 end.
    destruct (done _ _). reflexivity.
  - left. split; cbn; [exact Hc | exact Hr].
Qed.

(** A cycle boundary is a call of [done()]: an [update()] that gets as far
    as its last test calls [done()] exactly when the elapsed fraction has
    reached 1. *)
Lemma update_cycle ease s w frac tw_time v :
  is_paused s = false -> is_completed s = false -> is_running s = true ->
  elapsed_fraction (readings w (taken w)) s = Some frac ->
  (if direction s =? 1 then Some frac else num_sub (NInt 1) frac) = Some tw_time ->
  tween_value ease (set_time frac s) tw_time = Some v ->
  let s1 := set_value v (set_time frac s) in
  let w1 := {| readings := readings w; taken := S (taken w);
               calls := calls w ++ Events.trigger "update" v (events s) |} in
  (update ease s w).1.1 = (if num_geb frac (NInt 1) then (done s1 w1).1 else s1).
Proof.
  intros Hp Hc Hr Hf Ht Hv. unfold update. rewrite Hp, Hc, Hr. cbn [negb].
  unfold bind, now, fire, ret. cbv beta iota. rewrite Hf.
  cbn [direction time set_time]. rewrite Ht, Hv.
  cbn [value events time set_value set_time].
  destruct (num_geb frac (NInt 1)); [|reflexivity].
  destruct (done _ _). reflexivity.
Qed.

(** *** C5: completed and running *)

Lemma step_keeps_invariant ease o s w :
  (o = OpStart -> is_completed s = false) ->
  stopped_when_completed s -> stopped_when_completed (step ease o s w).1.
Proof.
  unfold stopped_when_completed. intros Hstart Hs.
  destruct o; cbn [step].
  - rewrite (Hstart eq_refl) in *. methods. cbn. rewrite (Hstart eq_refl). discriminate.
  - methods. cbn. destruct (is_running s) eqn:E; cbn; [reflexivity | rewrite E; reflexivity].
  - destruct (restart_effect s w) as (Hc & _). rewrite Hc. discriminate.
  - methods. destruct (is_paused s); cbn; exact Hs.
  - methods. destruct (is_paused s); cbn; exact Hs.
  - methods. cbn. exact Hs.
  - unfold bind, ret.
    pose proof (update_flags ease s w) as Hu. cbv zeta in Hu.
    destruct (update ease s w) as [[s' r] w']. cbn [fst] in *.
    destruct Hu as [[Hc Hr] | [Hc (s0 & w0 & ->)]].
    + rewrite Hc, Hr. exact Hs.
    + apply done_flags.
Qed.

Lemma step_stays_completed ease o s w :
  o <> OpRestart -> is_completed s = true -> is_completed (step ease o s w).1 = true.
Proof.
  intros Ho Hc. destruct o; cbn [step]; try congruence.
  - methods. cbn. exact Hc.
  - methods. cbn. destruct (is_running s); cbn; exact Hc.
  - methods. destruct (is_paused s); cbn; exact Hc.
  - methods. destruct (is_paused s); cbn; exact Hc.
  - methods. cbn. exact Hc.
  - unfold bind, ret, update. destruct (is_paused s); [exact Hc|].
    rewrite Hc. exact Hc.
Qed.

Lemma run_keeps_invariant ease ops :
  forall s w, starts_live ease ops s w = true ->
    stopped_when_completed s -> stopped_when_completed (run ease ops s w).1.
Proof.
  induction ops as [|o ops IH]; intros s w Hlive Hs; [exact Hs|].
  cbn [starts_live] in Hlive. apply andb_prop in Hlive as [Ho Hlive].
  cbn [run]. unfold bind.
  pose proof (step_keeps_invariant ease o s w) as Hstep.
  destruct (step ease o s w) as [s' w']. cbn [fst] in Hstep.
  apply IH; [exact Hlive|]. apply Hstep; [|exact Hs].
  intros ->. destruct (is_completed s); [discriminate | reflexivity].
Qed.

Lemma init_not_completed fv tv dur easing repeat ucb ccb auto pp w :
  is_completed (init fv tv dur easing repeat ucb ccb auto pp w).1 = false.
Proof. unfold init. methods. destruct auto; reflexivity. Qed.

(** C5, as the code has it: in every state reached from construction by a
    run of start, stop, restart, pause, unpause, flip and update in which
    start() is not called on a completed tween, completed implies not
    running; and in such a state every operation other than restart()
    leaves completed set, while restart() clears it.  (start() has no
    guard: called on a completed tween it sets running and leaves
    completed set.) *)
Theorem completed_implies_stopped
    (ease : Easing.curve -> number -> option number) (ops : list op)
    (fv tv : pyval) (dur : number) (easing : string) (repeat : Z)
    (ucb ccb : option Events.callback) (auto : bool) (pp : Z) (w : World) :
  let s0 := (init fv tv dur easing repeat ucb ccb auto pp w).1 in
  let w0 := (init fv tv dur easing repeat ucb ccb auto pp w).2 in
  starts_live ease ops s0 w0 = true ->
  let s := (run ease ops s0 w0).1 in
  (is_completed s = true -> is_running s = false) /\
  (forall o w', o <> OpRestart -> is_completed s = true ->
     is_completed (step ease o s w').1 = true) /\
  (forall w', is_completed (restart s w').1 = false).
Proof.
  intros s0 w0 Hlive s. split; [|split].
  - apply run_keeps_invariant; [exact Hlive|].
    unfold stopped_when_completed, s0. rewrite init_not_completed. discriminate.
  - intros o w'. apply step_stays_completed.
  - intros w'. apply restart_effect.
Qed.

Lemma completed_implies_stopped_witness :
  let s := (run ease_linear [OpUpdate; OpPause; OpUpdate; OpStop; OpUnpause; OpFlip]
              (init (PInt 0) (PInt 100) (NFloat (f64 1)) "linear" 1 None None true 0
                 (ticking 1000)).1
              (init (PInt 0) (PInt 100) (NFloat (f64 1)) "linear" 1 None None true 0
                 (ticking 1000)).2).1 in
  is_completed s = true /\ is_running s = false.
Proof.
  cbv zeta.
  pose proof (completed_implies_stopped ease_linear
                [OpUpdate; OpPause; OpUpdate; OpStop; OpUnpause; OpFlip]
                (PInt 0) (PInt 100) (NFloat (f64 1)) "linear" 1 None None true 0
                (ticking 1000)) as H.
  cbv zeta in H. specialize (H ltac:(vm_compute; reflexivity)).
  destruct H as [H _]. split; [vm_compute; reflexivity|].
  apply H. vm_compute. reflexivity.
Defined.

(** C5 fails through start(): a tween that has completed and is started
    again is both completed and running.  Tween(0, 100, 1.0, 'linear') with
    the clock one second further at each reading completes at its first
    update(); start() then sets is_running. *)
Lemma start_after_completion_counterexample :
  let s := (run ease_linear [OpUpdate; OpStart]
              (init (PInt 0) (PInt 100) (NFloat (f64 1)) "linear" 1 None None true 0
                 (ticking 1000)).1
              (init (PInt 0) (PInt 100) (NFloat (f64 1)) "linear" 1 None None true 0
                 (ticking 1000)).2).1 in
  is_completed s = true /\ is_running s = true.
Proof. vm_compute. split; reflexivity. Qed.

(** *** C1: repeat *)

(** The ways through [done()]. *)
Lemma done_forward s w :
  TweenProps.pingpong (props s) <> 0 -> direction s = 1 ->
  done s w = restart (set_direction (-1)
                        (set_value (TweenProps.to_value (props s)) s)) w.
Proof.
  intros Hp Hd. unfold done. cbn [props set_value direction].
  destruct (Z.eqb_spec (TweenProps.pingpong (props s)) 0); [contradiction|].
  rewrite Hd. cbn [negb]. change (1 =? 1) with true. cbv iota.
  unfold flip, bind, ret. cbn [direction set_value]. rewrite Hd. reflexivity.
Qed.

Lemma done_reverse s w :
  TweenProps.pingpong (props s) <> 0 -> direction s = -1 ->
  pingpong s + 1 < TweenProps.pingpong (props s) ->
  done s w = restart (set_direction 1
                        (set_pingpong (pingpong s + 1)
                           (set_value (TweenProps.to_value (props s)) s))) w.
Proof.
  intros Hp Hd Hlt. unfold done. cbn [props set_value direction pingpong set_pingpong].
  destruct (Z.eqb_spec (TweenProps.pingpong (props s)) 0); [contradiction|].
  rewrite Hd. cbn [negb]. change (-1 =? 1) with false. cbv iota.
  destruct (Z.ltb_spec (pingpong s + 1) (TweenProps.pingpong (props s))); [|lia].
  cbn [orb]. unfold flip, bind, ret. cbn [direction set_value set_pingpong].
  rewrite Hd. reflexivity.
Qed.

Lemma done_exhausted s w :
  0 < TweenProps.pingpong (props s) -> direction s = -1 ->
  TweenProps.pingpong (props s) <= pingpong s + 1 ->
  done s w = handle_repeat
               (set_pingpong 0
                  (set_direction 1
                     (set_value (TweenProps.from_value (props s))
                        (set_pingpong (pingpong s + 1)
                           (set_value (TweenProps.to_value (props s)) s))))) w.
Proof.
  intros Hp Hd Hge. unfold done. cbn [props set_value direction pingpong set_pingpong].
  destruct (Z.eqb_spec (TweenProps.pingpong (props s)) 0); [lia|].
  rewrite Hd. cbn [negb]. change (-1 =? 1) with false. cbv iota.
  destruct (Z.ltb_spec (pingpong s + 1) (TweenProps.pingpong (props s))); [lia|].
  destruct (Z.eqb_spec (TweenProps.pingpong (props s)) (-1)); [lia|].
  cbn [orb]. unfold flip, bind, ret. cbn [direction set_value set_pingpong].
  rewrite Hd. reflexivity.
Qed.

Lemma done_plain s w :
  TweenProps.pingpong (props s) = 0 ->
  done s w = handle_repeat (set_value (TweenProps.to_value (props s)) s) w.
Proof.
  intros Hp. unfold done. cbn [props set_value]. rewrite Hp. reflexivity.
Qed.

Lemma handle_repeat_cases s w :
  0 < TweenProps.repeat (props s) ->
  handle_repeat s w =
    (if count s + 1 <? TweenProps.repeat (props s)
     then restart (set_count (count s + 1) s) w
     else complete (set_count (count s + 1) s) w).
Proof.
  intros Hn. unfold handle_repeat. cbn [props set_count count].
  destruct (Z.eqb_spec (TweenProps.repeat (props s)) 0); [lia|].
  destruct (Z.eqb_spec (TweenProps.repeat (props s)) (-1)); [lia|].
  destruct (count s + 1 <? TweenProps.repeat (props s)); reflexivity.
Qed.

Ltac on_way Hp Hp1 Hd1 Hg1 Hn1 :=
  repeat split; try congruence; try lia;
  try (rewrite ?Hn1, ?Hg1; lia);
  try (intros _; rewrite ?Hg1; lia);
  try (intros _; first [left; exact Hd1 | right; exact Hd1]);
  try (rewrite ?Hd1, ?Hg1, ?Hn1, Hp1, Hp;
       match goal with
       | |- context [TweenProps.pingpong ?p =? 0] =>
           destruct (Z.eqb_spec (TweenProps.pingpong p) 0); [try lia|]
       end;
       try change (1 =? 1) with true; try change (-1 =? 1) with false;
       cbv iota; nia).

Lemma done_progress p ls s w :
  0 <= TweenProps.pingpong p -> on_the_way p ls s ->
  let r := done s w in
  (progress s + 1 < TweenProps.repeat p * boundaries p ->
     on_the_way p ls r.1 /\ progress r.1 = progress s + 1
     /\ is_completed r.1 = false /\ calls r.2 = calls w)
  /\ (progress s + 1 >= TweenProps.repeat p * boundaries p ->
     is_completed r.1 = true /\ is_running r.1 = false
     /\ calls r.2 = calls w ++ Events.trigger "update" (final_value p) ls
                           ++ Events.trigger "complete" (final_value p) ls).
Proof.
  intros HP (Hp & He & Hc & Hpp). cbv zeta.
  unfold progress, boundaries, final_value. rewrite Hp.
  destruct (Z.eqb_spec (TweenProps.pingpong p) 0) as [H0|H0]; cbv iota.
  - (* no ping-pong *)
    rewrite done_plain by (rewrite Hp; exact H0).
    rewrite handle_repeat_cases by (cbn; rewrite Hp; lia).
    cbn [props set_value count]. rewrite Hp.
    destruct (Z.ltb_spec (count s + 1) (TweenProps.repeat p)) as [Hlt|Hge].
    + match goal with |- context [restart ?s0 w] =>
        pose proof (restart_effect s0 w) as Hr end.
      cbv zeta in Hr. destruct Hr as (Hc1 & _ & _ & Hp1 & Hd1 & Hg1 & Hn1 & He1 & _ & Hw1).
      cbn [props direction pingpong count events set_count set_value] in Hp1, Hd1, Hg1, Hn1, He1.
      split; [|intros; exfalso; lia]. intros _. on_way Hp Hp1 Hd1 Hg1 Hn1.
    + match goal with |- context [complete ?s0 w] =>
        pose proof (complete_effect s0 w) as Hf end.
      cbv zeta in Hf. destruct Hf as (Hc1 & Hr1 & _ & _ & _ & _ & _ & Hw1).
      cbn [value events set_count set_value] in Hw1.
      split; [intros; exfalso; lia|]. intros _. rewrite Hc1, Hr1, Hw1, He. repeat split.
  - (* ping-pong *)
    assert (HP0 : 0 < TweenProps.pingpong p) by lia.
    destruct (Hpp HP0) as [Hg [Hd|Hd]].
    + (* forward leg *)
      rewrite done_forward by (rewrite ?Hp; assumption).
      match goal with |- context [restart ?s0 w] =>
        pose proof (restart_effect s0 w) as Hr end.
      cbv zeta in Hr. destruct Hr as (Hc1 & _ & _ & Hp1 & Hd1 & Hg1 & Hn1 & He1 & _ & Hw1).
      cbn [props direction pingpong count events set_direction set_value] in Hp1, Hd1, Hg1, Hn1, He1.
      rewrite Hd. change (1 =? 1) with true. cbv iota.
      split; [|intros; exfalso; nia]. intros _. on_way Hp Hp1 Hd1 Hg1 Hn1.
    + (* reverse leg *)
      rewrite Hd. change (-1 =? 1) with false. cbv iota.
      destruct (Z.lt_ge_cases (pingpong s + 1) (TweenProps.pingpong p)) as [Hlt|Hge].
      * rewrite done_reverse by (rewrite ?Hp; assumption).
        match goal with |- context [restart ?s0 w] =>
          pose proof (restart_effect s0 w) as Hr end.
        cbv zeta in Hr. destruct Hr as (Hc1 & _ & _ & Hp1 & Hd1 & Hg1 & Hn1 & He1 & _ & Hw1).
        cbn [props direction pingpong count events set_direction set_pingpong set_value]
          in Hp1, Hd1, Hg1, Hn1, He1.
        split; [|intros; exfalso; nia]. intros _. on_way Hp Hp1 Hd1 Hg1 Hn1.
      * rewrite done_exhausted by (rewrite ?Hp; assumption).
        rewrite handle_repeat_cases by (cbn; rewrite Hp; lia).
        cbn [props set_value set_pingpong set_direction count]. rewrite Hp.
        assert (Hpe : pingpong s + 1 = TweenProps.pingpong p) by lia.
        destruct (Z.ltb_spec (count s + 1) (TweenProps.repeat p)) as [Hlt|Hge'].
        -- match goal with |- context [restart ?s0 w] =>
             pose proof (restart_effect s0 w) as Hr end.
           cbv zeta in Hr.
           destruct Hr as (Hc1 & _ & _ & Hp1 & Hd1 & Hg1 & Hn1 & He1 & _ & Hw1).
           cbn [props direction pingpong count events set_direction set_pingpong
                  set_value set_count] in Hp1, Hd1, Hg1, Hn1, He1.
           split; [|intros; exfalso; nia]. intros _. on_way Hp Hp1 Hd1 Hg1 Hn1.
        -- match goal with |- context [complete ?s0 w] =>
             pose proof (complete_effect s0 w) as Hf end.
           cbv zeta in Hf. destruct Hf as (Hc1 & Hr1 & _ & _ & _ & _ & _ & Hw1).
           cbn [value events set_count set_value set_pingpong set_direction] in Hw1.
           split; [intros; exfalso; nia|]. intros _. rewrite Hc1, Hr1, Hw1, He. repeat split.
Qed.

Lemma cycles_snoc m :
  forall s w, cycles (S m) s w = let '(s1, w1) := cycles m s w in done s1 w1.
Proof.
  induction m as [|m IH]; intros s w.
  - cbn. unfold bind, ret. destruct (done s w); reflexivity.
  - change (cycles (S (S m)) s w)
      with (let '(s1, w1) := done s w in cycles (S m) s1 w1).
    destruct (done s w) as [s1 w1] eqn:E. rewrite IH.
    cbn [cycles]. unfold bind. rewrite E. reflexivity.
Qed.

Lemma cycles_progress p ls j :
  0 <= TweenProps.pingpong p ->
  forall s w, on_the_way p ls s ->
    progress s + Z.of_nat j < TweenProps.repeat p * boundaries p ->
    let r := cycles j s w in
    on_the_way p ls r.1 /\ progress r.1 = progress s + Z.of_nat j
    /\ calls r.2 = calls w
    /\ is_completed r.1 = (match j with O => is_completed s | S _ => false end).
Proof.
  intros HP. induction j as [|j IH]; intros s w Hs Hj; cbv zeta.
  - cbn [cycles]. unfold ret. cbn [fst snd Z.of_nat]. rewrite Z.add_0_r.
    split; [exact Hs | repeat split].
  - cbn [cycles]. unfold bind.
    pose proof (done_progress p ls s w HP Hs) as [Hstep _]. cbv zeta in Hstep.
    destruct (done s w) as [s1 w1]. cbn [fst snd] in Hstep.
    destruct Hstep as (Hs1 & Hp1 & Hc1 & Hw1); [lia|].
    specialize (IH s1 w1 Hs1). cbv zeta in IH.
    destruct IH as (Hs2 & Hp2 & Hw2 & Hc2); [lia|].
    repeat split; try apply Hs2; try lia; try congruence.
    rewrite Hc2. destruct j; [exact Hc1 | reflexivity].
Qed.

Lemma count_of_progress p ls s :
  0 <= TweenProps.pingpong p -> on_the_way p ls s ->
  count s = progress s / boundaries p.
Proof.
  intros HP (Hp & _ & Hc & Hpp). unfold progress, boundaries. rewrite Hp.
  destruct (Z.eqb_spec (TweenProps.pingpong p) 0) as [H0|H0].
  - rewrite Z.div_1_r. reflexivity.
  - destruct Hpp as [Hg Hd]; [lia|].
    apply Z.div_unique with
      (r := 2 * pingpong s + (if direction s =? 1 then 0 else 1)).
    + left. destruct (direction s =? 1); lia.
    + lia.
Qed.

(** C1, as the code has it: a tween whose repeat count is N > 0 (with a
    ping-pong count P >= 0) runs N cycles in all, so it restarts N - 1
    times after its first cycle; a cycle is one forward run or, with
    ping-pong, its P forward and reverse pairs.  No cycle boundary before
    the end of the N-th cycle completes the tween or calls a listener, the
    repeat counter after j boundaries is the number of whole cycles among
    them, and the end of the N-th cycle fires "update" and then "complete",
    once per listener, marks the tween completed and stops it.  With
    repeat=2 the tween runs two cycles, and "complete" fires after the
    second, not after the first. *)
Theorem repeat_cycles (s : Tween) (w : World) (n : nat) :
  0 <= TweenProps.pingpong (props s) ->
  TweenProps.repeat (props s) = Z.of_nat n -> (0 < n)%nat ->
  count s = 0 -> pingpong s = 0 -> direction s = 1 -> is_completed s = false ->
  let per_cycle := boundaries (props s) in
  let total := (n * Z.to_nat per_cycle)%nat in
  (forall j, (j < total)%nat ->
     is_completed (cycles j s w).1 = false
     /\ calls (cycles j s w).2 = calls w
     /\ count (cycles j s w).1 = Z.of_nat j / per_cycle) /\
  (is_completed (cycles total s w).1 = true
   /\ is_running (cycles total s w).1 = false
   /\ calls (cycles total s w).2
      = calls w
        ++ Events.trigger "update" (final_value (props s)) (events s)
        ++ Events.trigger "complete" (final_value (props s)) (events s)).
Proof.
  intros HP Hn Hpos Hc Hg Hd Hf per_cycle total.
  assert (HL : 0 < per_cycle).
  { unfold per_cycle, boundaries.
    destruct (Z.eqb_spec (TweenProps.pingpong (props s)) 0); lia. }
  assert (Hs : on_the_way (props s) (events s) s).
  { repeat split; try lia; left; exact Hd. }
  assert (H0 : progress s = 0).
  { unfold progress. rewrite Hc, Hg, Hd.
    destruct (TweenProps.pingpong (props s) =? 0); reflexivity. }
  assert (Ht : Z.of_nat total = TweenProps.repeat (props s) * per_cycle).
  { unfold total. rewrite Nat2Z.inj_mul, Z2Nat.id, Hn by lia. reflexivity. }
  split.
  - intros j Hj.
    pose proof (cycles_progress (props s) (events s) j HP s w Hs) as H.
    cbv zeta in H. destruct H as (Hs' & Hp' & Hw' & Hc'); [fold per_cycle; lia|].
    split; [|split].
    + rewrite Hc'. destruct j; [exact Hf | reflexivity].
    + exact Hw'.
    + rewrite (count_of_progress _ _ _ HP Hs'), Hp', H0. reflexivity.
  - destruct total as [|m] eqn:Em; [lia|].
    rewrite cycles_snoc.
    pose proof (cycles_progress (props s) (events s) m HP s w Hs) as H.
    cbv zeta in H. destruct H as (Hs' & Hp' & Hw' & _); [fold per_cycle; lia|].
    destruct (cycles m s w) as [s1 w1]. cbn [fst snd] in *.
    pose proof (done_progress (props s) (events s) s1 w1 HP Hs') as [_ Hlast].
    cbv zeta in Hlast. rewrite Hw' in Hlast.
    apply Hlast. fold per_cycle. lia.
Qed.

Lemma repeat_cycles_witness :
  let r := init (PInt 0) (PInt 100) (NFloat (f64 1)) "linear" 3 None (Some 7%nat) true 0
             (ticking 1000) in
  let q := init (PInt 0) (PInt 100) (NFloat (f64 1)) "linear" 2 None (Some 7%nat) true 2
             (ticking 1000) in
  (is_completed (cycles 2 r.1 r.2).1 = false /\
   is_completed (cycles 3 r.1 r.2).1 = true /\
   calls (cycles 3 r.1 r.2).2 = [(7%nat, PInt 100)]) /\
  (is_completed (cycles 7 q.1 q.2).1 = false /\
   count (cycles 7 q.1 q.2).1 = 1 /\
   is_completed (cycles 8 q.1 q.2).1 = true /\
   calls (cycles 8 q.1 q.2).2 = [(7%nat, PInt 0)]).
Proof.
  cbv zeta. split.
  - pose proof (repeat_cycles
                  (init (PInt 0) (PInt 100) (NFloat (f64 1)) "linear" 3 None (Some 7%nat)
                     true 0 (ticking 1000)).1
                  (init (PInt 0) (PInt 100) (NFloat (f64 1)) "linear" 3 None (Some 7%nat)
                     true 0 (ticking 1000)).2
                  3%nat ltac:(vm_compute; discriminate) eq_refl ltac:(lia)
                  eq_refl eq_refl eq_refl eq_refl) as H.
    cbv zeta in H. destruct H as [Hk (Hc & _ & Hw)].
    split; [apply (Hk 2%nat); vm_compute; lia|]. split; [exact Hc|].
    etransitivity; [exact Hw|]. vm_compute. reflexivity.
  - pose proof (repeat_cycles
                  (init (PInt 0) (PInt 100) (NFloat (f64 1)) "linear" 2 None (Some 7%nat)
                     true 2 (ticking 1000)).1
                  (init (PInt 0) (PInt 100) (NFloat (f64 1)) "linear" 2 None (Some 7%nat)
                     true 2 (ticking 1000)).2
                  2%nat ltac:(vm_compute; discriminate) eq_refl ltac:(lia)
                  eq_refl eq_refl eq_refl eq_refl) as H.
    cbv zeta in H. destruct H as [Hk (Hc & _ & Hw)].
    destruct (Hk 7%nat ltac:(vm_compute; lia)) as (H7 & _ & H7c).
    split; [exact H7|]. split; [etransitivity; [exact H7c|]; vm_compute; reflexivity|].
    split; [exact Hc|].
    etransitivity; [exact Hw|]. vm_compute. reflexivity.
Defined.

(** C1 fails as worded: Tween(0, 100, 1.0, 'linear', repeat=2) with a
    listener for "complete", the clock one second further at each reading,
    is restarted by its first update() and completed by its second: two
    cycles in all, and "complete" has fired before any third. *)
Lemma repeat_two_counterexample :
  let r := init (PInt 0) (PInt 100) (NFloat (f64 1)) "linear" 2 None (Some 7%nat) true 0
             (ticking 1000) in
  (is_completed (run ease_linear [OpUpdate] r.1 r.2).1 = false /\
   count (run ease_linear [OpUpdate] r.1 r.2).1 = 1) /\
  (is_completed (run ease_linear [OpUpdate; OpUpdate] r.1 r.2).1 = true /\
   count (run ease_linear [OpUpdate; OpUpdate] r.1 r.2).1 = 2 /\
   calls (run ease_linear [OpUpdate; OpUpdate] r.1 r.2).2 = [(7%nat, PInt 100)]).
Proof. vm_compute. repeat split; reflexivity. Qed.

(** *** C8: ping-pong *)

(** C8: for a tween configured with pingpong=1 that is going forward with
    its ping-pong counter at 0, the cycle boundary of the forward leg
    leaves the repeat counter as it is and turns the direction to reverse;
    and the cycle boundary of the reverse leg (of any tween with that
    configuration, direction and counter, whatever the updates in between
    did to its value and clock) sets the value to from_value, the
    ping-pong counter to 0 and the direction to forward. *)
Theorem pingpong_pair (s : Tween) (w : World) :
  TweenProps.pingpong (props s) = 1 -> direction s = 1 -> pingpong s = 0 ->
  let s1 := (done s w).1 in
  (count s1 = count s /\ direction s1 = -1 /\ pingpong s1 = 0
   /\ props s1 = props s) /\
  (forall s1' w1, same_control s1 s1' ->
     let s2 := (done s1' w1).1 in
     value s2 = TweenProps.from_value (props s)
     /\ pingpong s2 = 0 /\ direction s2 = 1).
Proof.
  intros Hp Hd Hc. cbv zeta.
  assert (H1 : done s w
               = restart (set_direction (-1)
                            (set_value (TweenProps.to_value (props s)) s)) w).
  { unfold done. cbn [props set_value direction]. rewrite Hp, Hd.
    change (negb (1 =? 0)) with true. change (1 =? 1) with true. cbv iota.
    unfold flip, bind, ret. cbn [direction set_value]. rewrite Hd. reflexivity. }
  rewrite H1.
  pose proof (restart_effect
                (set_direction (-1) (set_value (TweenProps.to_value (props s)) s)) w)
    as Hr.
  cbv zeta in Hr. destruct Hr as (_ & _ & _ & Hp1 & Hd1 & Hc1 & Hn1 & _).
  cbn [props direction pingpong count set_direction set_value] in Hp1, Hd1, Hc1, Hn1.
  split; [repeat split; congruence|].
  intros s1' w1 (Hp2 & Hd2 & Hc2 & Hn2).
  rewrite Hp1 in Hp2. rewrite Hd1 in Hd2. rewrite Hc1, Hc in Hc2.
  assert (H2 : exists s0 w0,
             done s1' w1 = handle_repeat s0 w0
             /\ value s0 = TweenProps.from_value (props s)
             /\ props s0 = props s /\ direction s0 = 1 /\ pingpong s0 = 0).
  { unfold done. cbn [props set_value direction pingpong set_pingpong].
    rewrite Hp2, Hp, Hd2, Hc2.
    change (negb (1 =? 0)) with true. change (-1 =? 1) with false.
    change ((0 + 1 <? 1) || (1 =? -1)) with false. cbv iota.
    unfold flip, bind, ret. cbn [direction set_direction set_value set_pingpong props].
    rewrite Hd2. eexists _, _. split; [reflexivity|].
    cbn. rewrite Hp2. repeat split. }
  destruct H2 as (s0 & w0 & -> & Hv0 & Hp0 & Hd0 & Hc0).
  unfold handle_repeat. cbn [props set_count].
  repeat match goal with
         | |- context [if ?c then _ else _] => destruct c
         end.
  all: first
    [ pose proof (complete_effect (set_count (count s0 + 1) s0) w0) as He;
      cbv zeta in He; destruct He as (_ & _ & _ & Hd' & Hc' & _ & Hv' & _);
      rewrite Hd', Hc', Hv'; cbn; rewrite Hv0, Hd0, Hc0; repeat split
    | pose proof (restart_effect (set_count (count s0 + 1) s0) w0) as He;
      cbv zeta in He; destruct He as (_ & _ & _ & Hp' & Hd' & Hc' & _ & _ & Hv' & _);
      rewrite Hd', Hc', Hv'; cbn; rewrite Hd0, Hc0, Hp0; repeat split ].
Qed.

Lemma pingpong_pair_witness :
  let r := init (PInt 0) (PInt 100) (NFloat (f64 1)) "linear" 1 None None true 1
             (ticking 400) in
  let s1 := (done r.1 r.2).1 in
  let s2 := (done s1 (done r.1 r.2).2).1 in
  (count s1 = 0 /\ direction s1 = -1) /\
  (value s2 = PInt 0 /\ pingpong s2 = 0 /\ direction s2 = 1).
Proof.
  cbv zeta.
  pose proof (pingpong_pair
                (init (PInt 0) (PInt 100) (NFloat (f64 1)) "linear" 1 None None true 1
                   (ticking 400)).1
                (init (PInt 0) (PInt 100) (NFloat (f64 1)) "linear" 1 None None true 1
                   (ticking 400)).2 eq_refl eq_refl eq_refl) as [(Hc & Hd & _) H2].
  split; [split; [exact Hc | exact Hd]|].
  apply H2. repeat split.
Defined.

(** The same pair end to end: Tween(0, 100, 1.0, 'linear', pingpong=1)
    updated every 400 ms goes 40, 80, 100, turns, goes 60, 19, and ends its
    reverse leg at 0, going forward, with the ping-pong counter at 0. *)
Example pingpong_run :
  let r := init (PInt 0) (PInt 100) (NFloat (f64 1)) "linear" 1 None None true 1
             (ticking 400) in
  let after k := (run ease_linear (repeat OpUpdate k) r.1 r.2).1 in
  map (fun k => (value (after k), direction (after k), pingpong (after k), count (after k)))
      [1; 2; 3; 4; 5; 6]%nat
  = [(PInt 40, 1, 0, 0); (PInt 80, 1, 0, 0); (PInt 100, -1, 0, 0);
     (PInt 60, -1, 0, 0); (PInt 19, -1, 0, 0); (PInt 0, 1, 0, 1)].
Proof. vm_compute. reflexivity. Qed.

End TweenFacts.

(** ** The collection *)
Module TweensFacts.
Import PyNum Lerp Tween Tweens.

Lemma stop_stopped s w : Tween.stop s w = (stopped s, w).
Proof. reflexivity. Qed.

Lemma stopped_effect s : is_running (stopped s) = false /\ events (stopped s) = ∅.
Proof. unfold stopped. destruct (is_running s) eqn:E; cbn; rewrite ?E; split; reflexivity. Qed.

Lemma stopped_idemp s : stopped (stopped s) = stopped s.
Proof. unfold stopped. destruct (is_running s) eqn:E; cbn; rewrite ?E; reflexivity. Qed.

Lemma call_stop r (h : heap) w :
  call Tween.stop r h w = (alter stopped r h, w).
Proof.
  unfold call. destruct (h !! r) as [s|] eqn:E.
  - unfold bind, ret. rewrite stop_stopped. f_equal.
    apply map_eq. intros i. destruct (decide (i = r)) as [->|Hne].
    + rewrite lookup_insert_eq, lookup_alter_eq, E. reflexivity.
    + rewrite lookup_insert_ne, lookup_alter_ne by congruence. reflexivity.
  - unfold ret. f_equal. apply map_eq. intros i.
    destruct (decide (i = r)) as [->|Hne].
    + rewrite lookup_alter_eq, E. reflexivity.
    + rewrite lookup_alter_ne by congruence. reflexivity.
Qed.

Lemma pop_snoc l x : pop (l ++ [x]) = Some (l, x).
Proof.
  induction l as [|y l IH]; [reflexivity|].
  cbn [app pop]. rewrite IH. reflexivity.
Qed.

Lemma stop_loop_spec l :
  forall fuel (h : heap) w, (length l < fuel)%nat ->
  exists h' : heap,
    stop_loop fuel {| tweens := l |} h w = (Some ({| tweens := [] |}, h'), w)
    /\ forall r, h' !! r = if decide (r ∈ l) then stopped <$> h !! r else h !! r.
Proof.
  induction l as [|x l IH] using rev_ind; intros fuel h w Hf.
  - destruct fuel; [cbn in Hf; lia|]. exists h. split; [reflexivity|].
    intros r. destruct (decide (r ∈ [])) as [Hin|_]; [|reflexivity].
    apply elem_of_nil in Hin. destruct Hin.
  - rewrite length_app in Hf. cbn in Hf.
    destruct fuel as [|fuel]; [lia|]. cbn [stop_loop tweens].
    rewrite length_app. cbn [length].
    destruct (Nat.ltb_spec 0 (length l + 1)); [|lia].
    rewrite pop_snoc. unfold bind. rewrite call_stop.
    destruct (IH fuel (alter stopped x h) w) as (h' & -> & Hh'); [lia|].
    exists h'. split; [reflexivity|]. intros r. rewrite Hh'.
    destruct (decide (r = x)) as [->|Hne].
    + rewrite lookup_alter_eq.
      destruct (decide (x ∈ l ++ [x])) as [_|Hn];
        [|exfalso; apply Hn, elem_of_app; right; apply list_elem_of_singleton; reflexivity].
      destruct (decide (x ∈ l)); [|reflexivity].
      destruct (h !! x) as [s|]; [|reflexivity]. cbn. rewrite stopped_idemp. reflexivity.
    + rewrite lookup_alter_ne by congruence.
      destruct (decide (r ∈ l)) as [Hin|Hin];
        destruct (decide (r ∈ l ++ [x])) as [Hin'|Hin']; try reflexivity; exfalso.
      * apply Hin', elem_of_app. left. exact Hin.
      * apply elem_of_app in Hin' as [H'|H']; [exact (Hin H')|].
        apply list_elem_of_singleton in H'. exact (Hne H').
Qed.

Lemma for_each_tweens method rs (h : heap) w self :
  tweens ((let* h := for_each method rs h in ret (self, h)) w).1.1 = tweens self.
Proof.
  unfold bind, ret. destruct (for_each method rs h w). reflexivity.
Qed.

(** C10: [stop()] returns with the collection empty and every tween it
    held stopped (not running, its listeners cleared), the other tween
    objects untouched; [reset()] is [stop()]; [pause()] and [unpause()]
    leave the collection's list as it was. *)
Theorem stop_empties (self : Tweens) (h : heap) (w : World) :
  (exists h' : heap,
     stop self h w = (Some ({| tweens := [] |}, h'), w)
     /\ forall r, h' !! r = if decide (r ∈ tweens self)
                           then stopped <$> h !! r else h !! r)
  /\ (forall s, is_running (stopped s) = false /\ events (stopped s) = ∅)
  /\ reset self h w = stop self h w
  /\ tweens (pause self h w).1.1 = tweens self
  /\ tweens (unpause self h w).1.1 = tweens self.
Proof.
  split; [|split; [|split; [|split]]].
  - unfold stop. destruct self as [l]. cbn [tweens].
    apply stop_loop_spec. lia.
  - apply stopped_effect.
  - reflexivity.
  - apply for_each_tweens.
  - apply for_each_tweens.
Qed.

(** Three tweens appended to a collection, then [stop()]: the collection
    is empty and each of the three objects is stopped. *)
Example stop_three :
  let w0 := ticking 16 in
  let '(c1, h1, r1, w1) := append (PInt 0) (PInt 50) (NFloat (f64 1)) "easeInQuad" 2 None 0
                             init ∅ w0 in
  let '(c2, h2, r2, w2) := append (PInt 0) (PInt 100) (NFloat (f64 1.5)) "easeOutQuad" 1
                             (Some 4%nat) 0 c1 h1 w1 in
  let '(c3, h3, r3, w3) := append (PFloat (f64 0)) (PFloat (f64 1)) (NInt 2) "linear" 1
                             None 1 c2 h2 w2 in
  length (tweens c3) = 3%nat /\
  match stop c3 h3 w3 with
  | (Some (c, h), _) =>
      tweens c = []
      /\ (is_running <$> h !! r1) = Some false
      /\ (is_running <$> h !! r2) = Some false
      /\ (is_running <$> h !! r3) = Some false
      /\ (events <$> h !! r2) = Some ∅
  | _ => False
  end.
Proof. vm_compute. repeat split; reflexivity. Qed.

End TweensFacts.

(** ** The group relay *)
Module TweenGroupFacts.
Import TweenGroup.

Ltac sets :=
  apply set_eq; intros ?;
  rewrite ?elem_of_union, ?elem_of_list_to_set, ?elem_of_cons, ?elem_of_singleton,
    ?elem_of_union, ?elem_of_nil, ?elem_of_empty;
  tauto.

Ltac same_size :=
  match goal with
  | |- bool_decide (size ?A = _) = bool_decide (size ?B = _) =>
      replace A with B by sets; reflexivity
  end.

Lemma size_list_to_set_le (l : list Z) :
  (size (list_to_set l : gset Z) <= length l)%nat.
Proof.
  induction l as [|x l IH]; cbn [list_to_set length].
  - rewrite size_empty. lia.
  - rewrite size_union_alt, size_singleton.
    pose proof (subseteq_size (list_to_set l ∖ {[x]}) (list_to_set l : gset Z)
                  (subseteq_difference_l _ _ _ (reflexivity _))).
    lia.
Qed.

Lemma relay_spec n keys :
  forall fired : gset Z,
    (relay n keys fired).1 = list_to_set keys ∪ fired
    /\ (relay n keys fired).2
       = map (fun i => bool_decide (size (list_to_set (take (S i) keys) ∪ fired) = n))
             (seq 0 (length keys)).
Proof.
  induction keys as [|key keys IH]; intros fired.
  - cbn. split; [sets | reflexivity].
  - cbn [relay on_tween_fire].
    destruct (IH ({[key]} ∪ fired)) as [H1 H2].
    destruct (relay n keys ({[key]} ∪ fired)) as [final rest].
    cbn [fst snd] in *. subst final rest. split.
    + cbn [list_to_set]. sets.
    + cbn [length seq map]. f_equal.
      * change (take 1 (key :: keys)) with [key]. cbn [list_to_set]. same_size.
      * rewrite <- seq_shift, map_map. apply map_ext. intros i.
        change (take (S (S i)) (key :: keys)) with (key :: take (S i) keys).
        cbn [list_to_set]. same_size.
Qed.

Lemma relay_same_key n k :
  n <> 1%nat ->
  forall m (fired : gset Z), fired = ∅ \/ fired = {[k]} ->
    (relay n (replicate m k) fired).2 = replicate m false.
Proof.
  intros Hn. induction m as [|m IH]; intros fired Hf; [reflexivity|].
  cbn [replicate relay on_tween_fire].
  assert (E : {[k]} ∪ fired = ({[k]} : gset Z)) by (destruct Hf as [-> | ->]; sets).
  rewrite E. specialize (IH {[k]} (or_intror eq_refl)).
  destruct (relay n (replicate m k) {[k]}) as [final rest]. cbn [snd] in *.
  rewrite IH, size_singleton. f_equal.
  apply bool_decide_eq_false. congruence.
Qed.

Lemma relay_distinct_keys n keys :
  NoDup keys ->
  (relay n keys ∅).2 = map (fun i => bool_decide (S i = n)) (seq 0 (length keys)).
Proof.
  intros Hnd. rewrite (proj2 (relay_spec n keys ∅)).
  apply map_ext_in. intros i Hi. apply in_seq in Hi.
  replace (list_to_set (take (S i) keys) ∪ ∅) with (list_to_set (take (S i) keys) : gset Z)
    by sets.
  rewrite size_list_to_set by (eapply sublist_NoDup; [exact Hnd|apply sublist_take]).
  rewrite length_take. replace (S i `min` length keys)%nat with (S i) by lia.
  reflexivity.
Qed.

(** C2 against the code: what the relay does depends on the identities
    of the argument tuples alone, not on which tweens fired.  When every
    call gets the same identity (what the runtime hands out when the tuple
    of the last call has been freed), the set never grows past one
    element and the group callback of a group of N <> 1 tweens is never
    called, however many of the tweens fire; when all identities differ,
    the callback is called at the N-th call of the relay and at no other,
    whichever tweens made the calls (one tween firing N times will do).
    The docstring of [on] has the callback called "when all tweens have
    fired". *)
Theorem relay_ignores_tweens (n m : nat) (k : Z) (keys : list Z) :
  (n <> 1%nat -> (relay n (replicate m k) ∅).2 = replicate m false)
  /\ (NoDup keys ->
      (relay n keys ∅).2 = map (fun i => bool_decide (S i = n)) (seq 0 (length keys))).
Proof.
  split.
  - intros Hn. apply relay_same_key; [exact Hn|left; reflexivity].
  - apply relay_distinct_keys.
Qed.

(** Two tweens A and B that fire an event in two rounds, A, B, A, B: with
    one identity for all four argument tuples the group callback is never
    called; with four identities it is called at the second call and not
    at the fourth; and it is called at the second call just as well when
    it was A that fired twice. *)
Example relay_two_tweens :
  (relay 2 [7; 7; 7; 7] ∅).2 = [false; false; false; false]
  /\ (relay 2 [1; 2; 3; 4] ∅).2 = [false; true; false; false]
  /\ (relay 2 [7; 7] ∅).2 = [false; false]
  /\ (relay 2 [7; 8] ∅).2 = [false; true].
Proof. repeat split; vm_compute; reflexivity. Qed.

(** C2 fails whatever identities the runtime hands out: in a group of two
    tweens that both fire an event twice (A, B, A, B), the specification
    has the group callback called at the second and at the fourth call;
    the relay of the code never does that.  If it is called at the second
    call its set then holds two identities and is never cleared, so the
    third call finds two again (and calls the callback before B has fired)
    or makes it three for good (and the callback is never called again). *)
Lemma relay_two_rounds_counterexample :
  spec_relay 2 [0; 1; 0; 1]%nat ∅ = [false; true; false; true] /\
  ~ exists k1 k2 k3 k4 : Z,
      (relay 2 [k1; k2; k3; k4] ∅).2 = spec_relay 2 [0; 1; 0; 1]%nat ∅.
Proof.
  assert (Hs : spec_relay 2 [0; 1; 0; 1]%nat ∅ = [false; true; false; true])
    by (vm_compute; reflexivity).
  split; [exact Hs|]. rewrite Hs. intros (k1 & k2 & k3 & k4 & H).
  set (S2 := {[k2]} ∪ ({[k1]} ∪ (∅ : gset Z))).
  assert (E : (relay 2 [k1; k2; k3; k4] ∅).2
              = [bool_decide (size ({[k1]} ∪ (∅ : gset Z)) = 2%nat);
                 bool_decide (size S2 = 2%nat);
                 bool_decide (size ({[k3]} ∪ S2) = 2%nat);
                 bool_decide (size ({[k4]} ∪ ({[k3]} ∪ S2)) = 2%nat)])
    by reflexivity.
  rewrite E in H. clear E.
  pose proof (f_equal (fun l => nth 1 l false) H) as H2.
  pose proof (f_equal (fun l => nth 2 l true) H) as H3.
  pose proof (f_equal (fun l => nth 3 l false) H) as H4.
  cbn [nth] in H2, H3, H4. clear H.
  apply bool_decide_eq_true in H2, H4. apply bool_decide_eq_false in H3.
  pose proof (subseteq_size S2 ({[k3]} ∪ S2) (union_subseteq_r _ _)) as S23.
  pose proof (subseteq_size ({[k3]} ∪ S2) ({[k4]} ∪ ({[k3]} ∪ S2))
                (union_subseteq_r _ _)) as S34.
  lia.
Qed.

End TweenGroupFacts.

(** ** The notification mechanism in full *)
Module EmitterFacts.
Import Lerp Emitter.

Section RegistryFacts.
Context {A : Type} `{EqDecision A}.

Lemma remove_fresh (x : A) (kept rest : list A) :
  x ∉ kept -> remove x (kept ++ x :: rest) = Some (kept ++ rest).
Proof.
  induction kept as [|y kept IH]; intros Hx; cbn.
  - destruct (decide (x = x)); congruence.
  - apply not_elem_of_cons in Hx as [Hxy Hx].
    destruct (decide (y = x)); [congruence|].
    rewrite IH by exact Hx. reflexivity.
Qed.

Lemma remove_absent (x : A) (l : list A) : x ∉ l -> remove x l = None.
Proof.
  induction l as [|y l IH]; intros Hx; cbn; [reflexivity|].
  apply not_elem_of_cons in Hx as [Hxy Hx].
  destruct (decide (y = x)); [congruence|].
  rewrite IH by exact Hx. reflexivity.
Qed.

Lemma remove_present (x : A) (l : list A) :
  x ∈ l -> exists kept rest, l = kept ++ x :: rest /\ x ∉ kept.
Proof.
  induction l as [|y l IH]; intros Hx.
  - apply elem_of_nil in Hx as [].
  - destruct (decide (y = x)) as [->|Hne].
    + exists [], l. split; [reflexivity|]. apply not_elem_of_nil.
    + apply elem_of_cons in Hx as [Hx|Hx]; [congruence|].
      destruct (IH Hx) as (kept & rest & -> & Hk).
      exists (y :: kept), rest. split; [reflexivity|].
      apply not_elem_of_cons. split; [congruence|exact Hk].
Qed.

Lemma off_on (event_name : string) (f : A) (ls : gmap string (list A)) :
  ls !! event_name <> Some [] ->
  f ∉ default [] (ls !! event_name) ->
  off (Some event_name) (Some f) (on event_name (Some f) ls) = ls.
Proof.
  intros Hne Hf. unfold off, on.
  rewrite lookup_insert_eq.
  rewrite <- (app_nil_r (default [] (ls !! event_name) ++ [f])) at 1.
  rewrite <- app_assoc. cbn [app].
  rewrite remove_fresh by exact Hf. rewrite app_nil_r.
  destruct (ls !! event_name) as [l|] eqn:E; cbn [default from_option Datatypes.id].
  - destruct l as [|y l]; [congruence|]. cbn [length Nat.eqb].
    rewrite insert_insert_eq. apply insert_id. exact E.
  - cbn. rewrite delete_insert_eq. apply delete_id. exact E.
Qed.

End RegistryFacts.

Lemma closure_ids_app (a b : list callable) :
  closure_ids (a ++ b) = closure_ids a ++ closure_ids b.
Proof.
  induction a as [|[f|c cb] a IH]; cbn; [reflexivity|exact IH|].
  rewrite IH. reflexivity.
Qed.

Lemma closure_ids_elem (c : nat) (cb : option nat) (l : list callable) :
  OnceCallback c cb ∈ l -> c ∈ closure_ids l.
Proof.
  induction l as [|[f|c' cb'] l IH]; intros Hin.
  - apply elem_of_nil in Hin as [].
  - apply elem_of_cons in Hin as [Hin|Hin]; [discriminate|]. cbn. auto.
  - cbn. apply elem_of_cons in Hin as [Hin|Hin].
    + injection Hin as -> _. apply list_elem_of_here.
    + apply list_elem_of_further. auto.
Qed.

Lemma closure_fresh (c : nat) (cb : option nat) (kept rest : list callable) :
  NoDup (closure_ids (kept ++ OnceCallback c cb :: rest)) ->
  (OnceCallback c cb ∉ kept) /\ NoDup (closure_ids (kept ++ rest)).
Proof.
  rewrite !closure_ids_app. cbn [closure_ids]. intros Hnd.
  apply NoDup_app in Hnd as (Hk & Hdisj & Hr).
  apply NoDup_cons in Hr as [Hc Hr]. split.
  - intros Hin. apply closure_ids_elem in Hin.
    apply (Hdisj c Hin). apply list_elem_of_here.
  - apply NoDup_app. split; [exact Hk|]. split; [|exact Hr].
    intros x Hx Hx'. apply (Hdisj x Hx). apply list_elem_of_further. exact Hx'.
Qed.

Lemma store_store (name : string) (l l' : list callable) (ls : listeners) :
  store name l (store name l' ls) = store name l ls.
Proof.
  destruct l, l'; cbn.
  - apply delete_delete_eq.
  - apply delete_insert_eq.
  - apply insert_delete_eq.
  - apply insert_insert_eq.
Qed.

Lemma store_id (name : string) (l : list callable) (ls : listeners) :
  l <> [] -> ls !! name = Some l -> store name l ls = ls.
Proof.
  intros Hne E. destruct l; [congruence|]. cbn. apply insert_id. exact E.
Qed.

Lemma lookup_store (name : string) (l : list callable) (ls : listeners) :
  default [] (store name l ls !! name) = l.
Proof.
  destruct l; cbn.
  - rewrite lookup_delete_eq. reflexivity.
  - rewrite lookup_insert_eq. reflexivity.
Qed.

Lemma off_closure (name : string) (x : callable) (kept rest : list callable)
    (ls : listeners) :
  ls !! name = Some (kept ++ x :: rest) -> x ∉ kept ->
  off (Some name) (Some x) ls = store name (kept ++ rest) ls.
Proof.
  intros E Hx. unfold off. rewrite E, remove_fresh by exact Hx.
  destruct (kept ++ rest); reflexivity.
Qed.

Lemma fire_sweep (name : string) (arg : pyval) (n : nat) :
  forall (rest kept : list callable) (ls : listeners) (fuel : nat),
    (length rest <= n)%nat -> (length rest < fuel)%nat ->
    ls !! name = Some (kept ++ rest) -> kept ++ rest <> [] ->
    NoDup (closure_ids (kept ++ rest)) ->
    fire fuel name arg (length kept) ls =
      let '(cs, r, ok) := sweep rest in
      Some (store name (kept ++ r) ls, map (fun f => (f, arg)) cs, ok).
Proof.
  induction n as [|n IH]; intros rest kept ls fuel Hn Hfuel E Hne Hnd.
  - destruct rest; [|cbn in Hn; lia].
    destruct fuel as [|fuel]; [cbn in Hfuel; lia|].
    rewrite app_nil_r in E, Hne.
    cbn [fire sweep]. rewrite E, app_nil_r. cbn [default from_option Datatypes.id].
    rewrite lookup_ge_None_2 by lia.
    rewrite store_id; [reflexivity|exact Hne|exact E].
  - destruct fuel as [|fuel]; [lia|].
    destruct rest as [|[f|c [f|]] rest].
    + rewrite app_nil_r in E, Hne.
      cbn [fire sweep]. rewrite E, app_nil_r. cbn [default from_option Datatypes.id].
      rewrite lookup_ge_None_2 by lia.
      rewrite store_id; [reflexivity|exact Hne|exact E].
    + cbn [fire]. rewrite E. cbn [default from_option Datatypes.id].
      rewrite list_lookup_middle by reflexivity.
      cbn [length] in Hn, Hfuel.
      assert (E' : ls !! name = Some ((kept ++ [Plain f]) ++ rest))
        by (rewrite <- app_assoc; exact E).
      assert (Hne' : (kept ++ [Plain f]) ++ rest <> [])
        by (rewrite <- app_assoc; exact Hne).
      assert (Hnd' : NoDup (closure_ids ((kept ++ [Plain f]) ++ rest)))
        by (rewrite <- app_assoc; exact Hnd).
      pose proof (IH rest (kept ++ [Plain f]) ls fuel ltac:(lia) ltac:(lia) E' Hne' Hnd')
        as Hrec.
      rewrite length_app in Hrec. cbn [length] in Hrec.
      rewrite Nat.add_1_r in Hrec. rewrite Hrec.
      cbn [sweep]. destruct (sweep rest) as [[cs r] ok].
      rewrite <- app_assoc. reflexivity.
    + cbn [fire]. rewrite E. cbn [default from_option Datatypes.id].
      rewrite list_lookup_middle by reflexivity.
      destruct (closure_fresh _ _ _ _ Hnd) as [Hfresh Hnd1].
      rewrite (off_closure _ _ _ _ _ E Hfresh).
      cbn [length] in Hn, Hfuel.
      destruct rest as [|g rest].
      * destruct fuel as [|fuel]; [lia|].
        cbn [fire sweep]. rewrite lookup_store.
        rewrite lookup_ge_None_2 by (rewrite app_nil_r; lia).
        reflexivity.
      * cbn [length] in Hn, Hfuel.
        set (ls1 := store name (kept ++ g :: rest) ls).
        assert (E' : ls1 !! name = Some ((kept ++ [g]) ++ rest)).
        { unfold ls1. rewrite <- app_assoc. cbn [app].
          destruct (kept ++ g :: rest) eqn:El.
          - destruct kept; discriminate.
          - cbn. apply lookup_insert_eq. }
        assert (Hne' : (kept ++ [g]) ++ rest <> [])
          by (destruct kept; discriminate).
        assert (Hnd' : NoDup (closure_ids ((kept ++ [g]) ++ rest)))
          by (rewrite <- app_assoc; exact Hnd1).
        pose proof (IH rest (kept ++ [g]) ls1 fuel ltac:(lia) ltac:(lia) E' Hne' Hnd')
          as Hrec.
        rewrite length_app in Hrec. cbn [length] in Hrec.
        rewrite Nat.add_1_r in Hrec. rewrite Hrec.
        cbn [sweep]. destruct (sweep rest) as [[cs r] ok].
        unfold ls1. rewrite store_store, <- app_assoc. reflexivity.
    + cbn [fire]. rewrite E. cbn [default from_option Datatypes.id].
      rewrite list_lookup_middle by reflexivity.
      destruct (closure_fresh _ _ _ _ Hnd) as [Hfresh Hnd1].
      rewrite (off_closure _ _ _ _ _ E Hfresh).
      reflexivity.
Qed.

Lemma sweep_plain (pre rest : list callable) :
  all_plain pre = true ->
  sweep (pre ++ rest) =
    (functions pre ++ (sweep rest).1.1, pre ++ (sweep rest).1.2, (sweep rest).2).
Proof.
  induction pre as [|[f|c cb] pre IH]; cbn [all_plain forallb]; intros Hp.
  - cbn. destruct (sweep rest) as [[cs r] ok]. reflexivity.
  - cbn [app sweep]. rewrite (IH Hp). reflexivity.
  - discriminate.
Qed.

Lemma closure_ids_plain (l : list callable) :
  all_plain l = true -> closure_ids l = [].
Proof.
  induction l as [|[f|c cb] l IH]; cbn [all_plain forallb closure_ids]; intros Hp.
  - reflexivity.
  - exact (IH Hp).
  - discriminate.
Qed.

Lemma trigger_spec (name : string) (arg : pyval) (l : list callable) (ls : listeners) :
  l <> [] -> NoDup (closure_ids l) -> ls !! name = Some l ->
  trigger name arg ls =
    Some (store name (sweep l).1.2 ls, map (fun f => (f, arg)) (sweep l).1.1, (sweep l).2).
Proof.
  intros Hne Hnd E. unfold trigger. rewrite E.
  pose proof (fire_sweep name arg (length l) l [] ls (S (length l))
                ltac:(lia) ltac:(lia) E Hne Hnd) as Hf.
  cbn [length app] in Hf. rewrite Hf.
  destruct (sweep l) as [[cs r] ok]. reflexivity.
Qed.

Lemma closure_ids_sublist (l' l : list callable) :
  l' `sublist_of` l -> closure_ids l' `sublist_of` closure_ids l.
Proof.
  induction 1 as [|x l1 l2 _ IH|x l1 l2 _ IH].
  - constructor.
  - destruct x; cbn; [exact IH|]. constructor. exact IH.
  - destruct x; cbn; [exact IH|]. constructor. exact IH.
Qed.

Lemma remove_sublist {A : Type} `{EqDecision A} (x : A) (l l' : list A) :
  remove x l = Some l' -> l' `sublist_of` l.
Proof.
  revert l'. induction l as [|y l IH]; intros l'; cbn; [discriminate|].
  destruct (decide (y = x)).
  - intros [= <-]. constructor. reflexivity.
  - destruct (remove x l) as [l0|]; cbn; [|discriminate].
    intros [= <-]. constructor. apply IH. reflexivity.
Qed.

Lemma sweep_sublist (n : nat) :
  forall l, (length l <= n)%nat -> (sweep l).1.2 `sublist_of` l.
Proof.
  induction n as [|n IH]; intros l Hn.
  - destruct l; [constructor|cbn in Hn; lia].
  - destruct l as [|[f|c [f|]] l]; cbn [length] in Hn.
    + constructor.
    + cbn [sweep]. specialize (IH l ltac:(lia)).
      destruct (sweep l) as [[cs r] ok]. cbn in *. constructor. exact IH.
    + destruct l as [|g l]; cbn [sweep length] in *.
      * cbn. constructor. constructor.
      * specialize (IH l ltac:(lia)).
        destruct (sweep l) as [[cs r] ok]. cbn in *.
        constructor. constructor. exact IH.
    + cbn. constructor. reflexivity.
Qed.

Lemma sublist_all {A : Type} (P : A -> Prop) (l' l : list A) :
  l' `sublist_of` l -> Forall P l -> Forall P l'.
Proof.
  induction 1 as [|x l1 l2 _ IH|x l1 l2 _ IH]; intros Hl.
  - constructor.
  - apply Forall_cons in Hl as [Hx Hl]. constructor; auto.
  - apply Forall_cons in Hl as [Hx Hl]. auto.
Qed.

Lemma sound_store (name : string) (l l' : list callable) (ls : listeners) (made : nat) :
  sound (ls, made) -> ls !! name = Some l -> l' `sublist_of` l ->
  sound (store name l' ls, made).
Proof.
  intros Hs E Hsub name' l0. cbn [fst snd].
  destruct (decide (name' = name)) as [->|Hne].
  - destruct l' as [|x l']; cbn [store].
    + rewrite lookup_delete_eq. discriminate.
    + rewrite lookup_insert_eq. intros [= <-].
      destruct (Hs name l E) as (_ & Hnd & Hlt). cbn [fst snd] in *.
      pose proof (closure_ids_sublist _ _ Hsub) as Hids.
      split; [discriminate|]. split.
      * exact (sublist_NoDup _ _ Hnd Hids).
      * exact (sublist_all _ _ _ Hids Hlt).
  - intros E0. apply (Hs name' l0). cbn [fst].
    destruct l'; cbn [store] in E0.
    + rewrite lookup_delete_ne in E0 by congruence. exact E0.
    + rewrite lookup_insert_ne in E0 by congruence. exact E0.
Qed.

Lemma sound_on (name : string) (x : callable) (ls : listeners) (made made' : nat) :
  sound (ls, made) -> (made <= made')%nat ->
  NoDup (closure_ids (default [] (ls !! name) ++ [x])) ->
  Forall (fun c => (c < made')%nat) (closure_ids [x]) ->
  sound (on name (Some x) ls, made').
Proof.
  intros Hs Hle Hnd Hx name' l0. cbn [fst snd on].
  destruct (decide (name' = name)) as [->|Hne].
  - rewrite lookup_insert_eq. intros [= <-].
    split; [destruct (default [] (ls !! name)); discriminate|].
    split; [exact Hnd|].
    rewrite closure_ids_app. apply Forall_app. split; [|exact Hx].
    destruct (ls !! name) as [l|] eqn:E; cbn [default from_option Datatypes.id].
    + destruct (Hs name l E) as (_ & _ & Hlt). cbn [snd] in Hlt.
      eapply Forall_impl; [exact Hlt|]. cbn. intros; lia.
    + constructor.
  - rewrite lookup_insert_ne by congruence. intros E0.
    destruct (Hs name' l0 E0) as (H1 & H2 & H3). cbn [snd] in H3.
    split; [exact H1|]. split; [exact H2|].
    eapply Forall_impl; [exact H3|]. cbn. intros; lia.
Qed.

Lemma sound_step (o : op) (st : listeners * nat) :
  sound st -> exists st', step o st = Some st' /\ sound st'.
Proof.
  destruct st as [ls made]. intros Hs.
  assert (Hids : forall name, NoDup (closure_ids (default [] (ls !! name)))
                 /\ Forall (fun c => (c < made)%nat) (closure_ids (default [] (ls !! name)))).
  { intros name. destruct (ls !! name) as [l|] eqn:E; cbn [default from_option Datatypes.id].
    - destruct (Hs name l E) as (_ & H2 & H3). split; assumption.
    - split; constructor. }
  destruct o as [name [f|]|name cb|[name|] cb|name arg|]; cbn [step option_map].
  - eexists. split; [reflexivity|].
    apply (sound_on name (Plain f) ls made); [exact Hs|lia| |constructor].
    rewrite closure_ids_app, app_nil_r. apply Hids.
  - eexists. split; [reflexivity|]. exact Hs.
  - eexists. split; [reflexivity|]. unfold once.
    destruct (Hids name) as [Hnd Hlt].
    apply (sound_on name _ ls made); [exact Hs|lia| |repeat constructor].
    rewrite closure_ids_app. cbn [closure_ids]. apply NoDup_app.
    split; [exact Hnd|]. split; [|apply NoDup_singleton].
    intros c Hc Hc'. apply list_elem_of_singleton in Hc' as ->.
    rewrite Forall_forall in Hlt. specialize (Hlt _ Hc). lia.
  - eexists. split; [reflexivity|]. unfold off.
    destruct (ls !! name) as [l|] eqn:E; [|exact Hs].
    destruct cb as [f|]; cbn [option_map].
    + destruct (remove (Plain f) l) as [l'|] eqn:Er.
      * change (if (length l' =? 0)%nat then delete name ls else <[name:=l']> ls)
          with (if (length l' =? 0)%nat then store name [] ls else <[name:=l']> ls).
        replace (if (length l' =? 0)%nat then store name [] ls else <[name:=l']> ls)
          with (store name l' ls) by (destruct l'; reflexivity).
        apply (sound_store name l); [exact Hs|exact E|].
        apply (remove_sublist _ _ _ Er).
      * replace (if (length l =? 0)%nat then delete name ls else <[name:=l]> ls)
          with (store name l ls) by (destruct l; reflexivity).
        apply (sound_store name l); [exact Hs|exact E|reflexivity].
    + apply (sound_store name l _ _ _ Hs E (sublist_nil_l l)).
  - eexists. split; [reflexivity|]. intros name l. cbn [fst off].
    rewrite lookup_empty. discriminate.
  - destruct (ls !! name) as [l|] eqn:E.
    + destruct (Hs name l E) as (Hne & Hnd & _).
      rewrite (trigger_spec name arg l ls Hne Hnd E).
      eexists. split; [reflexivity|].
      apply (sound_store name l); [exact Hs|exact E|].
      apply (sweep_sublist (length l)). lia.
    + unfold trigger. rewrite E. eexists. split; [reflexivity|exact Hs].
  - eexists. split; [reflexivity|]. intros name l. cbn [fst]. unfold reset.
    rewrite lookup_empty. discriminate.
Qed.

Lemma sound_run (ops : list op) :
  forall st, sound st -> exists st', run ops st = Some st' /\ sound st'.
Proof.
  induction ops as [|o ops IH]; intros st Hs; cbn [run].
  - exists st. split; [reflexivity|exact Hs].
  - destruct (sound_step o st Hs) as (st' & -> & Hs'). exact (IH st' Hs').
Qed.

Lemma sound_well_formed (st : listeners * nat) : sound st -> well_formed st.1.
Proof.
  intros Hs name l E. destruct (Hs name l E) as (H1 & H2 & _). split; assumption.
Qed.

Lemma observers_lookup (name : string) (ls : Events.listeners) :
  observers ls !! name = map Plain <$> (ls !! name).
Proof. unfold observers. apply lookup_fmap. Qed.

Lemma all_plain_map (l : list nat) : all_plain (map Plain l) = true.
Proof. induction l; cbn; auto. Qed.

Lemma functions_map (l : list nat) : functions (map Plain l) = l.
Proof.
  unfold functions. induction l as [|f l IH]; [reflexivity|].
  cbn [map flat_map app]. rewrite IH. reflexivity.
Qed.

Lemma sweep_all_plain (l : list callable) :
  all_plain l = true -> sweep l = (functions l, l, true).
Proof.
  intros Hp. pose proof (sweep_plain l [] Hp) as Hs.
  rewrite !app_nil_r in Hs. exact Hs.
Qed.

Lemma trigger_all_plain (name : string) (arg : pyval) (l : list callable) (ls : listeners) :
  all_plain l = true -> ls !! name = Some l ->
  trigger name arg ls = Some (ls, map (fun f => (f, arg)) (functions l), true).
Proof.
  intros Hp E. destruct l as [|x l].
  - unfold trigger. rewrite E. cbn. rewrite E. reflexivity.
  - rewrite (trigger_spec name arg (x :: l) ls); [|discriminate| |exact E].
    + rewrite (sweep_all_plain _ Hp). cbn [fst snd].
      rewrite store_id; [reflexivity|discriminate|exact E].
    + rewrite (closure_ids_plain _ Hp). constructor.
Qed.

(** X1: over any run of [on], [once], [off], [trigger] and [reset] from
    the empty registry, every call returns (the loop of [fire] ends), no
    event is left in the dict with an empty listener list, and no closure
    of [once] stands twice in a list. *)
Theorem run_well_formed (ops : list op) :
  exists ls made, run ops (reset, 0%nat) = Some (ls, made) /\ well_formed ls.
Proof.
  destruct (sound_run ops (reset, 0%nat)) as ([ls made] & E & Hs).
  - intros name l. cbn [fst]. unfold reset. rewrite lookup_empty. discriminate.
  - exists ls, made. split; [exact E|]. exact (sound_well_formed _ Hs).
Qed.

(** X2: [trigger] on a well-formed registry is one pass of [sweep] over
    the event's list: plain listeners are called in subscription order
    and stay; a closure of [once] is called and leaves the list, and the
    listener that stood behind it is stepped over, not called by this
    [trigger], and stays subscribed. *)
Theorem trigger_sweep (name : string) (arg : pyval) (l : list callable) (ls : listeners) :
  well_formed ls -> ls !! name = Some l ->
  trigger name arg ls =
    Some (store name (sweep l).1.2 ls, map (fun f => (f, arg)) (sweep l).1.1, (sweep l).2).
Proof.
  intros Hwf E. destruct (Hwf name l E) as [Hne Hnd].
  exact (trigger_spec name arg l ls Hne Hnd E).
Qed.

Lemma well_formed_singleton (name : string) (l : list callable) :
  l <> [] -> NoDup (closure_ids l) -> well_formed {[name := l]}.
Proof.
  intros Hne Hnd name' l' E. apply lookup_singleton_Some in E as [_ <-].
  split; assumption.
Qed.

Lemma trigger_sweep_witness :
  trigger "e" (PInt 7) {["e" := [OnceCallback 0 (Some 1%nat); Plain 2; Plain 3]]}
  = Some ({["e" := [Plain 2; Plain 3]]}, [(1%nat, PInt 7); (3%nat, PInt 7)], true).
Proof.
  rewrite (trigger_sweep "e" (PInt 7) [OnceCallback 0 (Some 1%nat); Plain 2; Plain 3]).
  - cbn [sweep fst snd store map]. rewrite insert_singleton_eq. reflexivity.
  - apply well_formed_singleton; [discriminate|].
    cbn. apply NoDup_singleton.
  - apply lookup_singleton_eq.
Defined.

(** X3: a listener subscribed right behind a closure of [once] is not
    called by the [trigger] that calls the closure: with plain listeners
    [pre] in front, the calls are those of [pre], the callback of the
    closure, and then what a pass over the listeners behind [g] calls;
    [g] itself is only moved up. *)
Theorem once_skips_next (name : string) (arg : pyval) (pre post : list callable)
    (c f : nat) (g : callable) (ls : listeners) :
  well_formed ls -> all_plain pre = true ->
  ls !! name = Some (pre ++ OnceCallback c (Some f) :: g :: post) ->
  trigger name arg ls =
    Some (store name (pre ++ g :: (sweep post).1.2) ls,
          map (fun f => (f, arg)) (functions pre ++ f :: (sweep post).1.1),
          (sweep post).2).
Proof.
  intros Hwf Hp E. destruct (Hwf _ _ E) as [Hne Hnd].
  rewrite (trigger_spec name arg _ ls Hne Hnd E).
  rewrite (sweep_plain pre _ Hp). cbn [sweep].
  destruct (sweep post) as [[cs r] ok]. reflexivity.
Qed.

Lemma once_skips_next_witness :
  trigger "e" (PInt 7) {["e" := [Plain 5; OnceCallback 0 (Some 1%nat); Plain 2]]}
  = Some ({["e" := [Plain 5; Plain 2]]}, [(5%nat, PInt 7); (1%nat, PInt 7)], true).
Proof.
  rewrite (once_skips_next "e" (PInt 7) [Plain 5] [] 0 1 (Plain 2)).
  - cbn [sweep fst snd store map functions flat_map app].
    rewrite insert_singleton_eq. reflexivity.
  - apply well_formed_singleton; [discriminate|].
    cbn. apply NoDup_singleton.
  - reflexivity.
  - apply lookup_singleton_eq.
Defined.

(** X4: for listeners that are observers, the registry of callables
    agrees with the registry of the tween model: subscribing commutes with
    the embedding, and [trigger] calls every listener of the event once,
    in subscription order, and leaves the registry as it was. *)
Theorem trigger_observers (name : string) (arg : pyval) (f : option nat)
    (ls : Events.listeners) :
  on name (option_map Plain f) (observers ls) = observers (Events.on name f ls)
  /\ trigger name arg (observers ls)
     = Some (observers ls, Events.trigger name arg ls, true).
Proof.
  split.
  - destruct f as [f|]; cbn [option_map on Events.on]; [|reflexivity].
    unfold observers. rewrite fmap_insert, lookup_fmap.
    destruct (ls !! name) as [l|]; cbn; [|reflexivity].
    rewrite map_app. reflexivity.
  - unfold Events.trigger.
    destruct (ls !! name) as [l|] eqn:E.
    + rewrite (trigger_all_plain name arg (map Plain l)).
      * rewrite functions_map. reflexivity.
      * apply all_plain_map.
      * rewrite observers_lookup, E. reflexivity.
    + unfold trigger. rewrite observers_lookup, E. reflexivity.
Qed.

Lemma off_absent {A : Type} `{EqDecision A} (event_name : string) (f : A)
    (ls : gmap string (list A)) :
  ls !! event_name <> Some [] ->
  f ∉ default [] (ls !! event_name) ->
  off (Some event_name) (Some f) ls = ls.
Proof.
  intros Hne Hf. unfold off.
  destruct (ls !! event_name) as [l|] eqn:E; [|reflexivity].
  cbn [default from_option Datatypes.id] in Hf.
  rewrite (remove_absent f l Hf).
  destruct l as [|y l]; [congruence|]. cbn [length Nat.eqb].
  apply insert_id. exact E.
Qed.

(** X5: [off(event_name, callback)] takes out one subscription of the
    callback, the earliest, and keeps the order of the others; the event
    leaves the dict when that was its last listener, and the lists of
    other events are not touched. *)
Theorem off_removes_first {A : Type} `{EqDecision A} (event_name : string) (f : A)
    (kept rest : list A) (ls : gmap string (list A)) :
  ls !! event_name = Some (kept ++ f :: rest) -> f ∉ kept ->
  off (Some event_name) (Some f) ls !! event_name
    = (if decide (kept ++ rest = []) then None else Some (kept ++ rest))
  /\ forall name, name <> event_name ->
       off (Some event_name) (Some f) ls !! name = ls !! name.
Proof.
  intros E Hf. unfold off. rewrite E, (remove_fresh f kept rest Hf).
  destruct (kept ++ rest) as [|y l] eqn:El; cbn [length Nat.eqb].
  - split.
    + rewrite lookup_delete_eq. destruct (decide ([] = [])); congruence.
    + intros name Hne. apply lookup_delete_ne. congruence.
  - split.
    + rewrite lookup_insert_eq. destruct (decide (y :: l = [])); congruence.
    + intros name Hne. apply lookup_insert_ne. congruence.
Qed.

Lemma off_removes_first_witness :
  off (Some "update") (Some 7%nat) {["update" := [3; 7; 5; 7]%nat]} !! "update"
  = Some [3; 5; 7]%nat.
Proof.
  destruct (off_removes_first "update" 7%nat [3%nat] [5; 7]%nat
              {["update" := [3; 7; 5; 7]%nat]}) as [H _].
  - apply lookup_singleton_eq.
  - apply not_elem_of_cons. split; [discriminate|apply not_elem_of_nil].
  - exact H.
Defined.

End EmitterFacts.

(** ** Subscribing to and unsubscribing from a tween *)
Module ListeningFacts.
Import Lerp Tween Listening.

Lemma set_events_id (s : Tween) : set_events (events s) s = s.
Proof. destruct s. reflexivity. Qed.

(** X6: on a tween whose registry holds no empty list, for a callback
    that is not subscribed to the event: [off] changes nothing (the
    ValueError of [list.remove] is swallowed), and [on] followed by [off]
    gives back the tween as it was. *)
Theorem off_undoes_on (event_name : string) (f : Events.callback) (s : Tween) :
  events s !! event_name <> Some [] ->
  f ∉ default [] (events s !! event_name) ->
  off (Some event_name) (Some f) s = s
  /\ off (Some event_name) (Some f) (on event_name (Some f) s) = s.
Proof.
  intros Hne Hf. unfold off, on. split.
  - rewrite (EmitterFacts.off_absent event_name f (events s) Hne Hf).
    apply set_events_id.
  - cbn [events set_events].
    change (Events.on event_name (Some f) (events s))
      with (Emitter.on event_name (Some f) (events s)).
    rewrite (EmitterFacts.off_on event_name f (events s) Hne Hf).
    destruct s. reflexivity.
Qed.

Lemma off_undoes_on_witness :
  let s := (init (PInt 0) (PInt 100) (PyNum.NFloat (PyNum.f64 1)) "linear" 1 (Some 1%nat) None
              true 0 (ticking 1000)).1 in
  off (Some "update") (Some 2%nat) (on "update" (Some 2%nat) s) = s.
Proof.
  cbv zeta.
  apply (off_undoes_on "update" 2%nat).
  - vm_compute. discriminate.
  - vm_compute. intros Hin. apply list_elem_of_singleton in Hin. discriminate.
Defined.

End ListeningFacts.

(** ** The range of the curves *)
Module EasingCalcFacts.
Import Easing.
Local Open Scope R_scope.

Ltac unfold_curves :=
  unfold normalized, _normalize_easing, Easing.easing_function,
    linear, ease_in_quad, ease_out_quad, ease_in_out_quad,
    ease_in_cubic, ease_out_cubic, ease_in_out_cubic,
    ease_in_quart, ease_out_quart, ease_in_out_quart,
    ease_in_quint, ease_out_quint, ease_in_out_quint,
    ease_in_sine, ease_out_sine, ease_in_out_sine,
    ease_in_expo, ease_out_expo, ease_in_out_expo,
    ease_in_circ, ease_out_circ, ease_in_out_circ,
    ease_in_elastic, ease_out_elastic, ease_in_out_elastic,
    period, amplitude_phase;
  cbv zeta beta iota.

Ltac split_cases :=
  repeat match goal with
         | |- context [Rlt_dec ?x ?y] => destruct (Rlt_dec x y)
         | |- context [Req_dec_T ?x ?y] => destruct (Req_dec_T x y)
         end.

Lemma powers_unit (x : R) :
  0 <= x <= 1 ->
  0 <= x * x <= 1 /\ 0 <= x * x * x <= 1 /\ 0 <= x * x * x * x <= 1
  /\ 0 <= x * x * x * x * x <= 1.
Proof.
  intros Hx.
  assert (H2 : 0 <= x * x <= 1) by nra.
  assert (H3 : 0 <= x * x * x <= 1) by nra.
  assert (H4 : 0 <= x * x * x * x <= 1) by nra.
  assert (H5 : 0 <= x * x * x * x * x <= 1) by nra.
  tauto.
Qed.

Lemma powers_back (x : R) :
  -1 <= x <= 0 ->
  0 <= x * x <= 1 /\ -1 <= x * x * x <= 0 /\ 0 <= x * x * x * x <= 1
  /\ -1 <= x * x * x * x * x <= 0.
Proof.
  intros Hx.
  destruct (powers_unit (- x) ltac:(lra)) as (H2 & H3 & H4 & H5).
  repeat split; nra.
Qed.

Lemma polynomial_range (k : curve) (t : R) :
  is_elastic k = false -> is_expo k = false ->
  match k with
  | EaseInSine | EaseOutSine | EaseInOutSine
  | EaseInCirc | EaseOutCirc | EaseInOutCirc => True
  | _ => 0 <= t <= 1 -> 0 <= normalized k t <= 1
  end.
Proof.
  destruct k; try discriminate; intros _ _; try exact I; intros Ht;
    unfold_curves; split_cases;
    pose proof (powers_unit t Ht) as Hu;
    try pose proof (powers_unit (t / (1 / 2)) ltac:(lra)) as Hh;
    try pose proof (powers_back (t / 1 - 1) ltac:(lra)) as Hb;
    try pose proof (powers_back (t / (1 / 2) - 2) ltac:(lra)) as Hb2;
    try pose proof (powers_unit (t / (1 / 2) - 1) ltac:(lra)) as Hu2;
    lra.
Qed.

Lemma pow2_unit (x : R) : x <= 0 -> 0 < Rpower 2 x <= 1.
Proof.
  intros Hx. split; [unfold Rpower; apply exp_pos|].
  destruct (Req_dec_T x 0) as [->|Hne].
  - rewrite Rpower_O by lra. lra.
  - rewrite <- (Rpower_O 2) by lra. left. apply Rpower_lt; lra.
Qed.

Lemma sqrt_unit (x : R) : 0 <= x <= 1 -> 0 <= sqrt x <= 1.
Proof.
  intros Hx. split; [apply sqrt_pos|].
  rewrite <- sqrt_1. apply sqrt_le_1_alt. lra.
Qed.

Lemma sine_range (t : R) :
  0 <= t <= 1 ->
  0 <= normalized EaseInSine t <= 1 /\ 0 <= normalized EaseOutSine t <= 1
  /\ 0 <= normalized EaseInOutSine t <= 1.
Proof.
  intros Ht. unfold_curves.
  pose proof PI_RGT_0 as Hpi.
  assert (Hx : 0 <= t / 1 * (PI / 2) <= PI / 2) by nra.
  pose proof (cos_ge_0 (t / 1 * (PI / 2)) ltac:(lra) ltac:(lra)) as Hc.
  pose proof (COS_bound (t / 1 * (PI / 2))) as Hc'.
  pose proof (sin_ge_0 (t / 1 * (PI / 2)) ltac:(lra) ltac:(lra)) as Hs.
  pose proof (SIN_bound (t / 1 * (PI / 2))) as Hs'.
  pose proof (COS_bound (PI * t / 1)) as Hc2.
  repeat split; lra.
Qed.

Lemma expo_range (t : R) :
  0 <= t <= 1 ->
  0 <= normalized EaseInExpo t <= 1 /\ 0 <= normalized EaseOutExpo t <= 1
  /\ 0 <= normalized EaseInOutExpo t <= 1.
Proof.
  intros Ht. unfold_curves.
  pose proof (pow2_unit (10 * (t / 1 - 1)) ltac:(lra)) as H1.
  pose proof (pow2_unit (-10 * t / 1) ltac:(lra)) as H2.
  split; [lra|]. split; [lra|].
  split_cases.
  - pose proof (pow2_unit (10 * (t / (1 / 2) - 1)) ltac:(lra)) as H3. lra.
  - pose proof (pow2_unit (-10 * (t / (1 / 2) - 1)) ltac:(lra)) as H3. lra.
Qed.

Lemma circ_range (t : R) :
  0 <= t <= 1 ->
  0 <= normalized EaseInCirc t <= 1 /\ 0 <= normalized EaseOutCirc t <= 1
  /\ 0 <= normalized EaseInOutCirc t <= 1.
Proof.
  intros Ht. unfold_curves.
  pose proof (sqrt_unit (1 - t / 1 * (t / 1)) ltac:(nra)) as H1.
  pose proof (sqrt_unit (1 - (t / 1 - 1) * (t / 1 - 1)) ltac:(nra)) as H2.
  split; [lra|]. split; [lra|].
  split_cases.
  - pose proof (sqrt_unit (1 - t / (1 / 2) * (t / (1 / 2))) ltac:(nra)) as H3. lra.
  - pose proof (sqrt_unit (1 - (t / (1 / 2) - 2) * (t / (1 / 2) - 2)) ltac:(nra)) as H3.
    lra.
Qed.

(** X11: a curve other than the elastic ones keeps the progress within
    [0, 1]: for a time [t] in [0, 1] its normalized value lies in
    [0, 1]. *)
Theorem curve_range (k : curve) (t : R) :
  is_elastic k = false -> 0 <= t <= 1 -> 0 <= normalized k t <= 1.
Proof.
  intros Hl Ht. destruct (is_expo k) eqn:Hx.
  - destruct (expo_range t Ht) as (H1 & H2 & H3).
    destruct k; try discriminate; assumption.
  - pose proof (polynomial_range k t Hl Hx) as Hp.
    destruct (sine_range t Ht) as (S1 & S2 & S3).
    destruct (circ_range t Ht) as (C1 & C2 & C3).
    destruct k; try discriminate; try assumption; exact (Hp Ht).
Qed.

Lemma curve_range_witness : 0 <= normalized EaseInOutCirc (3 / 4) <= 1.
Proof. apply (curve_range EaseInOutCirc (3 / 4)); [reflexivity|lra]. Defined.

(** X12: the elastic curves leave [0, 1] within the run: the normalized
    ease-in curve is negative at 17/20 of the time and the normalized
    ease-out curve exceeds 1 at 3/20 of it. *)
Theorem elastic_overshoots :
  (exists t, 0 <= t <= 1 /\ normalized EaseInElastic t < 0)
  /\ (exists t, 0 <= t <= 1 /\ 1 < normalized EaseOutElastic t).
Proof.
  split.
  - exists (17 / 20). split; [lra|]. unfold_curves. split_cases; try lra.
    assert (E : 0.3 = 3 / 10) by lra. rewrite !E.
    replace (((17 / 20 / 1 - 1) * 1 - 1 * (3 / 10) / 4) * (2 * PI) / (1 * (3 / 10)))
      with (- (3 * (PI / 2))) by field.
    rewrite sin_neg, sin_3PI2.
    assert (H : 0 < Rpower 2 (10 * (17 / 20 / 1 - 1)))
      by (unfold Rpower; apply exp_pos).
    lra.
  - exists (3 / 20). split; [lra|]. unfold_curves. split_cases; try lra.
    assert (E : 0.3 = 3 / 10) by lra. rewrite !E.
    replace ((3 / 20 / 1 * 1 - 1 * (3 / 10) / 4) * (2 * PI) / (1 * (3 / 10)))
      with (PI / 2) by field.
    rewrite sin_PI2.
    assert (H : 0 < Rpower 2 (-10 * (3 / 20 / 1)))
      by (unfold Rpower; apply exp_pos).
    lra.
Qed.

End EasingCalcFacts.

(** ** More of the tween state machine *)
Module TweenMoreFacts.
Import PyNum Lerp Tween.

Ltac methods :=
  unfold done, handle_repeat, complete, restart, reset, start, stop, flip,
    pause, unpause, fire, now, bind, ret in *.

Ltac conditions :=
  repeat match goal with
         | |- context [if ?c then _ else _] => destruct c eqn:?
         end.

Lemma trigger_empty name arg : Events.trigger name arg ∅ = [].
Proof. unfold Events.trigger. rewrite lookup_empty. reflexivity. Qed.

Lemma done_silent s w :
  events s = ∅ -> events (done s w).1 = ∅ /\ calls (done s w).2 = calls w.
Proof.
  intros He. methods. conditions; cbn; rewrite ?He, ?trigger_empty, ?app_nil_r;
    split; reflexivity.
Qed.

Lemma step_silent ease o s w :
  events s = ∅ -> events (step ease o s w).1 = ∅ /\ calls (step ease o s w).2 = calls w.
Proof.
  intros He. destruct o; cbn [step].
  - methods. cbn. split; [exact He|reflexivity].
  - methods. conditions; cbn; split; reflexivity.
  - methods. conditions; cbn; split; try exact He; reflexivity.
  - methods. conditions; cbn; split; try exact He; reflexivity.
  - methods. conditions; cbn; split; try exact He; reflexivity.
  - methods. cbn. split; [exact He|reflexivity].
  - unfold update, bind, ret, now, fire. cbv beta iota.
    destruct (is_paused s); [split; [exact He|reflexivity]|].
    destruct (is_completed s); [split; [exact He|reflexivity]|].
    destruct (is_running s); cbn [negb]; [|split; [exact He|reflexivity]].
    destruct (elapsed_fraction _ s) as [frac|]; [|split; [exact He|reflexivity]].
    cbn [direction time set_time].
    match goal with
    | |- context [match ?t with Some _ => _ | None => _ end] => destruct t as [tt|]
    end; [|split; [exact He|reflexivity]].
    destruct (tween_value _ _ _) as [v|]; [|split; [exact He|reflexivity]].
    cbn [value events time set_value set_time]. rewrite He, trigger_empty, app_nil_r.
    destruct (num_geb frac (NInt 1)).
    + match goal with |- context [done ?s0 ?w0] =>
        pose proof (done_silent s0 w0 He) as Hd; destruct (done s0 w0) as [s1 w1]
      end.
      cbn in *. exact Hd.
    + cbn. split; [exact He|reflexivity].
Qed.

Lemma run_silent ease ops :
  forall s w, events s = ∅ ->
    events (run ease ops s w).1 = ∅ /\ calls (run ease ops s w).2 = calls w.
Proof.
  induction ops as [|o ops IH]; intros s w He; [split; [exact He|reflexivity]|].
  cbn [run]. unfold bind.
  destruct (step_silent ease o s w He) as [He' Hc'].
  destruct (step ease o s w) as [s' w']. cbn [fst snd] in *.
  destruct (IH s' w' He') as [H1 H2]. split; [exact H1|congruence].
Qed.

Lemma complete_events s w : events (complete s w).1 = ∅.
Proof. methods. conditions; reflexivity. Qed.

(** X13: [stop()] cuts a tween off from its listeners for good: whatever
    run of start, stop, restart, pause, unpause, flip and update follows
    it, no listener is called and the registry stays empty. *)
Theorem silent_after_stop (ease : Easing.curve -> number -> option number)
    (ops : list op) (s : Tween) (w w' : World) :
  events (run ease ops (stop s w).1 w').1 = ∅
  /\ calls (run ease ops (stop s w).1 w').2 = calls w'.
Proof. apply run_silent. reflexivity. Qed.

(** X14: the [update()] that completes a tween leaves it without
    listeners ([complete()] ends in [stop()]), so that nothing that
    follows, [restart()] and a second completion included, calls a
    listener again: a tween notifies of its completion at most once. *)
Theorem silent_after_completion (ease : Easing.curve -> number -> option number)
    (ops : list op) (s : Tween) (w w' : World) :
  is_completed s = false ->
  is_completed (update ease s w).1.1 = true ->
  events (update ease s w).1.1 = ∅
  /\ calls (run ease ops (update ease s w).1.1 w').2 = calls w'.
Proof.
  intros Hc Hc'.
  assert (He : events (update ease s w).1.1 = ∅).
  { pose proof (TweenFacts.update_flags ease s w) as Hu. cbv zeta in Hu.
    destruct Hu as [[Hu _] | [_ (s0 & w0 & Hu)]]; [congruence|].
    rewrite Hu in Hc' |- *.
    destruct (TweenFacts.done_ends s0 w0) as [(s1 & w1 & E) | (s1 & w1 & E)];
      rewrite E in Hc' |- *.
    - destruct (TweenFacts.restart_effect s1 w1) as (Hr & _). congruence.
    - apply complete_events. }
  split; [exact He|]. apply run_silent. exact He.
Qed.

Lemma silent_after_completion_witness :
  let s := (init (PInt 0) (PInt 100) (NFloat (f64 1)) "linear" 1 (Some 1%nat) (Some 2%nat)
              true 0 (ticking 1000)).1 in
  let w := (init (PInt 0) (PInt 100) (NFloat (f64 1)) "linear" 1 (Some 1%nat) (Some 2%nat)
              true 0 (ticking 1000)).2 in
  calls (run ease_linear [OpRestart; OpUpdate; OpUpdate]
           (update ease_linear s w).1.1 (update ease_linear s w).2).2
  = calls (update ease_linear s w).2.
Proof.
  cbv zeta.
  apply (silent_after_completion ease_linear [OpRestart; OpUpdate; OpUpdate]).
  - vm_compute. reflexivity.
  - vm_compute. reflexivity.
Defined.

(** X15: the time a tween spends paused does not count: after [pause()]
    at clock reading [t1] and [unpause()] at reading [t2] the tween is as
    it was but for [pause_duration], which has grown by [t2 - t1], so that
    its elapsed fraction at a time is what it was [t2 - t1] earlier; while
    paused, [update()] returns the value without reading the clock or
    calling a listener. *)
Theorem pause_excludes_interval (ease : Easing.curve -> number -> option number)
    (s : Tween) (w w' : World) (ts : Z) :
  is_paused s = false ->
  let paused := (pause s w).1 in
  let resumed := (unpause paused w').1 in
  let gap := readings w' (taken w') - readings w (taken w) in
  is_paused paused = true
  /\ update ease paused w' = (paused, Some (value s), w')
  /\ resumed = set_paused_at 0 (set_pause_duration (pause_duration s + gap) s)
  /\ elapsed_fraction ts resumed = elapsed_fraction (ts - gap) s.
Proof.
  intros Hp. cbv zeta. unfold pause, unpause, update. rewrite Hp. cbn [negb].
  unfold bind, now, ret. cbn [fst snd is_paused set_is_paused set_paused_at].
  repeat split.
  - destruct s; cbn in *. subst. reflexivity.
  - unfold elapsed_fraction. cbn.
    replace (ts - start_time s
             - (pause_duration s + (readings w' (taken w') - readings w (taken w))))
      with (ts - (readings w' (taken w') - readings w (taken w)) - start_time s
            - pause_duration s) by lia.
    reflexivity.
Qed.

Lemma pause_excludes_interval_witness :
  let s := (init (PInt 0) (PInt 100) (NFloat (f64 1)) "linear" 1 None None
              true 0 (ticking 100)).1 in
  let w := (init (PInt 0) (PInt 100) (NFloat (f64 1)) "linear" 1 None None
              true 0 (ticking 100)).2 in
  elapsed_fraction 900 (unpause (pause s w).1 (pause s w).2).1 = elapsed_fraction 800 s.
Proof.
  cbv zeta.
  pose proof (pause_excludes_interval ease_linear
                (init (PInt 0) (PInt 100) (NFloat (f64 1)) "linear" 1 None None
                   true 0 (ticking 100)).1
                (init (PInt 0) (PInt 100) (NFloat (f64 1)) "linear" 1 None None
                   true 0 (ticking 100)).2
                (pause (init (PInt 0) (PInt 100) (NFloat (f64 1)) "linear" 1 None None
                          true 0 (ticking 100)).1
                       (init (PInt 0) (PInt 100) (NFloat (f64 1)) "linear" 1 None None
                          true 0 (ticking 100)).2).2
                900 ltac:(vm_compute; reflexivity)) as H.
  cbv zeta in H. destruct H as (_ & _ & _ & H). exact H.
Defined.

Lemma ltb_int_geb (z : Z) (y : number) :
  (num_ltb (NInt z) y = true -> num_geb y (NInt z) = true)
  /\ (num_ltb y (NInt z) = true -> num_geb (NInt z) y = true).
Proof.
  unfold num_ltb, num_geb. destruct y as [b|f]; cbn [num_compare].
  - rewrite (Z.compare_antisym z b). destruct (z ?= b); cbn; split; congruence.
  - destruct (compare_float_int f z) as [[]|]; cbn; split; congruence.
Qed.

(** X16: the elapsed fraction [update()] stores in [time] is a number
    between 0 and 1, whatever the clock and the duration are (a clock that
    ran backwards gives 0, and a quotient that is not a number gives
    1). *)
Theorem elapsed_fraction_clamped (ts : Z) (s : Tween) (x : number) :
  elapsed_fraction ts s = Some x ->
  num_geb x (NInt 0) = true /\ num_geb (NInt 1) x = true.
Proof.
  unfold elapsed_fraction.
  destruct (num_truediv _ (NFloat (f64 1000))) as [dt|]; [|discriminate].
  destruct (num_truediv dt _) as [r|]; [|discriminate].
  intros [= <-]. unfold py_max, py_min.
  destruct (num_ltb r (NInt 1)) eqn:H1.
  - destruct (num_ltb (NInt 0) r) eqn:H0.
    + split; [apply (ltb_int_geb 0 r), H0|apply (ltb_int_geb 1 r), H1].
    + split; reflexivity.
  - split; reflexivity.
Qed.

Lemma elapsed_fraction_clamped_witness :
  let s := (init (PInt 0) (PInt 100) (NFloat (f64 1)) "linear" 1 None None
              true 0 (ticking 100)).1 in
  elapsed_fraction 600 s = Some (NFloat (f64 0.5))
  /\ num_geb (NFloat (f64 0.5)) (NInt 0) = true
  /\ num_geb (NInt 1) (NFloat (f64 0.5)) = true.
Proof.
  cbv zeta. split; [vm_compute; reflexivity|].
  apply (elapsed_fraction_clamped 600
           (init (PInt 0) (PInt 100) (NFloat (f64 1)) "linear" 1 None None
              true 0 (ticking 100)).1 (NFloat (f64 0.5))).
  vm_compute. reflexivity.
Defined.

(** X17: the last [update()] of a tween without ping-pong, the one whose
    elapsed fraction has reached 1 in the last repeat cycle: it returns
    the end value [to_value] and leaves the tween completed, not running
    and holding that value, also when the tween had been flipped and ran
    from [to_value] down; listeners of 'update' are called twice by it,
    with the interpolated value and then with the end value, before the
    listeners of 'complete' are called with the end value. *)
Theorem final_update (ease : Easing.curve -> number -> option number)
    (s : Tween) (w : World) (frac tween_time : number) (v : pyval) :
  is_paused s = false -> is_completed s = false -> is_running s = true ->
  TweenProps.pingpong (props s) = 0 -> Finishing.last_cycle s = true ->
  elapsed_fraction (readings w (taken w)) s = Some frac ->
  num_geb frac (NInt 1) = true ->
  (if direction s =? 1 then Some frac else num_sub (NInt 1) frac) = Some tween_time ->
  tween_value ease (set_time frac s) tween_time = Some v ->
  let end_value := TweenProps.to_value (props s) in
  let r := update ease s w in
  r.1.2 = Some end_value /\ value r.1.1 = end_value
  /\ is_completed r.1.1 = true /\ is_running r.1.1 = false
  /\ count r.1.1 = count s + 1
  /\ calls r.2 = calls w ++ Events.trigger "update" v (events s)
                         ++ Events.trigger "update" end_value (events s)
                         ++ Events.trigger "complete" end_value (events s).
Proof.
  intros Hp Hc Hr Hpp Hlast Hf Hge Ht Hv. cbv zeta.
  unfold update. rewrite Hp, Hc, Hr. cbn [negb].
  unfold bind, now, fire, ret. cbv beta iota. rewrite Hf.
  cbn [direction time set_time]. rewrite Ht, Hv.
  cbn [value events time set_value set_time]. rewrite Hge.
  unfold done. cbn [props set_value set_time]. rewrite Hpp.
  change (negb (0 =? 0)) with false. cbv iota.
  unfold handle_repeat. cbn [props count set_count set_value set_time].
  unfold Finishing.last_cycle in Hlast.
  destruct (TweenProps.repeat (props s) =? 0) eqn:H0.
  - unfold complete, stop, bind, fire, ret. cbn. rewrite Hr. cbn.
    rewrite <- !app_assoc. repeat split.
  - cbn [orb] in Hlast. apply andb_prop in Hlast as [H1 H2].
    apply negb_true_iff in H1, H2. rewrite H1, H2.
    unfold complete, stop, bind, fire, ret. cbn. rewrite Hr. cbn.
    rewrite <- !app_assoc. repeat split.
Qed.

Lemma final_update_witness :
  let s := (init (PInt 0) (PInt 100) (NFloat (f64 1)) "linear" 1 (Some 1%nat) (Some 2%nat)
              true 0 (ticking 1000)).1 in
  let w := (init (PInt 0) (PInt 100) (NFloat (f64 1)) "linear" 1 (Some 1%nat) (Some 2%nat)
              true 0 (ticking 1000)).2 in
  calls (update ease_linear s w).2
  = [(1%nat, PInt 100); (1%nat, PInt 100); (2%nat, PInt 100)].
Proof.
  cbv zeta.
  pose proof (final_update ease_linear
                (init (PInt 0) (PInt 100) (NFloat (f64 1)) "linear" 1 (Some 1%nat)
                   (Some 2%nat) true 0 (ticking 1000)).1
                (init (PInt 0) (PInt 100) (NFloat (f64 1)) "linear" 1 (Some 1%nat)
                   (Some 2%nat) true 0 (ticking 1000)).2
                (NInt 1) (NInt 1) (PInt 100)
                ltac:(vm_compute; reflexivity) ltac:(vm_compute; reflexivity)
                ltac:(vm_compute; reflexivity) ltac:(vm_compute; reflexivity)
                ltac:(vm_compute; reflexivity) ltac:(vm_compute; reflexivity)
                ltac:(vm_compute; reflexivity) ltac:(vm_compute; reflexivity)
                ltac:(vm_compute; reflexivity)) as H.
  cbv zeta in H. destruct H as (_ & _ & _ & _ & _ & H).
  rewrite H. vm_compute. reflexivity.
Defined.

Lemma done_endless s w :
  Finishing.endless (props s) = true ->
  is_completed (done s w).1 = false /\ props (done s w).1 = props s.
Proof.
  unfold Finishing.endless. intros He. methods.
  cbn [props set_value set_pingpong set_direction set_count direction pingpong count].
  conditions; cbn; try (split; reflexivity); exfalso;
    repeat match goal with
           | H : (_ || _)%bool = false |- _ => apply orb_false_elim in H as [? ?]
           | H : negb _ = false |- _ => apply negb_false_iff in H
           | H : negb _ = true |- _ => apply negb_true_iff in H
           end;
    repeat match goal with
           | H : (_ =? _) = true |- _ => apply Z.eqb_eq in H
           | H : (_ =? _) = false |- _ => apply Z.eqb_neq in H
           end;
    first [ discriminate He
          | apply orb_prop in He as [He|He];
            first [ discriminate He | apply Z.eqb_eq in He; lia ] ].
Qed.

Lemma step_endless ease o s w :
  Finishing.endless (props s) = true -> is_completed s = false ->
  is_completed (step ease o s w).1 = false /\ props (step ease o s w).1 = props s.
Proof.
  intros He Hc. destruct o; cbn [step].
  - methods. cbn. split; [exact Hc|reflexivity].
  - methods. conditions; cbn; split; try exact Hc; reflexivity.
  - methods. conditions; cbn; split; reflexivity.
  - methods. conditions; cbn; split; try exact Hc; reflexivity.
  - methods. conditions; cbn; split; try exact Hc; reflexivity.
  - methods. cbn. split; [exact Hc|reflexivity].
  - unfold update, bind, ret, now, fire. cbv beta iota.
    destruct (is_paused s); [split; [exact Hc|reflexivity]|].
    rewrite Hc.
    destruct (is_running s); cbn [negb]; [|split; [exact Hc|reflexivity]].
    destruct (elapsed_fraction _ s) as [frac|]; [|split; [exact Hc|reflexivity]].
    cbn [direction time set_time].
    match goal with
    | |- context [match ?t with Some _ => _ | None => _ end] => destruct t as [tt|]
    end; [|split; [exact Hc|reflexivity]].
    destruct (tween_value _ _ _) as [v|]; [|split; [exact Hc|reflexivity]].
    cbn [value events time set_value set_time].
    destruct (num_geb frac (NInt 1)).
    + match goal with |- context [done ?s0 ?w0] =>
        pose proof (done_endless s0 w0 He) as Hd; destruct (done s0 w0) as [s1 w1]
      end.
      cbn in *. exact Hd.
    + cbn. split; [exact Hc|reflexivity].
Qed.

(** X18: a tween configured with [repeat = -1] or [pingpong = -1] never
    completes: from a state that is not completed, no run of start, stop,
    restart, pause, unpause, flip and update sets [is_completed] (every
    cycle boundary ends in [restart()]), so that [Tweens.update()] never
    drops it. *)
Theorem endless_never_completes (ease : Easing.curve -> number -> option number)
    (ops : list op) (s : Tween) (w : World) :
  Finishing.endless (props s) = true -> is_completed s = false ->
  is_completed (run ease ops s w).1 = false.
Proof.
  revert s w. induction ops as [|o ops IH]; intros s w He Hc; [exact Hc|].
  cbn [run]. unfold bind.
  destruct (step_endless ease o s w He Hc) as [Hc' Hp'].
  destruct (step ease o s w) as [s' w']. cbn [fst] in *.
  apply IH; [rewrite Hp'; exact He|exact Hc'].
Qed.

Lemma endless_never_completes_witness :
  let s := (init (PInt 0) (PInt 100) (NFloat (f64 1)) "linear" (-1) None None
              true 0 (ticking 1000)).1 in
  let w := (init (PInt 0) (PInt 100) (NFloat (f64 1)) "linear" (-1) None None
              true 0 (ticking 1000)).2 in
  is_completed (run ease_linear [OpUpdate; OpUpdate; OpUpdate] s w).1 = false.
Proof.
  cbv zeta.
  apply (endless_never_completes ease_linear [OpUpdate; OpUpdate; OpUpdate]).
  - vm_compute. reflexivity.
  - vm_compute. reflexivity.
Defined.

End TweenMoreFacts.

(** ** More of the interpolator *)
Module SequencesFacts.
Import PyNum Lerp Sequences.

Lemma lerp_zip_items (v : number) :
  forall xs ys rs, lerp_zip v xs ys = Some rs ->
    length rs = Nat.min (length xs) (length ys)
    /\ forall i x y, xs !! i = Some x -> ys !! i = Some y -> rs !! i = lerp x y v.
Proof.
  induction xs as [|x xs IH]; intros ys rs.
  - cbn. intros [= <-]. split; [reflexivity|]. intros i x y Hx. discriminate.
  - destruct ys as [|y ys].
    + cbn. intros [= <-]. split; [reflexivity|]. intros i x' y' _ Hy. discriminate.
    + cbn [lerp_zip].
      destruct (lerp x y v) as [z|] eqn:Ez; [|discriminate].
      destruct (lerp_zip v xs ys) as [zs|] eqn:Ezs; [|discriminate].
      intros [= <-]. destruct (IH ys zs Ezs) as [Hlen Hnth].
      split; [cbn; rewrite Hlen; reflexivity|].
      intros [|i] x' y'; cbn.
      * intros [= <-] [= <-]. symmetry. exact Ez.
      * apply Hnth.
Qed.

(** X19: on a list or tuple [lerp] pairs the elements as [zip] does: the
    result is a sequence of the type of the start value, as long as the
    shorter of the two arguments (elements of the longer one beyond that
    are dropped, with no error), and its element at each position is the
    [lerp] of the two elements there. *)
Theorem lerp_zip_truncates (a b r : pyval) (v : number) (xs : list pyval) :
  items a = Some xs -> lerp a b v = Some r ->
  exists ys rs,
    py_iter b = Some ys /\ r = rebuild a rs
    /\ length rs = Nat.min (length xs) (length ys)
    /\ forall i x y, xs !! i = Some x -> ys !! i = Some y -> rs !! i = lerp x y v.
Proof.
  intros Ha Hr.
  destruct a as [z|f|s|l|l|o]; try discriminate; injection Ha as ->.
  - rewrite LerpFacts.lerp_list in Hr.
    destruct (py_iter b) as [ys|]; [|discriminate].
    destruct (lerp_zip v xs ys) as [rs|] eqn:E; [|discriminate].
    injection Hr as <-. exists ys, rs.
    destruct (lerp_zip_items v xs ys rs E) as [H1 H2]. repeat split; assumption.
  - rewrite LerpFacts.lerp_tuple in Hr.
    destruct (py_iter b) as [ys|]; [|discriminate].
    destruct (lerp_zip v xs ys) as [rs|] eqn:E; [|discriminate].
    injection Hr as <-. exists ys, rs.
    destruct (lerp_zip_items v xs ys rs E) as [H1 H2]. repeat split; assumption.
Qed.

Lemma lerp_zip_truncates_witness :
  exists ys rs,
    py_iter (PTuple [PInt 10; PInt 20]) = Some ys
    /\ PList [PInt 5] = rebuild (PList [PInt 0]) rs
    /\ length rs = Nat.min (length [PInt 0]) (length ys)
    /\ forall i x y, [PInt 0] !! i = Some x -> ys !! i = Some y ->
         rs !! i = lerp x y (NFloat (f64 0.5)).
Proof.
  apply (lerp_zip_truncates (PList [PInt 0]) (PTuple [PInt 10; PInt 20]) (PList [PInt 5])
           (NFloat (f64 0.5)) [PInt 0]).
  - reflexivity.
  - vm_compute. reflexivity.
Defined.

(** X20: the result of [lerp] takes its type from the start value: an
    integer start gives an integer (the scaled difference is truncated)
    also when the end value or the fraction is a float, a float start
    gives a float, a string start gives a slice of the end value, and a
    start value of any other type gives the end value itself. *)
Theorem lerp_takes_start_type (a b r : pyval) (v : number) :
  lerp a b v = Some r ->
  match a with
  | PInt _ => exists z, r = PInt z
  | PFloat _ => exists f, r = PFloat f
  | PStr _ => exists pos, py_slice_to b pos = Some r
  | PList _ => exists l, r = PList l
  | PTuple _ => exists l, r = PTuple l
  | PObj _ => r = b
  end.
Proof.
  destruct a as [z|f|s|l|l|o].
  - cbn [lerp]. destruct (as_number b) as [nb|]; [|discriminate].
    destruct (num_sub nb (NInt z)) as [d|]; [|discriminate].
    destruct (num_mul d v) as [p|]; [|discriminate].
    destruct (py_int p) as [k|]; [|discriminate].
    intros [= <-]. eauto.
  - cbn [lerp]. destruct (as_number b) as [nb|]; [|discriminate].
    destruct (num_sub nb (NFloat f)) as [d|]; [|discriminate].
    destruct (num_mul d v) as [p|]; [|discriminate].
    unfold num_add, arith.
    destruct p as [pz|pf]; cbn [to_float];
      repeat match goal with
             | |- context [match ?t with Some _ => _ | None => _ end] => destruct t
             end; cbn; intros [= <-]; eauto.
  - cbn [lerp]. destruct (py_len b) as [blen|]; [|discriminate].
    destruct (num_mul _ v) as [p|]; [|discriminate].
    destruct (py_int p) as [pos|]; [|discriminate].
    intros H. eauto.
  - rewrite LerpFacts.lerp_list. destruct (py_iter b) as [ys|]; [|discriminate].
    destruct (lerp_zip v l ys) as [rs|]; [|discriminate]. intros [= <-]. eauto.
  - rewrite LerpFacts.lerp_tuple. destruct (py_iter b) as [ys|]; [|discriminate].
    destruct (lerp_zip v l ys) as [rs|]; [|discriminate]. intros [= <-]. eauto.
  - cbn. intros [= <-]. reflexivity.
Qed.

Lemma lerp_takes_start_type_witness :
  lerp (PInt 0) (PFloat (f64 1)) (NFloat (f64 0.5)) = Some (PInt 0)
  /\ exists z, PInt 0 = PInt z.
Proof.
  split; [vm_compute; reflexivity|].
  apply (lerp_takes_start_type (PInt 0) (PFloat (f64 1)) (PInt 0) (NFloat (f64 0.5))).
  vm_compute. reflexivity.
Defined.

End SequencesFacts.

(** ** More of the collection, and the group *)
Module ReapingFacts.
Import PyNum Lerp Tween Tweens Reaping.





(** Three tweens appended to a collection, the first of which has run
    out by the next [update()]: the collection then holds the other two,
    and the handle of the first shows it completed. *)
Example update_three :
  let w0 := ticking 1000 in
  let '(c1, h1, r1, w1) := append (PInt 0) (PInt 50) (NFloat (f64 1)) "linear" 1 None 0
                             init ∅ w0 in
  let '(c2, h2, r2, w2) := append (PInt 0) (PInt 100) (NInt 10) "linear" 1
                             (Some 4%nat) 0 c1 h1 w1 in
  let '(c3, h3, r3, w3) := append (PInt 0) (PInt 10) (NInt 10) "linear" 1
                             None 0 c2 h2 w2 in
  let '(c, h, returned, w) := update ease_linear c3 h3 w3 in
  returned = true /\ tweens c3 = [r1; r2; r3] /\ tweens c = [r2; r3]
  /\ (is_completed <$> h !! r1) = Some true
  /\ (value <$> h !! r1) = Some (PInt 50)
  /\ (value <$> h !! r2) = Some (PInt 40)
  /\ calls w = [(4%nat, PInt 40)].
Proof. vm_compute. repeat split; reflexivity. Qed.

Lemma for_each_frame method rs :
  forall (h : heap) w r, r ∉ rs -> (for_each method rs h w).1 !! r = h !! r.
Proof.
  induction rs as [|x rs IH]; intros h w r Hr; [reflexivity|].
  apply not_elem_of_cons in Hr as [Hne Hr]. cbn [for_each]. unfold bind, call.
  destruct (h !! x) as [s|]; unfold bind, ret.
  - destruct (method s w) as [s' w']. rewrite IH by exact Hr.
    apply lookup_insert_ne. congruence.
  - apply IH. exact Hr.
Qed.

Lemma for_each_all (P : Tween -> Prop) method rs :
  (forall s w, P (method s w).1) ->
  forall (h : heap) w r s, r ∈ rs -> h !! r = Some s ->
    exists s', (for_each method rs h w).1 !! r = Some s' /\ P s'.
Proof.
  intros HP. induction rs as [|x rs IH]; intros h w r s Hr E.
  - apply elem_of_nil in Hr as [].
  - cbn [for_each]. unfold bind, call.
    destruct (decide (r ∈ rs)) as [Hin|Hout].
    + destruct (h !! x) as [sx|] eqn:Ex; unfold bind, ret.
      * destruct (method sx w) as [sx' w'].
        destruct (decide (r = x)) as [->|Hne].
        -- apply (IH _ _ x sx' Hin). apply lookup_insert_eq.
        -- apply (IH _ _ r s Hin). rewrite lookup_insert_ne by congruence. exact E.
      * apply (IH _ _ r s Hin E).
    + apply elem_of_cons in Hr as [->|Hr]; [|contradiction].
      rewrite E. unfold bind, ret.
      pose proof (HP s w) as Hs. destruct (method s w) as [s' w']. cbn [fst] in Hs.
      rewrite for_each_frame by exact Hout.
      exists s'. split; [apply lookup_insert_eq|exact Hs].
Qed.

(** X22: [Tweens.pause()] pauses and [Tweens.unpause()] resumes every
    tween of the collection, also one the list holds twice, and neither
    touches a tween object outside it. *)
Theorem pause_reaches_all (self : Tweens) (h : heap) (w : World) :
  (forall r s, r ∈ tweens self -> h !! r = Some s ->
     (exists s', (pause self h w).1.2 !! r = Some s' /\ is_paused s' = true)
     /\ (exists s', (unpause self h w).1.2 !! r = Some s' /\ is_paused s' = false))
  /\ forall r, r ∉ tweens self ->
       (pause self h w).1.2 !! r = h !! r /\ (unpause self h w).1.2 !! r = h !! r.
Proof.
  unfold pause, unpause, bind, ret. split.
  - intros r s Hr E. split.
    + destruct (for_each_all (fun s => is_paused s = true) Tween.pause (tweens self))
        with (h := h) (w := w) (r := r) (s := s) as (s' & Hs' & Hp); try assumption.
      * intros s0 w0. unfold Tween.pause, bind, now, ret.
        destruct (is_paused s0) eqn:E0; [exact E0|reflexivity].
      * destruct (for_each Tween.pause (tweens self) h w). eauto.
    + destruct (for_each_all (fun s => is_paused s = false) Tween.unpause (tweens self))
        with (h := h) (w := w) (r := r) (s := s) as (s' & Hs' & Hp); try assumption.
      * intros s0 w0. unfold Tween.unpause, bind, now, ret.
        destruct (is_paused s0) eqn:E0; [reflexivity|exact E0].
      * destruct (for_each Tween.unpause (tweens self) h w). eauto.
  - intros r Hr.
    pose proof (for_each_frame Tween.pause (tweens self) h w r Hr) as H1.
    pose proof (for_each_frame Tween.unpause (tweens self) h w r Hr) as H2.
    destruct (for_each Tween.pause (tweens self) h w).
    destruct (for_each Tween.unpause (tweens self) h w). split; assumption.
Qed.

(** X23: [Tweens.append(...)] builds a tween at a reference of its own
    and puts it last: the tween is running, not paused and not completed,
    holds the start value, and has no listener for 'complete' (the method
    passes none on); the other tween objects are as they were. *)
Theorem append_adds_one (from_value to_value : pyval) (duration : number)
    (easing : string) (repeat : Z) (update_callback : option Events.callback)
    (pingpong : Z) (self : Tweens) (h : heap) (w : World) :
  let self' := (append from_value to_value duration easing repeat update_callback
                  pingpong self h w).1.1.1 in
  let h' := (append from_value to_value duration easing repeat update_callback
               pingpong self h w).1.1.2 in
  let r := (append from_value to_value duration easing repeat update_callback
              pingpong self h w).1.2 in
  tweens self' = tweens self ++ [r] /\ h !! r = None
  /\ (forall r', r' <> r -> h' !! r' = h !! r')
  /\ exists s, h' !! r = Some s
       /\ is_running s = true /\ is_paused s = false /\ is_completed s = false
       /\ value s = from_value /\ count s = 0
       /\ events s !! "complete"%string = None.
Proof.
  cbv zeta. unfold append, Tween.init, Tween.reset, Tween.start, bind, now, ret.
  cbn [fst snd tweens].
  split; [reflexivity|]. split; [apply not_elem_of_dom, is_fresh|].
  split; [intros r' Hne; apply lookup_insert_ne; congruence|].
  eexists. split; [apply lookup_insert_eq|].
  cbn. repeat split.
  destruct update_callback as [f|]; cbn.
  - rewrite lookup_insert_ne by discriminate. apply lookup_empty.
  - apply lookup_empty.
Qed.

End ReapingFacts.

Module GroupFacts.
Import PyNum Lerp Tween Tweens Reaping Group.

Lemma for_each_stop rs :
  forall (h : heap) w,
    for_each Tween.stop rs h w = (foldl (fun h r => alter stopped r h) h rs, w).
Proof.
  induction rs as [|r rs IH]; intros h w; [reflexivity|].
  cbn [for_each foldl]. unfold bind. rewrite TweensFacts.call_stop. apply IH.
Qed.

Lemma stopped_all_lookup rs :
  forall (h : heap) r,
    foldl (fun h r => alter stopped r h) h rs !! r
    = if decide (r ∈ rs) then stopped <$> h !! r else h !! r.
Proof.
  induction rs as [|x rs IH]; intros h r.
  - cbn. destruct (decide (r ∈ [])) as [Hin|_]; [|reflexivity].
    apply elem_of_nil in Hin as [].
  - cbn [foldl]. rewrite IH.
    destruct (decide (r = x)) as [->|Hne].
    + rewrite lookup_alter_eq.
      destruct (decide (x ∈ x :: rs)) as [_|Hn];
        [|exfalso; apply Hn; apply list_elem_of_here].
      destruct (decide (x ∈ rs)); [|reflexivity].
      destruct (h !! x) as [s|]; [|reflexivity].
      cbn. rewrite TweensFacts.stopped_idemp. reflexivity.
    + rewrite lookup_alter_ne by congruence.
      destruct (decide (r ∈ rs)) as [Hin|Hin];
        destruct (decide (r ∈ x :: rs)) as [Hin'|Hin']; try reflexivity; exfalso.
      * apply Hin'. apply list_elem_of_further. exact Hin.
      * apply elem_of_cons in Hin' as [H'|H']; [exact (Hne H')|exact (Hin H')].
Qed.

Lemma stopped_completed s : is_completed (stopped s) = is_completed s.
Proof. unfold stopped. destruct (is_running s); reflexivity. Qed.

(** X24: [TweenGroup.stop()] stops every tween of the group (not
    running, listeners cleared, so that a callback subscribed through the
    group is no longer reached), keeps the group's list and touches no
    other tween; it completes nothing: [is_complete] is what it was. *)
Theorem group_stop (self : TweenGroup) (h : heap) (w : World) :
  let self' := (stop self h w).1.1 in
  let h' := (stop self h w).1.2 in
  self' = self
  /\ (forall r, h' !! r = if decide (r ∈ tweens self) then stopped <$> h !! r else h !! r)
  /\ (forall s, is_running (stopped s) = false /\ events (stopped s) = ∅)
  /\ is_complete self h' = is_complete self h.
Proof.
  cbv zeta. unfold stop, bind, ret. rewrite for_each_stop. cbn [fst snd].
  split; [reflexivity|]. split; [apply stopped_all_lookup|].
  split; [apply TweensFacts.stopped_effect|].
  unfold is_complete.
  assert (Hc : forall r, completed (foldl (fun h r => alter stopped r h) h (tweens self)) r
                         = completed h r).
  { intros r. unfold completed. rewrite stopped_all_lookup.
    destruct (decide (r ∈ tweens self)); [|reflexivity].
    destruct (h !! r) as [s|]; [|reflexivity]. cbn. apply stopped_completed. }
  set (h' := foldl (fun h r => alter stopped r h) h (tweens self)) in *.
  clearbody h'.
  induction (tweens self) as [|r rs IH]; [reflexivity|].
  cbn [is_complete_from]. rewrite Hc, IH. reflexivity.
Qed.

End GroupFacts.
